(** * lld/ELF: the symbol table and call-graph section clustering

    A shallow embedding of [SymbolTable.cpp] and [CallGraphSort.cpp] and the
    properties of the two components:

    - the symbol table is a record of a name index ([symMap]), the vector of
      symbol pointers ([symVector]) and the arena the symbols live in; a
      [Symbol *] is the position of the object in the arena;
    - [uint64_t], [uint32_t], [uint16_t] and [size_t] values are integers of
      [Z] with the wrap-around written out; [double] is the binary64 type of
      [PrimFloat];
    - reading a vector out of its bounds is undefined behaviour in the source
      and [None] here; a null pointer is the inner [None] of
      [option (option nat)]. *)

From Stdlib Require Import ZArith Lia Floats Uint63 Ascii.
From stdpp Require Import base option list gmap strings sorting.

Open Scope Z_scope.

(** ** Machine integers and string views *)

Definition u64 (z : Z) : Z := z mod 2 ^ 64.

(** [StringRef::npos], the largest [size_t]. *)
Definition npos : Z := 2 ^ 64 - 1.

Definition str_size (s : string) : Z := Z.of_nat (String.length s).

Fixpoint find_from (c : ascii) (s : string) (i : Z) : Z :=
  match s with
  | EmptyString => npos
  | String a s' => if Ascii.eqb a c then i else find_from c s' (i + 1)
  end.

(** [StringRef::find(char)]. *)
Definition str_find (c : ascii) (s : string) : Z := find_from c s 0.

(** [s[i]] for [i] inside the string. *)
Definition char_at (s : string) (i : Z) : option ascii :=
  if (0 <=? i) && (i <? str_size s) then String.get (Z.to_nat i) s else None.

Definition char_is (o : option ascii) (c : ascii) : bool :=
  match o with Some a => Ascii.eqb a c | None => false end.

Fixpoint take_chars (n : nat) (s : string) : string :=
  match n, s with
  | S n', String a s' => String a (take_chars n' s')
  | _, _ => EmptyString
  end.

Fixpoint drop_chars (n : nat) (s : string) : string :=
  match n, s with
  | S n', String _ s' => drop_chars n' s'
  | _, _ => s
  end.

(** [StringRef::take_front(n)] and [substr(0, n)]. *)
Definition take_front (n : Z) (s : string) : string :=
  if str_size s <=? n then s else take_chars (Z.to_nat n) s.

(** [StringRef::substr(pos)]. *)
Definition substr_from (pos : Z) (s : string) : string :=
  if str_size s <=? pos then EmptyString else drop_chars (Z.to_nat pos) s.

(** [StringRef::contains(char)]. *)
Definition contains (c : ascii) (s : string) : bool := negb (str_find c s =? npos).

(** The test [pos + 1 < name.size() && name[pos + 1] == '@'], with the
    [size_t] addition wrapping. *)
Definition at_follows (pos : Z) (name : string) : bool :=
  (u64 (pos + 1) <? str_size name) && char_is (char_at name (u64 (pos + 1))) "@".

(** Iteration of a body that can fail. *)
Fixpoint foldM {A B : Type} (f : A → B → option A) (a : A) (l : list B) : option A :=
  match l with
  | [] => Some a
  | b :: l' => a' ← f a b; foldM f a' l'
  end.

(** ** Symbols *)

(** Modelled from the spec: the variants of a symbol's kind, declared in
    Symbols.h. *)
Inductive Kind := PlaceholderKind | UndefinedKind | DefinedKind | CommonKind | LazyKind.

Global Instance Kind_eq_dec : EqDecision Kind.
Proof. solve_decision. Defined.

Record Symbol := mkSymbol {
  getName : string;
  symbolKind : Kind;
  versionId : Z;
  verdefIndex : Z;
  visibility : Z;
  isUsedInRegularObj : bool;
  exportDynamic : bool;
  inDynamicList : bool;
  canInline : bool;
  referenced : bool;
  traced : bool;
  scriptDefined : bool;
  partition : Z
}.

Definition VER_NDX_LOCAL : Z := 0.
Definition VER_NDX_GLOBAL : Z := 1.
Definition STV_DEFAULT : Z := 0.
(** [UINT32_C(-1)], the mark of a symbol no version was assigned to. *)
Definition UINT32_MINUS_1 : Z := 2 ^ 32 - 1.

Definition isPlaceholder (s : Symbol) : bool := bool_decide (symbolKind s = PlaceholderKind).
Definition isUndefined (s : Symbol) : bool := bool_decide (symbolKind s = UndefinedKind).
Definition isDefined (s : Symbol) : bool := bool_decide (symbolKind s = DefinedKind).
Definition isCommon (s : Symbol) : bool := bool_decide (symbolKind s = CommonKind).
Definition isLazy (s : Symbol) : bool := bool_decide (symbolKind s = LazyKind).

Definition set_exportDynamic (b : bool) (s : Symbol) : Symbol :=
  mkSymbol (getName s) (symbolKind s) (versionId s) (verdefIndex s) (visibility s)
    (isUsedInRegularObj s) b (inDynamicList s) (canInline s) (referenced s)
    (traced s) (scriptDefined s) (partition s).

Definition set_isUsedInRegularObj (b : bool) (s : Symbol) : Symbol :=
  mkSymbol (getName s) (symbolKind s) (versionId s) (verdefIndex s) (visibility s)
    b (exportDynamic s) (inDynamicList s) (canInline s) (referenced s)
    (traced s) (scriptDefined s) (partition s).

Definition set_inDynamicList (b : bool) (s : Symbol) : Symbol :=
  mkSymbol (getName s) (symbolKind s) (versionId s) (verdefIndex s) (visibility s)
    (isUsedInRegularObj s) (exportDynamic s) b (canInline s) (referenced s)
    (traced s) (scriptDefined s) (partition s).

(** [sym->verdefIndex = 0; sym->versionId = id]. *)
Definition set_version (id : Z) (s : Symbol) : Symbol :=
  mkSymbol (getName s) (symbolKind s) id 0 (visibility s)
    (isUsedInRegularObj s) (exportDynamic s) (inDynamicList s) (canInline s)
    (referenced s) (traced s) (scriptDefined s) (partition s).

(** The fields [insert] initialises in a fresh [SymbolUnion]; the others
    keep what the allocation left there. *)
Definition init_placeholder (name : string) (raw : Symbol) : Symbol :=
  mkSymbol name PlaceholderKind VER_NDX_GLOBAL (verdefIndex raw) STV_DEFAULT
    false false false true false false false 1.

(** ** The linker's collaborators

    Code of other files the symbol table calls: the object [make<SymbolUnion>()]
    returns, the resolver, the glob matcher and the demangler. *)
Class Collaborators := {
  makeSymbolUnion : Symbol;
  resolve : Symbol → Symbol → Symbol;
  matcher_match : string → string → bool;
  demangleItanium : string → string
}.

(** Modelled from the spec: [Symbol::parseSymbolVersion] of Symbols.cpp, which
    normalises the name of a symbol that carries a version suffix and does
    not revisit the version id assigned to it. *)
Class SymbolParser := {
  parseSymbolVersion : Symbol → Symbol;
  parseSymbolVersion_versionId : ∀ s, versionId (parseSymbolVersion s) = versionId s;
  parseSymbolVersion_verdefIndex : ∀ s, verdefIndex (parseSymbolVersion s) = verdefIndex s
}.

(** ** Configuration *)

Record SymbolVersion := mkSymbolVersion {
  ver_name : string;
  isExternCpp : bool;
  hasWildcard : bool
}.

Record VersionDefinition := mkVersionDefinition {
  vd_name : string;
  vd_id : Z;
  nonLocalPatterns : list SymbolVersion;
  localPatterns : list SymbolVersion
}.

Record Configuration := mkConfiguration {
  versionDefinitions : list VersionDefinition;
  undefinedVersion : bool;
  dynamicList : list SymbolVersion
}.

(** The calls of [warn] and [errorOrWarn], oldest first: a reassignment
    warning carries the pattern and the two version ids, a miss carries the
    version and the pattern. *)
Inductive Diagnostic :=
  | warn_reassign (pattern : string) (oldVersion newVersion : Z)
  | errorOrWarn_not_defined (ver pattern : string).

(** ** The symbol table *)

Record SymbolTable := mkSymbolTable {
  symMap : gmap string nat;
  symVector : list nat;
  arena : list Symbol;
  demangledSyms : option (gmap string (list nat))
}.

Definition empty_table : SymbolTable := mkSymbolTable ∅ [] [] None.

Definition with_arena (a : list Symbol) (st : SymbolTable) : SymbolTable :=
  mkSymbolTable (symMap st) (symVector st) a (demangledSyms st).

(** The name [insert] looks up: [<name>@@<version>] loses its suffix. *)
Definition stripDefaultVersion (name : string) : string :=
  let pos := str_find "@" name in
  if negb (pos =? npos) && (pos + 1 <? str_size name) && char_is (char_at name (pos + 1)) "@"
  then take_front pos name
  else name.

Definition insert `{Collaborators} (name : string) (st : SymbolTable)
    : option (nat * SymbolTable) :=
  let name := stripDefaultVersion name in
  match symMap st !! name with
  | Some symIndex =>
      sym ← symVector st !! symIndex;
      Some (sym, st)
  | None =>
      let symIndex := length (symVector st) in
      let sym := length (arena st) in
      Some (sym,
            mkSymbolTable (<[name := symIndex]> (symMap st))
              (symVector st ++ [sym])
              (arena st ++ [init_placeholder name makeSymbolUnion])
              (demangledSyms st))
  end.

Definition addSymbol `{Collaborators} (newSym : Symbol) (st : SymbolTable)
    : option (nat * SymbolTable) :=
  '(sym, st) ← insert (getName newSym) st;
  old ← arena st !! sym;
  Some (sym, with_arena (<[sym := resolve old newSym]> (arena st)) st).

Definition nullptr : option nat := None.

Definition find (name : string) (st : SymbolTable) : option (option nat) :=
  match symMap st !! name with
  | None => Some nullptr
  | Some i =>
      sym ← symVector st !! i;
      s ← arena st !! sym;
      if isPlaceholder s then Some nullptr else Some (Some sym)
  end.

(** [symMap[key]]: the slot of [key], created holding 0 when the key is new. *)
Definition slot (key : string) (m : gmap string nat) : gmap string nat :=
  match m !! key with
  | Some _ => m
  | None => <[key := 0%nat]> m
  end.

Definition slot_value (key : string) (m : gmap string nat) : nat :=
  default 0%nat (m !! key).

(** The first half of [wrap]: the three slots [idx1], [idx2] and [idx3],
    in this order, then [idx2 = idx1; idx1 = idx3]. *)
Definition wrap_bindings (idx1 idx2 idx3 : string) (m : gmap string nat)
    : gmap string nat :=
  let m := slot idx3 (slot idx2 (slot idx1 m)) in
  let m := <[idx2 := slot_value idx1 m]> m in
  <[idx1 := slot_value idx3 m]> m.

(** The second half of [wrap]: the flags of [sym], then the copy of [*sym]
    over [*real]. *)
Definition wrap_contents (sym real : nat) (a : list Symbol) : option (list Symbol) :=
  r ← a !! real;
  let a := if exportDynamic r then alter (set_exportDynamic true) sym a else a in
  r ← a !! real;
  s ← a !! sym;
  let a := if negb (isUsedInRegularObj r) && isUndefined s
           then alter (set_isUsedInRegularObj false) sym a else a in
  s ← a !! sym;
  let a := <[real := s]> a in
  Some (alter (set_isUsedInRegularObj false) real a).

Definition wrap (sym real wrap : nat) (st : SymbolTable) : option SymbolTable :=
  s ← arena st !! sym;
  r ← arena st !! real;
  w ← arena st !! wrap;
  let m := wrap_bindings (getName s) (getName r) (getName w) (symMap st) in
  a ← wrap_contents sym real (arena st);
  Some (mkSymbolTable m (symVector st) a (demangledSyms st)).

Definition canBeVersioned (s : Symbol) : bool := isDefined s || isCommon s || isLazy s.

(** The key of a symbol in the demangled map. *)
Definition demangledName `{Collaborators} (name : string) : string :=
  let pos := str_find "@" name in
  if pos =? npos then demangleItanium name
  else if (u64 (pos + 1) =? str_size name) || char_is (char_at name (u64 (pos + 1))) "@"
  then demangleItanium (take_front pos name)
  else demangleItanium (take_front pos name) +:+ substr_from pos name.

Definition push_back_at (key : string) (sym : nat) (m : gmap string (list nat))
    : gmap string (list nat) :=
  <[key := default [] (m !! key) ++ [sym]]> m.

Definition buildDemangledSyms `{Collaborators} (st : SymbolTable)
    : option (gmap string (list nat)) :=
  foldM (λ m sym,
           s ← arena st !! sym;
           if canBeVersioned s
           then Some (push_back_at (demangledName (getName s)) sym m)
           else Some m)
        ∅ (symVector st).

Definition getDemangledSyms `{Collaborators} (st : SymbolTable)
    : option (gmap string (list nat) * SymbolTable) :=
  match demangledSyms st with
  | Some m => Some (m, st)
  | None =>
      m ← buildDemangledSyms st;
      Some (m, mkSymbolTable (symMap st) (symVector st) (arena st) (Some m))
  end.

Definition findByVersion `{Collaborators} (ver : SymbolVersion) (st : SymbolTable)
    : option (list nat * SymbolTable) :=
  if isExternCpp ver then
    '(m, st) ← getDemangledSyms st;
    Some (default [] (m !! ver_name ver), st)
  else
    o ← find (ver_name ver) st;
    match o with
    | Some sym =>
        s ← arena st !! sym;
        if canBeVersioned s then Some ([sym], st) else Some ([], st)
    | None => Some ([], st)
    end.

(** The lambda [check] of [findAllByVersion]. *)
Definition check (includeNonDefault : bool) (name : string) : bool :=
  let pos := str_find "@" name in
  if negb includeNonDefault then pos =? npos
  else negb (at_follows pos name).

Definition findAllByVersion `{Collaborators} (ver : SymbolVersion)
    (includeNonDefault : bool) (st : SymbolTable) : option (list nat * SymbolTable) :=
  if isExternCpp ver then
    '(m, st) ← getDemangledSyms st;
    res ← foldM (λ res (p : string * list nat),
                   if matcher_match (ver_name ver) p.1
                   then foldM (λ res sym,
                                 s ← arena st !! sym;
                                 if check includeNonDefault (getName s)
                                 then Some (res ++ [sym]) else Some res)
                              res p.2
                   else Some res)
                [] (map_to_list m);
    Some (res, st)
  else
    res ← foldM (λ res sym,
                   s ← arena st !! sym;
                   if canBeVersioned s && check includeNonDefault (getName s)
                      && matcher_match (ver_name ver) (getName s)
                   then Some (res ++ [sym]) else Some res)
                [] (symVector st);
    Some (res, st).

(** The lambda [getName] of [assignExactVersion]. *)
Definition versionDisplayName (config : Configuration) (ver : Z) : string :=
  if ver =? VER_NDX_LOCAL then "VER_NDX_LOCAL"
  else if ver =? VER_NDX_GLOBAL then "VER_NDX_GLOBAL"
  else "version '"
       +:+ default "" (vd_name <$> versionDefinitions config !! Z.to_nat ver)
       +:+ "'".

(** The text a diagnostic is reported with. *)
Definition message (config : Configuration) (d : Diagnostic) : string :=
  match d with
  | warn_reassign pat old new =>
      "attempt to reassign symbol '" +:+ pat +:+ "' of "
      +:+ versionDisplayName config old +:+ " to " +:+ versionDisplayName config new
  | errorOrWarn_not_defined ver pat =>
      "version script assignment of '" +:+ ver +:+ "' to symbol '" +:+ pat
      +:+ "' failed: symbol not defined"
  end.

(** The table together with the diagnostics reported so far. *)
Definition World : Type := SymbolTable * list Diagnostic.

(** The body of the loop of [assignExactVersion] for one symbol. *)
Definition assignExact_sym (ver : SymbolVersion) (versionId' : Z)
    (includeNonDefault : bool) (w : list Symbol * list Diagnostic) (sym : nat)
    : option (list Symbol * list Diagnostic) :=
  s ← w.1 !! sym;
  if negb includeNonDefault && negb (versionId' =? VER_NDX_LOCAL)
     && contains "@" (getName s)
  then Some w
  else
    let s := if verdefIndex s =? UINT32_MINUS_1 then set_version versionId' s else s in
    let a := <[sym := s]> w.1 in
    if versionId s =? versionId' then Some (a, w.2)
    else Some (a, w.2 ++ [warn_reassign (ver_name ver) (versionId s) versionId']).

Definition assignExactVersion `{Collaborators} (ver : SymbolVersion) (versionId' : Z)
    (versionName : string) (includeNonDefault : bool) (w : World)
    : option (bool * World) :=
  '(syms, st) ← findByVersion ver w.1;
  '(a, ds) ← foldM (assignExact_sym ver versionId' includeNonDefault)
                   (arena st, w.2) syms;
  Some (negb (bool_decide (syms = [])), (with_arena a st, ds)).

(** The body of the loop of [assignWildcardVersion] for one symbol. *)
Definition assignWildcard_sym (versionId' : Z) (a : list Symbol) (sym : nat)
    : option (list Symbol) :=
  s ← a !! sym;
  if verdefIndex s =? UINT32_MINUS_1
  then Some (<[sym := set_version versionId' s]> a)
  else Some a.

Definition assignWildcardVersion `{Collaborators} (ver : SymbolVersion)
    (versionId' : Z) (includeNonDefault : bool) (w : World) : option World :=
  '(syms, st) ← findAllByVersion ver includeNonDefault w.1;
  a ← foldM (assignWildcard_sym versionId') (arena st) syms;
  Some (with_arena a st, w.2).

(** The pattern [pat.name + "@" + ver] the second attempt of a rule uses. *)
Definition versioned_pattern (pat : SymbolVersion) (ver : string) (wild : bool)
    : SymbolVersion :=
  mkSymbolVersion (ver_name pat +:+ "@" +:+ ver) (isExternCpp pat) wild.

(** The lambda [assignExact] of [scanVersionScript], in the block [v]. *)
Definition assignExact `{Collaborators} (config : Configuration)
    (v : VersionDefinition) (pat : SymbolVersion) (id : Z) (ver : string)
    (w : World) : option World :=
  '(found1, w) ← assignExactVersion pat id ver false w;
  '(found2, w) ← assignExactVersion (versioned_pattern pat (vd_name v) false)
                   id ver true w;
  if negb (found1 || found2) && negb (undefinedVersion config)
  then Some (w.1, w.2 ++ [errorOrWarn_not_defined ver (ver_name pat)])
  else Some w.

(** The lambda [assignWildcard] of [scanVersionScript]. *)
Definition assignWildcard `{Collaborators} (pat : SymbolVersion) (id : Z)
    (ver : string) (w : World) : option World :=
  w ← assignWildcardVersion pat id false w;
  assignWildcardVersion (versioned_pattern pat ver true) id true w.

(** The first loop of [scanVersionScript]: the patterns without a wildcard. *)
Definition exactBlock `{Collaborators} (config : Configuration) (w : World)
    (v : VersionDefinition) : option World :=
  w ← foldM (λ w pat, if negb (hasWildcard pat)
                      then assignExact config v pat (vd_id v) (vd_name v) w
                      else Some w)
            w (nonLocalPatterns v);
  foldM (λ w pat, if negb (hasWildcard pat)
                  then assignExact config v pat VER_NDX_LOCAL "local" w
                  else Some w)
        w (localPatterns v).

(** The body of the second and of the third loop: the wildcard patterns
    [select] keeps. *)
Definition wildcardBlock `{Collaborators} (select : SymbolVersion → bool)
    (w : World) (v : VersionDefinition) : option World :=
  w ← foldM (λ w pat, if hasWildcard pat && select pat
                      then assignWildcard pat (vd_id v) (vd_name v) w
                      else Some w)
            w (nonLocalPatterns v);
  foldM (λ w pat, if hasWildcard pat && select pat
                  then assignWildcard pat VER_NDX_LOCAL (vd_name v) w
                  else Some w)
        w (localPatterns v).

Definition is_star (pat : SymbolVersion) : bool := bool_decide (ver_name pat = "*").

Definition exactPass `{Collaborators} (config : Configuration) (w : World)
    : option World :=
  foldM (exactBlock config) w (versionDefinitions config).

Definition wildcardPass `{Collaborators} (config : Configuration) (w : World)
    : option World :=
  foldM (wildcardBlock (λ pat, negb (is_star pat))) w
        (reverse (versionDefinitions config)).

Definition starPass `{Collaborators} (config : Configuration) (w : World)
    : option World :=
  foldM (wildcardBlock is_star) w (versionDefinitions config).

(** [for (Symbol *sym : symVector) sym->parseSymbolVersion();] *)
Definition parseSymbolVersions `{SymbolParser} (st : SymbolTable) : option SymbolTable :=
  a ← foldM (λ a sym, s ← a !! sym; Some (<[sym := parseSymbolVersion s]> a))
            (arena st) (symVector st);
  Some (with_arena a st).

Definition handleDynamicList `{Collaborators} (config : Configuration)
    (st : SymbolTable) : option SymbolTable :=
  foldM (λ st ver,
           '(syms, st) ← (if hasWildcard ver then findAllByVersion ver true st
                          else findByVersion ver st);
           a ← foldM (λ a sym, s ← a !! sym; Some (<[sym := set_inDynamicList true s]> a))
                     (arena st) syms;
           Some (with_arena a st))
        st (dynamicList config).

Definition scanVersionScript `{Collaborators} `{SymbolParser}
    (config : Configuration) (w : World) : option World :=
  w ← exactPass config w;
  w ← wildcardPass config w;
  w ← starPass config w;
  st ← parseSymbolVersions w.1;
  st ← handleDynamicList config st;
  Some (st, w.2).

(** ** Call-graph sorting *)

(** The indices of clusters, [Edge.from] and the counter of the order are
    [int]s in the source, which narrows [clusters.size()] to [int] without a
    check; here they are numbers without a bound. *)

(** [double(x)] for a [uint64_t]: the two 32-bit halves are exact doubles and
    their sum is rounded once, to the nearest. *)
Definition to_double (z : Z) : float :=
  PrimFloat.add
    (PrimFloat.mul (PrimFloat.of_uint63 (Uint63.of_Z (z / 2 ^ 32)))
                   (PrimFloat.of_uint63 (Uint63.of_Z (2 ^ 32))))
    (PrimFloat.of_uint63 (Uint63.of_Z (z mod 2 ^ 32))).

Module Edge.
Record t := mk { from : Z; weight : Z }.
End Edge.

Record Cluster := mkCluster {
  next : nat;
  prev : nat;
  size : Z;
  weight : Z;
  initialWeight : Z;
  bestPred : Edge.t
}.

(** [Cluster(int sec, size_t s)]. *)
Definition newCluster (sec : nat) (s : Z) : Cluster :=
  mkCluster sec sec s 0 0 (Edge.mk (-1) 0).

Definition set_next (n : nat) (c : Cluster) : Cluster :=
  mkCluster n (prev c) (size c) (weight c) (initialWeight c) (bestPred c).
Definition set_prev (p : nat) (c : Cluster) : Cluster :=
  mkCluster (next c) p (size c) (weight c) (initialWeight c) (bestPred c).
Definition set_size (s : Z) (c : Cluster) : Cluster :=
  mkCluster (next c) (prev c) s (weight c) (initialWeight c) (bestPred c).
Definition set_weight (w : Z) (c : Cluster) : Cluster :=
  mkCluster (next c) (prev c) (size c) w (initialWeight c) (bestPred c).
Definition set_initialWeight (w : Z) (c : Cluster) : Cluster :=
  mkCluster (next c) (prev c) (size c) (weight c) w (bestPred c).
Definition set_bestPred (e : Edge.t) (c : Cluster) : Cluster :=
  mkCluster (next c) (prev c) (size c) (weight c) (initialWeight c) e.

Definition getDensity (c : Cluster) : float :=
  if size c =? 0 then PrimFloat.zero
  else PrimFloat.div (to_double (weight c)) (to_double (size c)).

Definition MAX_DENSITY_DEGRADATION : Z := 8.
Definition MAX_CLUSTER_SIZE : Z := 1024 * 1024.

(** What the sorter reads of an input section: the section that replaced it,
    its size, a [uint64_t], and the output section it is assigned to. *)
Class SectionInfo := {
  repl : nat → nat;
  getSize : nat → Z;
  getOutputSection : nat → nat;
  getSize_range : ∀ s, 0 ≤ getSize s < 2 ^ 64
}.

(** The members of [CallGraphSort], and [secToCluster] while the constructor
    runs. *)
Record CallGraphSort := mkCallGraphSort {
  clusters : list Cluster;
  sections : list nat;
  secToCluster : gmap nat nat
}.

Definition getOrCreateNode `{SectionInfo} (isec : nat) (g : CallGraphSort)
    : nat * CallGraphSort :=
  match secToCluster g !! isec with
  | Some i => (i, g)
  | None =>
      let n := length (clusters g) in
      (n, mkCallGraphSort (clusters g ++ [newCluster n (getSize isec)])
            (sections g ++ [isec])
            (<[isec := n]> (secToCluster g)))
  end.

(** The body of the loop over the profile. *)
Definition addEdge `{SectionInfo} (g : CallGraphSort) (c : (nat * nat) * Z)
    : option CallGraphSort :=
  let fromSB := repl c.1.1 in
  let toSB := repl c.1.2 in
  let weight' := c.2 in
  if bool_decide (getOutputSection fromSB ≠ getOutputSection toSB) then Some g
  else
    let '(from, g) := getOrCreateNode fromSB g in
    let '(to, g) := getOrCreateNode toSB g in
    toC ← clusters g !! to;
    let cs := <[to := set_weight (u64 (weight toC + weight')) toC]> (clusters g) in
    if bool_decide (from = to) then Some (mkCallGraphSort cs (sections g) (secToCluster g))
    else
      toC ← cs !! to;
      let cs :=
        if (Edge.from (bestPred toC) =? -1) || (Edge.weight (bestPred toC) <? weight')
        then <[to := set_bestPred (Edge.mk (Z.of_nat from) weight') toC]> cs
        else cs in
      Some (mkCallGraphSort cs (sections g) (secToCluster g)).

Definition snapshotWeights (g : CallGraphSort) : CallGraphSort :=
  mkCallGraphSort ((λ c, set_initialWeight (weight c) c) <$> clusters g)
    (sections g) (secToCluster g).

(** The constructor, from [config->callGraphProfile]. *)
Definition newCallGraphSort `{SectionInfo} (profile : list ((nat * nat) * Z))
    : option CallGraphSort :=
  g ← foldM addEdge (mkCallGraphSort [] [] ∅) profile;
  Some (snapshotWeights g).

Definition isNewDensityBad (a b : Cluster) : bool :=
  let newDensity :=
    PrimFloat.div (to_double (u64 (weight a + weight b)))
                  (to_double (u64 (size a + size b))) in
  PrimFloat.ltb newDensity
    (PrimFloat.div (getDensity a) (to_double MAX_DENSITY_DEGRADATION)).

Fixpoint getLeader_loop (fuel : nat) (leaders : list nat) (v : nat)
    : option (list nat * nat) :=
  match fuel with
  | O => None
  | S fuel =>
      lv ← leaders !! v;
      if bool_decide (lv ≠ v) then
        llv ← leaders !! lv;
        getLeader_loop fuel (<[v := llv]> leaders) llv
      else Some (leaders, v)
  end.

(** [getLeader], with the updated [leaders]; the loop runs at most once per
    entry of [leaders] and once more. *)
Definition getLeader (leaders : list nat) (v : nat) : option (list nat * nat) :=
  getLeader_loop (S (length leaders)) leaders v.

Definition mergeClusters (cs : list Cluster) (intoIdx fromIdx : nat)
    : option (list Cluster) :=
  into ← cs !! intoIdx;
  from ← cs !! fromIdx;
  let tail1 := prev into in
  let tail2 := prev from in
  let cs := alter (set_prev tail2) intoIdx cs in
  _ ← cs !! tail2;
  let cs := alter (set_next intoIdx) tail2 cs in
  let cs := alter (set_prev tail1) fromIdx cs in
  _ ← cs !! tail1;
  let cs := alter (set_next fromIdx) tail1 cs in
  from ← cs !! fromIdx;
  let cs := alter (λ into, set_size (u64 (size into + size from)) into) intoIdx cs in
  from ← cs !! fromIdx;
  let cs := alter (λ into, set_weight (u64 (weight into + weight from)) into) intoIdx cs in
  let cs := alter (set_size 0) fromIdx cs in
  let cs := alter (set_weight 0) fromIdx cs in
  Some cs.

(** The conditions under which the merge loop leaves a cluster alone. *)
Definition unlikelyEdge (c : Cluster) : bool :=
  (Edge.from (bestPred c) =? -1)
  || (u64 (Edge.weight (bestPred c) * 10) <=? initialWeight c).

Definition tooLarge (c predC : Cluster) : bool :=
  u64 (size c + size predC) >? MAX_CLUSTER_SIZE.

(** The body of the merge loop of [run], for the cluster [l]. *)
Definition mergeStep (st : list Cluster * list nat) (l : nat)
    : option (list Cluster * list nat) :=
  c ← st.1 !! l;
  if unlikelyEdge c then Some st
  else
    '(leaders, predL) ← getLeader st.2 (Z.to_nat (Edge.from (bestPred c)));
    if bool_decide (l = predL) then Some (st.1, leaders)
    else
      predC ← st.1 !! predL;
      if tooLarge c predC then Some (st.1, leaders)
      else if isNewDensityBad predC c then Some (st.1, leaders)
      else
        _ ← leaders !! l;
        cs ← mergeClusters st.1 predL l;
        Some (cs, <[l := predL]> leaders).

(** [llvm::stable_sort] with the comparison [before]: an element moves past
    those that come strictly before it, so equal elements keep their order. *)
Fixpoint insert_sorted {A : Type} (before : A → A → bool) (x : A) (l : list A)
    : list A :=
  match l with
  | [] => [x]
  | y :: l' => if before y x then y :: insert_sorted before x l' else x :: y :: l'
  end.

Definition stable_sort {A : Type} (before : A → A → bool) (l : list A) : list A :=
  foldr (insert_sorted before) [] l.

(** The comparison of both sorts: [clusters[a].getDensity() > clusters[b].getDensity()]. *)
Definition denser (cs : list Cluster) (a b : nat) : bool :=
  match cs !! a, cs !! b with
  | Some ca, Some cb => PrimFloat.ltb (getDensity cb) (getDensity ca)
  | _, _ => false
  end.

Definition iota (n : nat) : list nat := seq 0 n.

(** The first half of [run]: the clusters after the merge loop. *)
Definition mergePass (cs : list Cluster) : option (list Cluster) :=
  let sorted := stable_sort (denser cs) (iota (length cs)) in
  st ← foldM mergeStep (cs, iota (length cs)) sorted;
  Some st.1.

(** The clusters [run] keeps, sorted by density. *)
Definition survivors (cs : list Cluster) : list nat :=
  stable_sort (denser cs)
    (List.filter (λ i, match cs !! i with Some c => size c >? 0 | None => false end)
                 (iota (length cs))).

(** The walk of one cluster: [for (int i = leader;;) { ... }]. *)
Fixpoint walk (fuel : nat) (cs : list Cluster) (secs : list nat) (leader i : nat)
    (o : gmap nat Z * Z) : option (gmap nat Z * Z) :=
  match fuel with
  | O => None
  | S fuel =>
      sec ← secs !! i;
      c ← cs !! i;
      let o := (<[sec := o.2]> o.1, o.2 + 1) in
      if bool_decide (next c = leader) then Some o
      else walk fuel cs secs leader (next c) o
  end.

(** The second half of [run]: the order map of the surviving clusters. *)
Definition orderPass (cs : list Cluster) (secs : list nat) : option (gmap nat Z) :=
  o ← foldM (λ o leader, walk (length cs) cs secs leader leader o)
            (∅, 1) (survivors cs);
  Some o.1.

(** [run], with [config->printSymbolOrder] empty. *)
Definition run (g : CallGraphSort) : option (gmap nat Z) :=
  cs ← mergePass (clusters g);
  orderPass cs (sections g).

Definition computeCallGraphProfileOrder `{SectionInfo}
    (profile : list ((nat * nat) * Z)) : option (gmap nat Z) :=
  g ← newCallGraphSort profile;
  run g.

(** ** Instances the examples run on *)

(** A glob matcher with [*] and [?]. *)
Fixpoint glob (p : string) : string → bool :=
  match p with
  | EmptyString => λ s, bool_decide (s = EmptyString)
  | String c p' =>
      if Ascii.eqb c "*" then
        fix star (s : string) : bool :=
          glob p' s || match s with EmptyString => false | String _ s' => star s' end
      else if Ascii.eqb c "?" then
        λ s, match s with EmptyString => false | String _ s' => glob p' s' end
      else
        λ s, match s with
             | EmptyString => false
             | String a s' => Ascii.eqb a c && glob p' s'
             end
  end.

(** A resolver that takes the new symbol and keeps the fields of the slot
    that [insert] initialised. *)
Definition replace_symbol (old new : Symbol) : Symbol :=
  mkSymbol (getName new) (symbolKind new) (versionId old) (verdefIndex new)
    (visibility old) (isUsedInRegularObj old) (exportDynamic old)
    (inDynamicList old) (canInline old) (referenced old) (traced old)
    (scriptDefined old) (partition old).

Definition zero_symbol : Symbol :=
  mkSymbol "" PlaceholderKind 0 0 0 false false false false false false false 0.

Definition example_collaborators : Collaborators :=
  Build_Collaborators zero_symbol replace_symbol glob (λ s, s).

(** A parser that cuts the name at its version suffix. *)
Definition truncate_version (s : Symbol) : Symbol :=
  let pos := str_find "@" (getName s) in
  if (pos =? 0) || (pos =? npos) || (pos + 1 =? str_size (getName s)) then s
  else mkSymbol (take_front pos (getName s)) (symbolKind s) (versionId s)
         (verdefIndex s) (visibility s) (isUsedInRegularObj s) (exportDynamic s)
         (inDynamicList s) (canInline s) (referenced s) (traced s)
         (scriptDefined s) (partition s).

Lemma truncate_version_versionId s : versionId (truncate_version s) = versionId s.
Proof. unfold truncate_version. by destruct (_ || _). Qed.

Lemma truncate_version_verdefIndex s : verdefIndex (truncate_version s) = verdefIndex s.
Proof. unfold truncate_version. by destruct (_ || _). Qed.

Definition example_parser : SymbolParser :=
  Build_SymbolParser truncate_version truncate_version_versionId
    truncate_version_verdefIndex.

(** A defined symbol no version was assigned to. *)
Definition defined_symbol (name : string) : Symbol :=
  mkSymbol name DefinedKind VER_NDX_GLOBAL UINT32_MINUS_1 STV_DEFAULT
    true false false false false false false 1.

(** Sections of [n] bytes each, all of one output section. *)
Definition uniform_sections (n : Z) (Hn : 0 ≤ n < 2 ^ 64) : SectionInfo :=
  Build_SectionInfo (λ s, s) (λ _, n) (λ _, 0%nat) (λ _, Hn).

Lemma ten_in_range : 0 ≤ 10 < 2 ^ 64.
Proof. lia. Qed.


(** A table of [foo], [__real_foo] and [__wrap_foo], where only
    [__real_foo] is exported. *)
Definition foo_symbol : Symbol :=
  mkSymbol "foo" DefinedKind VER_NDX_GLOBAL UINT32_MINUS_1 STV_DEFAULT
    true false false false false false false 1.
Definition real_foo_symbol : Symbol :=
  mkSymbol "__real_foo" UndefinedKind VER_NDX_GLOBAL UINT32_MINUS_1 STV_DEFAULT
    true true false false false false false 1.
Definition wrap_foo_symbol : Symbol :=
  mkSymbol "__wrap_foo" DefinedKind VER_NDX_GLOBAL UINT32_MINUS_1 STV_DEFAULT
    true false false false false false false 1.
Definition wrap_table : SymbolTable :=
  mkSymbolTable
    (list_to_map [("foo", 0%nat); ("__real_foo", 1%nat); ("__wrap_foo", 2%nat)])
    [0%nat; 1%nat; 2%nat]
    [foo_symbol; real_foo_symbol; wrap_foo_symbol]
    None.


(** A table of the defined symbols [foo] and [abc], without versions. *)
Definition two_symbol_table : SymbolTable :=
  mkSymbolTable (list_to_map [("foo", 0%nat); ("abc", 1%nat)]) [0%nat; 1%nat]
    [defined_symbol "foo"; defined_symbol "abc"] None.

(** The two blocks every script starts with, for the local and the global
    version, then the blocks of the script, numbered from 2. *)
Definition script (blocks : list (string * list SymbolVersion))
    (allowUndefined : bool) : Configuration :=
  mkConfiguration
    (mkVersionDefinition "local" VER_NDX_LOCAL [] []
     :: mkVersionDefinition "global" VER_NDX_GLOBAL [] []
     :: imap (λ i b, mkVersionDefinition b.1 (Z.of_nat i + 2) b.2 []) blocks)
    allowUndefined [].

Definition exact_pattern (name : string) : SymbolVersion :=
  mkSymbolVersion name false false.
Definition wildcard_pattern (name : string) : SymbolVersion :=
  mkSymbolVersion name false true.

Definition sections_of_10 : SectionInfo := uniform_sections 10 ten_in_range.

(** * Properties *)

(** ** Strings *)

Fixpoint has_char (c : ascii) (s : string) : bool :=
  match s with
  | EmptyString => false
  | String a s' => Ascii.eqb a c || has_char c s'
  end.

Lemma find_from_absent c s i : has_char c s = false → find_from c s i = npos.
Proof.
  revert i. induction s as [|a s IH]; intros i Hc; simpl in *; [done|].
  apply orb_false_iff in Hc as [-> Hc]. by apply IH.
Qed.

Lemma find_from_app c base rest i :
  has_char c base = false →
  find_from c (base +:+ String c rest) i = i + str_size base.
Proof.
  revert i. induction base as [|a base IH]; intros i Hc; simpl in *.
  - rewrite Ascii.eqb_refl. unfold str_size. simpl. lia.
  - apply orb_false_iff in Hc as [-> Hc]. rewrite IH by done.
    unfold str_size. simpl. lia.
Qed.


Lemma take_chars_app base rest : take_chars (String.length base) (base +:+ rest) = base.
Proof.
  induction base as [|a base IH]; simpl.
  - by destruct rest.
  - by rewrite IH.
Qed.

Lemma get_app_right base rest (k : nat) :
  String.get (String.length base + k) (base +:+ rest) = String.get k rest.
Proof. induction base as [|a base IH]; simpl; [done|]. apply IH. Qed.

Lemma string_length_app base rest :
  String.length (base +:+ rest) = (String.length base + String.length rest)%nat.
Proof. induction base as [|a base IH]; simpl; [done|]. by rewrite IH. Qed.

Lemma has_char_app c s1 s2 : has_char c (s1 +:+ s2) = has_char c s1 || has_char c s2.
Proof.
  induction s1 as [|a s1 IH]; simpl; [done|]. rewrite IH. by rewrite orb_assoc.
Qed.

Lemma contains_absent c s : has_char c s = false → contains c s = false.
Proof.
  intros Hc. unfold contains, str_find. rewrite find_from_absent by done. done.
Qed.


Lemma strip_default_version base ver :
  has_char "@" base = false →
  str_size (base +:+ "@@" +:+ ver) < 2 ^ 64 →
  stripDefaultVersion (base +:+ "@@" +:+ ver) = base.
Proof.
  intros Hc Hsz. unfold stripDefaultVersion, str_find.
  change (base +:+ "@@" +:+ ver) with (base +:+ String "@" (String "@" ver)) in *.
  rewrite find_from_app by done.
  unfold str_size in *. rewrite string_length_app in *. simpl in *.
  replace (0 + Z.of_nat (String.length base) =? npos) with false
    by (symmetry; apply Z.eqb_neq; unfold npos; lia).
  replace (0 + Z.of_nat (String.length base) + 1
           <? Z.of_nat (String.length base + S (S (String.length ver)))) with true
    by (symmetry; apply Z.ltb_lt; lia).
  unfold char_at, str_size. rewrite string_length_app. simpl.
  replace ((0 <=? 0 + Z.of_nat (String.length base) + 1)
           && (0 + Z.of_nat (String.length base) + 1
               <? Z.of_nat (String.length base + S (S (String.length ver))))) with true
    by (symmetry; apply andb_true_iff; split; [apply Z.leb_le|apply Z.ltb_lt]; lia).
  replace (Z.to_nat (0 + Z.of_nat (String.length base) + 1))
    with (String.length base + 1)%nat by lia.
  rewrite get_app_right. simpl.
  unfold take_front, str_size. rewrite string_length_app. simpl.
  replace (Z.of_nat (String.length base + S (S (String.length ver)))
           <=? 0 + Z.of_nat (String.length base)) with false
    by (symmetry; apply Z.leb_gt; lia).
  replace (Z.to_nat (0 + Z.of_nat (String.length base))) with (String.length base) by lia.
  apply take_chars_app.
Qed.


Lemma strip_versioned_differs base ver :
  has_char "@" base = false →
  str_size (base +:+ "@@" +:+ ver) < 2 ^ 64 →
  stripDefaultVersion (base +:+ "@@" +:+ ver) ≠ base +:+ "@@" +:+ ver.
Proof.
  intros Hc Hsz. rewrite strip_default_version by done. intros Heq.
  assert (Hlen : String.length base = String.length (base +:+ "@@" +:+ ver))
    by (by rewrite <- Heq).
  rewrite string_length_app in Hlen. simpl in Hlen. lia.
Qed.

(** ** The symbol table: [insert] and [find] *)

(** Every index of the name index is inside [symVector] and every pointer of
    [symVector] is inside the arena. *)
Definition well_formed (st : SymbolTable) : Prop :=
  (∀ k i, symMap st !! k = Some i → (i < length (symVector st))%nat)
  ∧ (∀ i p, symVector st !! i = Some p → (p < length (arena st))%nat).

(** The names of the index carry no default-version suffix. *)
Definition normalized_keys (st : SymbolTable) : Prop :=
  ∀ k i, symMap st !! k = Some i → stripDefaultVersion k = k.

(** One record per name: the index binds every name to a record of that
    name, and every record of [symVector] is the binding of its name. *)
Definition canonical (st : SymbolTable) : Prop :=
  well_formed st
  ∧ normalized_keys st
  ∧ (∀ k i, symMap st !! k = Some i →
       ∃ p s, symVector st !! i = Some p ∧ arena st !! p = Some s ∧ getName s = k)
  ∧ (∀ i p s, symVector st !! i = Some p → arena st !! p = Some s →
       symMap st !! getName s = Some i).

Lemma well_formed_empty : well_formed empty_table.
Proof. split; intros ??; simpl; [by rewrite lookup_empty|done]. Qed.


(** Two records of one name are one record. *)
Lemma canonical_unique st i j p q s t :
  canonical st →
  symVector st !! i = Some p → arena st !! p = Some s →
  symVector st !! j = Some q → arena st !! q = Some t →
  getName s = getName t → i = j ∧ p = q.
Proof.
  intros (_ & _ & _ & Hrec) Hi Hp Hj Hq Hname.
  pose proof (Hrec _ _ _ Hi Hp) as H1. pose proof (Hrec _ _ _ Hj Hq) as H2.
  rewrite Hname in H1. assert (i = j) as -> by congruence.
  split; [done|congruence].
Qed.

Section insert_facts.
Context `{Collaborators}.

Lemma insert_hit st name i :
  symMap st !! stripDefaultVersion name = Some i →
  insert name st = (sym ← symVector st !! i; Some (sym, st)).
Proof. intros Hi. unfold insert. by rewrite Hi. Qed.

Lemma insert_miss st name :
  symMap st !! stripDefaultVersion name = None →
  insert name st =
    Some (length (arena st),
          mkSymbolTable
            (<[stripDefaultVersion name := length (symVector st)]> (symMap st))
            (symVector st ++ [length (arena st)])
            (arena st ++ [init_placeholder (stripDefaultVersion name) makeSymbolUnion])
            (demangledSyms st)).
Proof. intros Hi. unfold insert. by rewrite Hi. Qed.

(** After [insert], the stripped name is bound to the returned symbol. *)
Lemma insert_binds st name sym st1 :
  insert name st = Some (sym, st1) →
  ∃ i, symMap st1 !! stripDefaultVersion name = Some i
       ∧ symVector st1 !! i = Some sym.
Proof.
  intros Hins. destruct (symMap st !! stripDefaultVersion name) as [i|] eqn:Hi.
  - rewrite (insert_hit _ _ _ Hi) in Hins.
    destruct (symVector st !! i) as [p|] eqn:Hp; simplify_eq/=. eauto.
  - rewrite (insert_miss _ _ Hi) in Hins. simplify_eq/=.
    exists (length (symVector st)). rewrite lookup_insert_eq.
    split; [done|]. by rewrite lookup_app_r, Nat.sub_diag by lia.
Qed.

Lemma insert_total st name :
  well_formed st → ∃ sym st1, insert name st = Some (sym, st1).
Proof.
  intros [Hidx _]. destruct (symMap st !! stripDefaultVersion name) as [i|] eqn:Hi.
  - rewrite (insert_hit _ _ _ Hi).
    destruct (lookup_lt_is_Some_2 (symVector st) i (Hidx _ _ Hi)) as [p Hp].
    rewrite Hp. simpl. eauto.
  - rewrite (insert_miss _ _ Hi). eauto.
Qed.

Lemma insert_well_formed st name sym st1 :
  well_formed st → insert name st = Some (sym, st1) → well_formed st1.
Proof.
  intros [Hidx Hptr] Hins.
  destruct (symMap st !! stripDefaultVersion name) as [i|] eqn:Hi.
  - rewrite (insert_hit _ _ _ Hi) in Hins.
    destruct (symVector st !! i); simplify_eq/=. by split.
  - rewrite (insert_miss _ _ Hi) in Hins. simplify_eq/=. split; simpl.
    + intros k i Hk. rewrite length_app. simpl.
      destruct (decide (stripDefaultVersion name = k)) as [Heq|Hne].
      * rewrite Heq, lookup_insert_eq in Hk. simplify_eq. lia.
      * rewrite lookup_insert_ne in Hk by done. apply Hidx in Hk. lia.
    + intros i p Hp. rewrite length_app. simpl.
      apply lookup_app_Some in Hp as [Hp|[_ Hp]].
      * apply Hptr in Hp. lia.
      * destruct (i - length (symVector st))%nat; simplify_eq/=. lia.
Qed.


End insert_facts.


(** C9. [insert] strips the default-version suffix and [find] does not: once
    the record [insert] made for [base@@version] holds a symbol that is not a
    placeholder, [find] of [base@@version] is null and [find] of [base] is
    that record. *)
Theorem find_does_not_strip `{Collaborators} (st st1 st2 : SymbolTable)
    (base ver : string) (sym : nat) :
  well_formed st →
  normalized_keys st →
  has_char "@" base = false →
  str_size (base +:+ "@@" +:+ ver) < 2 ^ 64 →
  insert (base +:+ "@@" +:+ ver) st = Some (sym, st1) →
  symMap st2 = symMap st1 →
  symVector st2 = symVector st1 →
  (∃ s, arena st2 !! sym = Some s ∧ isPlaceholder s = false) →
  find (base +:+ "@@" +:+ ver) st2 = Some nullptr
  ∧ find base st2 = Some (Some sym).
Proof.
  intros Hwf Hnorm Hbase Hsz Hins Hmap Hvec (s & Hs & Hkind).
  destruct (insert_binds _ _ _ _ Hins) as (i & Hi & Hp).
  rewrite strip_default_version in Hi by done.
  assert (Hnone : symMap st1 !! (base +:+ "@@" +:+ ver) = None).
  { destruct (symMap st1 !! (base +:+ "@@" +:+ ver)) as [j|] eqn:Hj; [|done].
    exfalso. apply (strip_versioned_differs base ver Hbase Hsz).
    destruct (symMap st !! stripDefaultVersion (base +:+ "@@" +:+ ver)) as [i'|] eqn:Hi'.
    - rewrite (insert_hit _ _ _ Hi') in Hins.
      destruct (symVector st !! i'); simplify_eq/=. by eapply Hnorm.
    - rewrite (insert_miss _ _ Hi') in Hins. simplify_eq/=.
      destruct (decide (stripDefaultVersion (base +:+ "@@" +:+ ver)
                        = base +:+ "@@" +:+ ver)) as [Heq|Hne]; [done|].
      rewrite lookup_insert_ne in Hj by done. by eapply Hnorm. }
  unfold find. rewrite Hmap, Hvec, Hnone, Hi. simpl. rewrite Hp. simpl.
  rewrite Hs. simpl. rewrite Hkind. done.
Qed.

(** ** The symbol table: [wrap] *)

Lemma slot_lookup key m k :
  slot key m !! k
  = match m !! k with
    | Some v => Some v
    | None => if decide (key = k) then Some 0%nat else None
    end.
Proof.
  unfold slot. destruct (m !! key) as [v|] eqn:Hkey.
  - destruct (m !! k) eqn:Hk; [done|]. destruct (decide (key = k)); [congruence|done].
  - destruct (decide (key = k)) as [->|Hne].
    + by rewrite lookup_insert_eq, Hkey.
    + rewrite lookup_insert_ne by done. by destruct (m !! k).
Qed.

Lemma slot_bound key m k v : m !! k = Some v → slot key m !! k = Some v.
Proof. intros Hk. by rewrite slot_lookup, Hk. Qed.

Lemma wrap_contents_total sym real a :
  is_Some (a !! sym) → is_Some (a !! real) → is_Some (wrap_contents sym real a).
Proof.
  intros Hs Hr. apply lookup_lt_is_Some in Hs, Hr. unfold wrap_contents.
  destruct (lookup_lt_is_Some_2 a real Hr) as [r ->]. simpl.
  set (a1 := if exportDynamic r then _ else a).
  assert (Hlen1 : length a1 = length a) by (unfold a1; destruct (exportDynamic r); by rewrite ?length_alter).
  destruct (lookup_lt_is_Some_2 a1 real ltac:(lia)) as [r1 ->]. simpl.
  destruct (lookup_lt_is_Some_2 a1 sym ltac:(lia)) as [s1 ->]. simpl.
  set (a2 := if _ && _ then _ else a1).
  assert (Hlen2 : length a2 = length a) by (unfold a2; destruct (_ && _); by rewrite ?length_alter).
  destruct (lookup_lt_is_Some_2 a2 sym ltac:(lia)) as [s2 ->]. simpl. eauto.
Qed.

(** What [wrap] leaves in [*sym]: the flag [exportDynamic] of [real] is
    added, and [isUsedInRegularObj] is cleared for an undefined [sym] when
    [real] is not used in a regular object. *)
Definition propagate_flags (r s : Symbol) : Symbol :=
  let s := if exportDynamic r then set_exportDynamic true s else s in
  if negb (isUsedInRegularObj r) && isUndefined s
  then set_isUsedInRegularObj false s else s.

Lemma wrap_contents_distinct sym real a s r :
  sym ≠ real → a !! sym = Some s → a !! real = Some r →
  ∃ a', wrap_contents sym real a = Some a'
        ∧ a' !! sym = Some (propagate_flags r s)
        ∧ a' !! real = Some (set_isUsedInRegularObj false (propagate_flags r s))
        ∧ (∀ p, p ≠ sym → p ≠ real → a' !! p = a !! p).
Proof.
  intros Hne Hs Hr. unfold wrap_contents. rewrite Hr. simpl.
  set (a1 := if exportDynamic r then _ else a).
  set (s1 := if exportDynamic r then set_exportDynamic true s else s).
  assert (H1r : a1 !! real = Some r).
  { unfold a1. destruct (exportDynamic r); [|done]. by rewrite list_lookup_alter_ne. }
  assert (H1s : a1 !! sym = Some s1).
  { unfold a1, s1. destruct (exportDynamic r); [|done].
    by rewrite list_lookup_alter_eq, Hs. }
  assert (H1o : ∀ p, p ≠ sym → a1 !! p = a !! p).
  { intros p Hp. unfold a1. destruct (exportDynamic r); [|done].
    by rewrite list_lookup_alter_ne. }
  rewrite H1r, H1s. simpl.
  set (a2 := if _ && _ then _ else a1).
  assert (H2s : a2 !! sym = Some (propagate_flags r s)).
  { unfold a2, propagate_flags. fold s1. destruct (_ && _); [|done].
    by rewrite list_lookup_alter_eq, H1s. }
  assert (H2o : ∀ p, p ≠ sym → a2 !! p = a !! p).
  { intros p Hp. unfold a2. destruct (_ && _); [|by apply H1o].
    rewrite list_lookup_alter_ne by done. by apply H1o. }
  rewrite H2s. simpl. eexists. split; [done|].
  assert (Hlt : (real < length a2)%nat).
  { apply lookup_lt_is_Some. rewrite H2o by done. eauto. }
  split; [|split].
  - rewrite list_lookup_alter_ne, list_lookup_insert_ne by done. done.
  - rewrite list_lookup_alter_eq, list_lookup_insert_eq by done. done.
  - intros p Hp1 Hp2.
    rewrite list_lookup_alter_ne, list_lookup_insert_ne by done. by apply H2o.
Qed.

Lemma wrap_bindings_other idx1 idx2 idx3 m k :
  k ≠ idx1 → k ≠ idx2 → (k = idx3 → is_Some (m !! idx3)) →
  wrap_bindings idx1 idx2 idx3 m !! k = m !! k.
Proof.
  intros H1 H2 H3. unfold wrap_bindings.
  rewrite !lookup_insert_ne by done. rewrite !slot_lookup.
  destruct (m !! k) eqn:Hk; [done|].
  destruct (decide (idx1 = k)); [congruence|].
  destruct (decide (idx2 = k)); [congruence|].
  destruct (decide (idx3 = k)) as [->|]; [|done].
  destruct (H3 eq_refl) as [v Hv]. congruence.
Qed.

Lemma wrap_bindings_sym idx1 idx2 idx3 m hw :
  idx2 ≠ idx3 → m !! idx3 = Some hw →
  wrap_bindings idx1 idx2 idx3 m !! idx1 = Some hw.
Proof.
  intros Hne Hw. unfold wrap_bindings. rewrite lookup_insert_eq.
  unfold slot_value. rewrite lookup_insert_ne by done.
  rewrite (slot_bound idx3 _ idx3 hw); [done|].
  by do 2 apply slot_bound.
Qed.

Lemma wrap_bindings_real idx1 idx2 idx3 m hs :
  idx1 ≠ idx2 → m !! idx1 = Some hs →
  wrap_bindings idx1 idx2 idx3 m !! idx2 = Some hs.
Proof.
  intros Hne Hs. unfold wrap_bindings.
  rewrite lookup_insert_ne, lookup_insert_eq by done.
  unfold slot_value. rewrite (slot_bound idx3 _ idx1 hs); [done|].
  by do 2 apply slot_bound.
Qed.

(** C10. [wrap] binds the names of [sym] and of [real] anew and no other
    name: a name that is neither keeps its binding, the name of [wrap]
    among them, so that after the call the name of [sym] and the name of
    [wrap] are both bound to what the name of [wrap] was bound to. *)
Theorem wrap_keeps_wrap_binding (st : SymbolTable) (sym real wrap' : nat)
    (s r w : Symbol) (hw : nat) :
  arena st !! sym = Some s →
  arena st !! real = Some r →
  arena st !! wrap' = Some w →
  getName r ≠ getName w →
  symMap st !! getName w = Some hw →
  ∃ st',
    wrap sym real wrap' st = Some st'
    ∧ (∀ k, k ≠ getName s → k ≠ getName r → symMap st' !! k = symMap st !! k)
    ∧ symMap st' !! getName w = Some hw
    ∧ symMap st' !! getName s = Some hw
    ∧ symVector st' = symVector st.
Proof.
  intros Hs Hr Hw Hne Hbound. unfold wrap. rewrite Hs, Hr, Hw. simpl.
  destruct (wrap_contents_total sym real (arena st)) as [a' ->]; [eauto..|].
  simpl. eexists. split; [done|]. simpl.
  assert (Hsym : wrap_bindings (getName s) (getName r) (getName w) (symMap st)
                 !! getName s = Some hw) by by apply wrap_bindings_sym.
  split; [|split; [|by split]].
  - intros k H1 H2. apply wrap_bindings_other; [done..|]. intros ->. eauto.
  - destruct (decide (getName w = getName s)) as [Heq|H1].
    { rewrite <- Hsym. by f_equal. }
    rewrite wrap_bindings_other; [done..|]. eauto.
Qed.

Lemma propagate_flags_fields r s :
  getName (propagate_flags r s) = getName s
  ∧ symbolKind (propagate_flags r s) = symbolKind s
  ∧ versionId (propagate_flags r s) = versionId s
  ∧ verdefIndex (propagate_flags r s) = verdefIndex s
  ∧ exportDynamic (propagate_flags r s) = exportDynamic s || exportDynamic r
  ∧ isUsedInRegularObj (propagate_flags r s)
    = isUsedInRegularObj s && (isUsedInRegularObj r || negb (isUndefined s)).
Proof.
  unfold propagate_flags, isUndefined.
  destruct s as [n k v vi vis used ed dl ci rf tr sd pt]. simpl.
  destruct (exportDynamic r), (isUsedInRegularObj r), ed, used; simpl;
    destruct (bool_decide (k = UndefinedKind)); done.
Qed.

(** C2, as the code has it. For [sym] and [real] two records of two names,
    and the name of [wrap] another than the name of [real]: the name of [sym]
    is bound to what the name of [wrap] was bound to; the name of [real] is
    bound to what the name of [sym] was bound to; [*sym] is what it was with
    the flags of [real] propagated into it ([exportDynamic] added,
    [isUsedInRegularObj] cleared for an undefined [sym] if [real] is unused);
    [*real] is the copy of that updated [*sym], marked as not used in a
    regular object; no other record changes. *)
Theorem wrap_redirects (st : SymbolTable) (sym real wrap' : nat)
    (s r w : Symbol) (hs hw : nat) :
  arena st !! sym = Some s →
  arena st !! real = Some r →
  arena st !! wrap' = Some w →
  sym ≠ real →
  getName s ≠ getName r →
  getName r ≠ getName w →
  symMap st !! getName s = Some hs →
  symMap st !! getName w = Some hw →
  ∃ st',
    wrap sym real wrap' st = Some st'
    ∧ symMap st' !! getName s = Some hw
    ∧ symMap st' !! getName r = Some hs
    ∧ arena st' !! sym = Some (propagate_flags r s)
    ∧ arena st' !! real = Some (set_isUsedInRegularObj false (propagate_flags r s))
    ∧ (∀ p, p ≠ sym → p ≠ real → arena st' !! p = arena st !! p)
    ∧ symVector st' = symVector st.
Proof.
  intros Hs Hr Hw Hptr Hsr Hrw Hhs Hhw. unfold wrap. rewrite Hs, Hr, Hw. simpl.
  destruct (wrap_contents_distinct sym real (arena st) s r Hptr Hs Hr)
    as (a' & -> & Ha1 & Ha2 & Ha3).
  simpl. eexists. split; [done|]. simpl.
  split; [by apply wrap_bindings_sym|].
  split; [by apply wrap_bindings_real|]. done.
Qed.

Lemma wrap_redirects_witness :
  ∃ st',
    wrap 0 1 2 wrap_table = Some st'
    ∧ symMap st' !! "foo" = Some 2%nat
    ∧ symMap st' !! "__real_foo" = Some 0%nat
    ∧ arena st' !! 0%nat = Some (propagate_flags real_foo_symbol foo_symbol)
    ∧ arena st' !! 1%nat
      = Some (set_isUsedInRegularObj false (propagate_flags real_foo_symbol foo_symbol))
    ∧ (∀ p, p ≠ 0%nat → p ≠ 1%nat → arena st' !! p = arena wrap_table !! p)
    ∧ symVector st' = symVector wrap_table.
Proof.
  apply (wrap_redirects wrap_table 0 1 2 foo_symbol real_foo_symbol wrap_foo_symbol 0 2);
    first [reflexivity | discriminate].
Defined.

(** C2 as stated fails where [real] is exported and [sym] is not: the record
    the name of [real] leads to is no longer what [*sym] held before the call,
    and [*real] is not a copy of it. *)
Lemma wrap_copy_counterexample :
  ∃ st',
    wrap 0 1 2 wrap_table = Some st'
    ∧ symMap st' !! "__real_foo" = Some 0%nat
    ∧ arena st' !! 0%nat ≠ Some foo_symbol
    ∧ arena st' !! 1%nat ≠ Some (set_isUsedInRegularObj false foo_symbol).
Proof.
  eexists. split; [vm_compute; reflexivity|].
  split; [reflexivity|]. split; vm_compute; discriminate.
Qed.

Lemma wrap_keeps_wrap_binding_witness :
  ∃ st',
    wrap 0 1 2 wrap_table = Some st'
    ∧ (∀ k, k ≠ "foo" → k ≠ "__real_foo" → symMap st' !! k = symMap wrap_table !! k)
    ∧ symMap st' !! "__wrap_foo" = Some 2%nat
    ∧ symMap st' !! "foo" = Some 2%nat
    ∧ symVector st' = symVector wrap_table.
Proof.
  apply (wrap_keeps_wrap_binding wrap_table 0 1 2 foo_symbol real_foo_symbol
           wrap_foo_symbol 2); first [reflexivity | discriminate].
Defined.


Lemma find_does_not_strip_witness :
  ∃ sym st1 st2,
    @insert example_collaborators "foo@@v1" empty_table = Some (sym, st1)
    ∧ @addSymbol example_collaborators (defined_symbol "foo@@v1") empty_table
      = Some (sym, st2)
    ∧ find "foo@@v1" st2 = Some nullptr
    ∧ find "foo" st2 = Some (Some sym).
Proof.
  do 3 eexists. split; [vm_compute; reflexivity|].
  split; [vm_compute; reflexivity|].
  eapply (@find_does_not_strip example_collaborators empty_table _ _ "foo" "v1").
  - apply well_formed_empty.
  - intros k i Hk. simpl in Hk. by rewrite lookup_empty in Hk.
  - reflexivity.
  - reflexivity.
  - vm_compute. reflexivity.
  - reflexivity.
  - reflexivity.
  - eexists. split; reflexivity.
Defined.

(** ** Loops *)

Lemma foldM_app {A B : Type} (f : A → B → option A) a l1 l2 :
  foldM f a (l1 ++ l2) = (a' ← foldM f a l1; foldM f a' l2).
Proof.
  revert a. induction l1 as [|b l1 IH]; intros a; simpl; [done|].
  destruct (f a b); simpl; [apply IH|done].
Qed.

(** An invariant of the body is an invariant of the loop. *)
Lemma foldM_invariant {A B : Type} (P : A → Prop) (f : A → B → option A) l a a' :
  P a →
  (∀ a b a', b ∈ l → P a → f a b = Some a' → P a') →
  foldM f a l = Some a' → P a'.
Proof.
  revert a. induction l as [|b l IH]; intros a Ha Hstep Hfold; simpl in *.
  - by simplify_eq.
  - destruct (f a b) as [a1|] eqn:Hf; simplify_eq/=.
    eapply IH; [|intros; eapply Hstep; [by right|done..] |done].
    eapply Hstep; [by left|done..].
Qed.

(** A body that goes through under the invariant makes the loop go through. *)
Lemma foldM_total {A B : Type} (P : A → Prop) (f : A → B → option A) l a :
  P a →
  (∀ a b, b ∈ l → P a → ∃ a', f a b = Some a' ∧ P a') →
  ∃ a', foldM f a l = Some a' ∧ P a'.
Proof.
  revert a. induction l as [|b l IH]; intros a Ha Hstep; simpl.
  - eauto.
  - destruct (Hstep a b) as (a1 & -> & Ha1); [by left|done|]. simpl.
    apply IH; [done|]. intros; apply Hstep; [by right|done].
Qed.

(** The loop that collects the elements a test keeps. *)
Lemma foldM_collect {B : Type} (keep : B → option bool) (l res : list B) :
  (∀ b, b ∈ l → is_Some (keep b)) →
  foldM (λ res b, k ← keep b; if k : bool then Some (res ++ [b]) else Some res) res l
  = Some (res ++ List.filter (λ b, default false (keep b)) l).
Proof.
  revert res. induction l as [|b l IH]; intros res Hl; cbn [foldM List.filter].
  - by rewrite app_nil_r.
  - destruct (Hl b) as [k Hk]; [by left|]. rewrite Hk. cbn [mbind option_bind default].
    destruct k; unfold id; change (Some ?x ≫= ?f) with (f x); cbv beta; rewrite (IH _ (λ b' Hb', Hl b' (list_elem_of_further _ _ _ Hb'))).
    + by rewrite <- app_assoc.
    + done.
Qed.

Lemma foldM_ext {A B : Type} (f g : A → B → option A) a l :
  (∀ a b, f a b = g a b) → foldM f a l = foldM g a l.
Proof.
  intros Hfg. revert a. induction l as [|b l IH]; intros a; simpl; [done|].
  rewrite Hfg. destruct (g a b); simpl; [apply IH|done].
Qed.

(** ** The symbol table: [findAllByVersion] *)



Lemma u64_small z : 0 ≤ z < 2 ^ 64 → u64 z = z.
Proof. intros Hz. unfold u64. by apply Z.mod_small. Qed.



(** The test of the plain loop of [findAllByVersion] on a symbol. *)
Definition passes `{Collaborators} (ver : SymbolVersion) (includeNonDefault : bool)
    (s : Symbol) : bool :=
  canBeVersioned s && check includeNonDefault (getName s)
  && matcher_match (ver_name ver) (getName s).

Section findAllByVersion_facts.
Context `{Collaborators}.

Lemma findAllByVersion_plain ver incl st :
  isExternCpp ver = false →
  (∀ sym, sym ∈ symVector st → is_Some (arena st !! sym)) →
  findAllByVersion ver incl st
  = Some (List.filter (λ sym, default false (passes ver incl <$> arena st !! sym))
                      (symVector st), st).
Proof.
  intros Hext Hvalid. unfold findAllByVersion. rewrite Hext.
  erewrite foldM_ext; [rewrite (foldM_collect (λ sym, passes ver incl <$> arena st !! sym))|].
  - done.
  - intros sym Hsym. destruct (Hvalid sym Hsym) as [s ->]. by eexists.
  - intros res sym. simpl. destruct (arena st !! sym); done.
Qed.

Lemma getDemangledSyms_arena st m st' :
  getDemangledSyms st = Some (m, st') →
  symMap st' = symMap st ∧ symVector st' = symVector st ∧ arena st' = arena st.
Proof.
  unfold getDemangledSyms. intros Hg.
  destruct (demangledSyms st); simplify_eq/=; [done|].
  destruct (buildDemangledSyms st); simplify_eq/=. done.
Qed.

(** In both loops a symbol is returned only if [check] holds of its name. *)
Lemma findAllByVersion_check ver incl st res st' sym :
  findAllByVersion ver incl st = Some (res, st') →
  sym ∈ res →
  ∃ s, arena st !! sym = Some s ∧ check incl (getName s) = true.
Proof.
  unfold findAllByVersion. destruct (isExternCpp ver).
  - intros Hf. destruct (getDemangledSyms st) as [[m st1]|] eqn:Hg; simplify_eq/=.
    destruct (getDemangledSyms_arena _ _ _ Hg) as (_ & _ & Harena).
    destruct (foldM _ _ _) as [res'|] eqn:Hfold; simplify_eq/=.
    revert sym. change (∀ sym, sym ∈ res →
      ∃ s, arena st !! sym = Some s ∧ check incl (getName s) = true).
    eapply (foldM_invariant
              (λ res, ∀ sym, sym ∈ res →
                 ∃ s, arena st !! sym = Some s ∧ check incl (getName s) = true));
      [| |exact Hfold].
    + intros sym Hsym. by apply elem_of_nil in Hsym.
    + intros acc p acc' _ Hacc Hstep. simpl in Hstep.
      destruct (matcher_match _ _); [|by simplify_eq].
      eapply (foldM_invariant
              (λ res, ∀ sym, sym ∈ res →
                 ∃ s, arena st !! sym = Some s ∧ check incl (getName s) = true));
        [exact Hacc| |exact Hstep].
      intros acc1 sym1 acc2 _ Hacc1 Hbody. simpl in Hbody.
      rewrite Harena in Hbody.
      destruct (arena st !! sym1) as [s1|] eqn:Hs1; simplify_eq/=.
      destruct (check incl (getName s1)) eqn:Hck; simplify_eq/=; [|done].
      intros sym Hsym. apply elem_of_app in Hsym as [Hsym|Hsym]; [by apply Hacc1|].
      apply list_elem_of_singleton in Hsym as ->. eauto.
  - intros Hf. destruct (foldM _ _ _) as [res'|] eqn:Hfold; simplify_eq/=.
    revert sym. change (∀ sym, sym ∈ res →
      ∃ s, arena st' !! sym = Some s ∧ check incl (getName s) = true).
    eapply (foldM_invariant
              (λ res, ∀ sym, sym ∈ res →
                 ∃ s, arena st' !! sym = Some s ∧ check incl (getName s) = true));
      [| |exact Hfold].
    + intros sym Hsym. by apply elem_of_nil in Hsym.
    + intros acc1 sym1 acc2 _ Hacc1 Hbody. simpl in Hbody.
      destruct (arena st' !! sym1) as [s1|] eqn:Hs1; simplify_eq/=.
      destruct (canBeVersioned s1 && check incl (getName s1) && _) eqn:Hck;
        simplify_eq/=; [|done].
      apply andb_true_iff in Hck as [Hck _]. apply andb_true_iff in Hck as [_ Hck].
      intros sym Hsym. apply elem_of_app in Hsym as [Hsym|Hsym]; [by apply Hacc1|].
      apply list_elem_of_singleton in Hsym as ->. eauto.
Qed.
End findAllByVersion_facts.





(** ** Version assignment: what the passes keep *)

(** The one change an assignment makes to a symbol: a symbol no version was
    assigned to gets one, and [verdefIndex] records it. *)
Definition advances (s s' : Symbol) : Prop :=
  s' = s ∨ (verdefIndex s = UINT32_MINUS_1 ∧ ∃ id, s' = set_version id s).

Definition assigns (a a' : list Symbol) : Prop :=
  length a' = length a
  ∧ ∀ p s, a !! p = Some s → ∃ s', a' !! p = Some s' ∧ advances s s'.

(** The demangled map [getDemangledSyms] answers with: the cached one, or
    the one it would build. *)
Definition view `{Collaborators} (st : SymbolTable) : option (gmap string (list nat)) :=
  match demangledSyms st with
  | Some m => Some m
  | None => buildDemangledSyms st
  end.

Definition evolves `{Collaborators} (st st' : SymbolTable) : Prop :=
  symMap st' = symMap st
  ∧ symVector st' = symVector st
  ∧ assigns (arena st) (arena st')
  ∧ view st' = view st.

Lemma advances_refl s : advances s s.
Proof. by left. Qed.

Lemma advances_trans s1 s2 s3 : advances s1 s2 → advances s2 s3 → advances s1 s3.
Proof.
  intros [->|(Hun & id & ->)] H23; [done|].
  destruct H23 as [->|(Hun' & _)].
  - right. eauto.
  - simpl in Hun'. discriminate.
Qed.

Lemma advances_name s s' : advances s s' → getName s' = getName s.
Proof. by intros [->|(_ & id & ->)]. Qed.

Lemma advances_kind s s' : advances s s' → symbolKind s' = symbolKind s.
Proof. by intros [->|(_ & id & ->)]. Qed.


Lemma assigns_refl a : assigns a a.
Proof. split; [done|]. intros p s Hs. exists s. split; [done|apply advances_refl]. Qed.

Lemma assigns_trans a1 a2 a3 : assigns a1 a2 → assigns a2 a3 → assigns a1 a3.
Proof.
  intros [Hl1 H1] [Hl2 H2]. split; [congruence|].
  intros p s Hs. destruct (H1 _ _ Hs) as (s' & Hs' & Ha).
  destruct (H2 _ _ Hs') as (s'' & Hs'' & Ha'). exists s''.
  split; [done|by eapply advances_trans].
Qed.

Lemma assigns_None a a' p : assigns a a' → a !! p = None → a' !! p = None.
Proof.
  intros [Hlen _] Hp. apply lookup_ge_None. apply lookup_ge_None in Hp. lia.
Qed.

(** A body that reads the name and the kind of a symbol only sees the same
    before and after assignments. *)
Lemma assigns_read {A : Type} a a' p (f : Symbol → option A) :
  assigns a a' →
  (∀ s s', advances s s' → f s' = f s) →
  (a' !! p ≫= f) = (a !! p ≫= f).
Proof.
  intros Has Hf. destruct (a !! p) as [s|] eqn:Hs.
  - destruct (proj2 Has _ _ Hs) as (s' & -> & Hadv). simpl. by apply Hf.
  - by rewrite (assigns_None _ _ _ Has Hs).
Qed.

Lemma advances_canBeVersioned s s' : advances s s' → canBeVersioned s' = canBeVersioned s.
Proof.
  intros Hadv. unfold canBeVersioned, isDefined, isCommon, isLazy.
  by rewrite (advances_kind _ _ Hadv).
Qed.

Section evolution.
Context `{Collaborators}.

Lemma buildDemangledSyms_assigns st st' :
  symVector st' = symVector st →
  assigns (arena st) (arena st') →
  buildDemangledSyms st' = buildDemangledSyms st.
Proof.
  intros Hvec Has. unfold buildDemangledSyms. rewrite Hvec.
  apply foldM_ext. intros m sym.
  apply (assigns_read _ _ sym
           (λ s, if canBeVersioned s
                 then Some (push_back_at (demangledName (getName s)) sym m)
                 else Some m)); [done|].
  intros s s' Hadv.
  by rewrite (advances_canBeVersioned _ _ Hadv), (advances_name _ _ Hadv).
Qed.

Lemma evolves_refl st : evolves st st.
Proof. split; [done|]. split; [done|]. split; [apply assigns_refl|done]. Qed.

Lemma evolves_trans st1 st2 st3 : evolves st1 st2 → evolves st2 st3 → evolves st1 st3.
Proof.
  intros (Hm1 & Hv1 & Ha1 & Hw1) (Hm2 & Hv2 & Ha2 & Hw2).
  split; [congruence|]. split; [congruence|].
  split; [by eapply assigns_trans|congruence].
Qed.

(** Assignments to the arena of a table are an evolution of the table. *)
Lemma evolves_with_arena st a :
  assigns (arena st) a → evolves st (with_arena a st).
Proof.
  intros Has. repeat split; try done; try apply Has.
  unfold view. simpl. destruct (demangledSyms st); [done|].
  by apply buildDemangledSyms_assigns.
Qed.

Lemma getDemangledSyms_view st : fst <$> getDemangledSyms st = view st.
Proof.
  unfold getDemangledSyms, view. destruct (demangledSyms st); [done|].
  by destruct (buildDemangledSyms st).
Qed.

Lemma getDemangledSyms_evolves st m st' :
  getDemangledSyms st = Some (m, st') →
  evolves st st' ∧ arena st' = arena st ∧ view st = Some m.
Proof.
  intros Hg. pose proof (getDemangledSyms_view st) as Hview. rewrite Hg in Hview.
  simpl in Hview. unfold getDemangledSyms in Hg.
  destruct (demangledSyms st) as [m'|] eqn:Hc; simplify_eq/=.
  { split; [apply evolves_refl|done]. }
  destruct (buildDemangledSyms st) as [m'|] eqn:Hb; simplify_eq/=.
  split; [|done]. split; [done|]. split; [done|].
  split; [apply assigns_refl|]. unfold view. simpl. by rewrite Hc.
Qed.

Lemma find_evolves st st' name : evolves st st' → find name st' = find name st.
Proof.
  intros (Hm & Hv & Ha & _). unfold find. rewrite Hm, Hv.
  destruct (symMap st !! name) as [i|]; [|done].
  destruct (symVector st !! i) as [sym|]; [|done]. simpl.
  apply (assigns_read _ _ sym
           (λ s, if isPlaceholder s then Some nullptr else Some (Some sym))); [done|].
  intros s s' Hadv. unfold isPlaceholder. by rewrite (advances_kind _ _ Hadv).
Qed.
End evolution.

(** ** Version assignment: the rules and their targets *)

(** One call of [assignExactVersion] or of [assignWildcardVersion]. *)
Record Rule := mkRule {
  rule_exact : bool;
  rule_pattern : SymbolVersion;
  rule_id : Z;
  rule_includeNonDefault : bool
}.

(** The symbols [findByVersion] and [findAllByVersion] return. *)
Definition matchesExact `{Collaborators} (ver : SymbolVersion) (st : SymbolTable)
    : option (list nat) :=
  fst <$> findByVersion ver st.

Definition matchesAll `{Collaborators} (ver : SymbolVersion) (incl : bool)
    (st : SymbolTable) : option (list nat) :=
  fst <$> findAllByVersion ver incl st.

Definition rule_targets `{Collaborators} (r : Rule) (st : SymbolTable)
    : option (list nat) :=
  if rule_exact r then matchesExact (rule_pattern r) st
  else matchesAll (rule_pattern r) (rule_includeNonDefault r) st.

(** The symbols [assignExactVersion] passes over: those whose name holds a
    version, for a rule of a version other than local. *)
Definition rule_skips (r : Rule) (s : Symbol) : bool :=
  rule_exact r && negb (rule_includeNonDefault r)
  && negb (rule_id r =? VER_NDX_LOCAL) && contains "@" (getName s).

Definition rule_hits (r : Rule) (targets : list nat) (sym : nat) (s : Symbol) : bool :=
  bool_decide (sym ∈ targets) && negb (rule_skips r s).

(** What a rule makes of a symbol: the version of the rule, if the rule
    hits it and no version was assigned to it. *)
Definition rule_outcome (r : Rule) (targets : list nat) (sym : nat) (s : Symbol)
    : Symbol :=
  if rule_hits r targets sym s && (verdefIndex s =? UINT32_MINUS_1)
  then set_version (rule_id r) s else s.

Definition apply_rule `{Collaborators} (r : Rule) (w : World) : option World :=
  if rule_exact r
  then snd <$> assignExactVersion (rule_pattern r) (rule_id r) ""
                 (rule_includeNonDefault r) w
  else assignWildcardVersion (rule_pattern r) (rule_id r) (rule_includeNonDefault r) w.

Definition is_warning (d : Diagnostic) : Prop :=
  match d with warn_reassign _ _ _ => True | errorOrWarn_not_defined _ _ => False end.

(** The inner loops of [findAllByVersion], on an arena. *)
Definition collectDemangled `{Collaborators} (ver : SymbolVersion) (incl : bool)
    (a : list Symbol) (m : gmap string (list nat)) : option (list nat) :=
  foldM (λ res (p : string * list nat),
           if matcher_match (ver_name ver) p.1
           then foldM (λ res sym,
                         s ← a !! sym;
                         if check incl (getName s)
                         then Some (res ++ [sym]) else Some res)
                      res p.2
           else Some res)
        [] (map_to_list m).

Definition collectPlain `{Collaborators} (ver : SymbolVersion) (incl : bool)
    (a : list Symbol) (vec : list nat) : option (list nat) :=
  foldM (λ res sym,
           s ← a !! sym;
           if canBeVersioned s && check incl (getName s)
              && matcher_match (ver_name ver) (getName s)
           then Some (res ++ [sym]) else Some res)
        [] vec.

Section targets.
Context `{Collaborators}.

Lemma findByVersion_evolves ver st syms st' :
  findByVersion ver st = Some (syms, st') → evolves st st' ∧ arena st' = arena st.
Proof.
  unfold findByVersion. destruct (isExternCpp ver).
  - intros Hf. destruct (getDemangledSyms st) as [[m st1]|] eqn:Hg; simplify_eq/=.
    destruct (getDemangledSyms_evolves _ _ _ Hg) as (? & ? & _). done.
  - intros Hf. destruct (find _ st) as [[sym|]|]; simplify_eq/=.
    + destruct (arena st !! sym) as [s|]; simplify_eq/=.
      destruct (canBeVersioned s); simplify_eq/=; split; done || apply evolves_refl.
    + split; done || apply evolves_refl.
Qed.

Lemma findAllByVersion_evolves ver incl st syms st' :
  findAllByVersion ver incl st = Some (syms, st') →
  evolves st st' ∧ arena st' = arena st.
Proof.
  unfold findAllByVersion. destruct (isExternCpp ver).
  - intros Hf. destruct (getDemangledSyms st) as [[m st1]|] eqn:Hg; simplify_eq/=.
    destruct (foldM _ _ _); simplify_eq/=.
    destruct (getDemangledSyms_evolves _ _ _ Hg) as (? & ? & _). done.
  - intros Hf. destruct (foldM _ _ _); simplify_eq/=.
    split; done || apply evolves_refl.
Qed.

Lemma matchesExact_unfold ver st :
  matchesExact ver st
  = if isExternCpp ver
    then (λ m, default [] (m !! ver_name ver)) <$> view st
    else o ← find (ver_name ver) st;
         match o with
         | Some sym =>
             s ← arena st !! sym;
             if canBeVersioned s then Some [sym] else Some []
         | None => Some []
         end.
Proof.
  unfold matchesExact, findByVersion. destruct (isExternCpp ver).
  - rewrite <- getDemangledSyms_view.
    by destruct (getDemangledSyms st) as [[m st1]|].
  - destruct (find _ st) as [[sym|]|]; simpl; [|done..].
    destruct (arena st !! sym) as [s|]; simpl; [|done].
    by destruct (canBeVersioned s).
Qed.

Lemma matchesAll_unfold ver incl st :
  matchesAll ver incl st
  = if isExternCpp ver
    then m ← view st; collectDemangled ver incl (arena st) m
    else collectPlain ver incl (arena st) (symVector st).
Proof.
  unfold matchesAll, findAllByVersion. destruct (isExternCpp ver).
  - rewrite <- getDemangledSyms_view.
    destruct (getDemangledSyms st) as [[m st1]|] eqn:Hg; simpl; [|done].
    destruct (getDemangledSyms_evolves _ _ _ Hg) as (_ & -> & _).
    unfold collectDemangled. by destruct (foldM _ _ _).
  - unfold collectPlain. by destruct (foldM _ _ _).
Qed.

Lemma collectDemangled_assigns ver incl a a' m :
  assigns a a' → collectDemangled ver incl a' m = collectDemangled ver incl a m.
Proof.
  intros Has. unfold collectDemangled. apply foldM_ext. intros res p.
  destruct (matcher_match _ _); [|done]. apply foldM_ext. intros res' sym.
  apply (assigns_read _ _ sym
           (λ s, if check incl (getName s) then Some (res' ++ [sym]) else Some res'));
    [done|].
  intros s s' Hadv. by rewrite (advances_name _ _ Hadv).
Qed.

Lemma collectPlain_assigns ver incl a a' vec :
  assigns a a' → collectPlain ver incl a' vec = collectPlain ver incl a vec.
Proof.
  intros Has. unfold collectPlain. apply foldM_ext. intros res sym.
  apply (assigns_read _ _ sym
           (λ s, if canBeVersioned s && check incl (getName s)
                    && matcher_match (ver_name ver) (getName s)
                 then Some (res ++ [sym]) else Some res)); [done|].
  intros s s' Hadv.
  by rewrite (advances_name _ _ Hadv), (advances_canBeVersioned _ _ Hadv).
Qed.

Lemma matchesExact_evolves ver st st' :
  evolves st st' → matchesExact ver st' = matchesExact ver st.
Proof.
  intros Hev. rewrite !matchesExact_unfold. destruct (isExternCpp ver).
  - by rewrite (proj2 (proj2 (proj2 Hev))).
  - rewrite (find_evolves _ _ _ Hev). destruct (find _ st) as [[sym|]|]; simpl; [|done..].
    apply (assigns_read _ _ sym
             (λ s, if canBeVersioned s then Some [sym] else Some [])).
    + apply Hev.
    + intros s s' Hadv. by rewrite (advances_canBeVersioned _ _ Hadv).
Qed.

Lemma matchesAll_evolves ver incl st st' :
  evolves st st' → matchesAll ver incl st' = matchesAll ver incl st.
Proof.
  intros (Hm & Hv & Ha & Hw). rewrite !matchesAll_unfold. destruct (isExternCpp ver).
  - rewrite Hw. destruct (view st); simpl; [|done]. by apply collectDemangled_assigns.
  - rewrite Hv. by apply collectPlain_assigns.
Qed.

Lemma rule_targets_evolves r st st' :
  evolves st st' → rule_targets r st' = rule_targets r st.
Proof.
  intros Hev. unfold rule_targets. destruct (rule_exact r).
  - by apply matchesExact_evolves.
  - by apply matchesAll_evolves.
Qed.
End targets.

(** ** Version assignment: the effect of one rule *)

Lemma rule_skips_advances r s s' : advances s s' → rule_skips r s' = rule_skips r s.
Proof. intros Hadv. unfold rule_skips. by rewrite (advances_name _ _ Hadv). Qed.

Lemma rule_outcome_advances r targets sym s : advances s (rule_outcome r targets sym s).
Proof.
  unfold rule_outcome. destruct (rule_hits _ _ _ _); simpl; [|by left].
  destruct (verdefIndex s =? UINT32_MINUS_1) eqn:Hun; [|by left].
  right. apply Z.eqb_eq in Hun. eauto.
Qed.

Lemma rule_outcome_cons_ne r sym rest p s :
  p ≠ sym → rule_outcome r (sym :: rest) p s = rule_outcome r rest p s.
Proof.
  intros Hne. unfold rule_outcome, rule_hits.
  replace (bool_decide (p ∈ sym :: rest)) with (bool_decide (p ∈ rest)); [done|].
  apply bool_decide_ext. rewrite elem_of_cons. tauto.
Qed.

Lemma rule_outcome_cons_eq r rest p s :
  rule_outcome r rest p (rule_outcome r [p] p s) = rule_outcome r (p :: rest) p s.
Proof.
  unfold rule_outcome at 2 3. unfold rule_hits.
  rewrite !bool_decide_eq_true_2 by (by left). simpl.
  destruct (rule_skips r s) eqn:Hskip; simpl.
  - unfold rule_outcome, rule_hits. rewrite Hskip. simpl. by rewrite andb_false_r.
  - destruct (verdefIndex s =? UINT32_MINUS_1) eqn:Hun.
    + unfold rule_outcome. simpl. by rewrite andb_false_r.
    + unfold rule_outcome. rewrite Hun. by rewrite andb_false_r.
Qed.

(** A loop whose body gives one symbol the outcome of the rule gives every
    symbol of the loop that outcome. *)
Lemma rule_loop {X : Type} (r : Rule) (step : X → nat → option X)
    (arena_of : X → list Symbol) syms x x' :
  (∀ x sym x', step x sym = Some x' →
     ∃ s, arena_of x !! sym = Some s
          ∧ arena_of x' = <[sym := rule_outcome r [sym] sym s]> (arena_of x)) →
  foldM step x syms = Some x' →
  length (arena_of x') = length (arena_of x)
  ∧ ∀ p s, arena_of x !! p = Some s →
           arena_of x' !! p = Some (rule_outcome r syms p s).
Proof.
  intros Hstep. revert x. induction syms as [|sym syms IH]; intros x Hfold; simpl in *.
  - simplify_eq. split; [done|]. intros p s Hs. by rewrite Hs.
  - destruct (step x sym) as [x1|] eqn:Hx1; simplify_eq/=.
    destruct (Hstep _ _ _ Hx1) as (s0 & Hs0 & Ha1).
    destruct (IH _ Hfold) as [Hlen Hall]. rewrite Ha1, length_insert in Hlen.
    split; [done|]. intros p s Hs.
    destruct (decide (p = sym)) as [->|Hne].
    + simplify_eq. rewrite <- rule_outcome_cons_eq. apply Hall.
      rewrite Ha1. apply list_lookup_insert_eq. by eapply lookup_lt_Some.
    + rewrite rule_outcome_cons_ne by done. apply Hall.
      rewrite Ha1. by rewrite list_lookup_insert_ne.
Qed.

Lemma assignExact_sym_outcome ver id incl (w w' : list Symbol * list Diagnostic) sym :
  assignExact_sym ver id incl w sym = Some w' →
  ∃ s, w.1 !! sym = Some s
       ∧ w'.1 = <[sym := rule_outcome (mkRule true ver id incl) [sym] sym s]> w.1
       ∧ ∃ warns, w'.2 = w.2 ++ warns ∧ Forall is_warning warns.
Proof.
  unfold assignExact_sym. intros Hstep.
  destruct (w.1 !! sym) as [s|] eqn:Hs; simplify_eq/=. exists s. split; [done|].
  unfold rule_outcome, rule_hits, rule_skips. simpl.
  rewrite bool_decide_eq_true_2 by (by left). simpl.
  destruct (negb incl && negb (id =? VER_NDX_LOCAL) && contains "@" (getName s)).
  - simplify_eq/=. split; [by rewrite list_insert_id|].
    exists []. by rewrite app_nil_r.
  - simpl. destruct (versionId _ =? id); simplify_eq/=.
    + split; [done|]. exists []. by rewrite app_nil_r.
    + split; [done|]. eexists. split; [done|]. by repeat constructor.
Qed.

Lemma assignWildcard_sym_outcome id ver incl (a : list Symbol) sym (a' : list Symbol) :
  assignWildcard_sym id a sym = Some a' →
  ∃ s, a !! sym = Some s
       ∧ a' = <[sym := rule_outcome (mkRule false ver id incl) [sym] sym s]> a.
Proof.
  unfold assignWildcard_sym. intros Hstep.
  destruct (a !! sym) as [s|] eqn:Hs; simplify_eq/=. exists s. split; [done|].
  unfold rule_outcome, rule_hits, rule_skips. simpl.
  rewrite bool_decide_eq_true_2 by (by left). simpl.
  destruct (verdefIndex s =? UINT32_MINUS_1); simplify_eq/=; [done|].
  by rewrite list_insert_id.
Qed.

Lemma assigns_outcome r targets a a' :
  length a' = length a →
  (∀ p s, a !! p = Some s → a' !! p = Some (rule_outcome r targets p s)) →
  assigns a a'.
Proof.
  intros Hlen Hall. split; [done|]. intros p s Hs. eexists.
  split; [by apply Hall|]. apply rule_outcome_advances.
Qed.

Section rule_effect.
Context `{Collaborators}.

(** [assignExactVersion] reports whether its pattern has targets, gives
    them the outcome of its rule and adds warnings only. *)
Lemma assignExactVersion_spec ver id name incl st ds found st' ds' :
  assignExactVersion ver id name incl (st, ds) = Some (found, (st', ds')) →
  ∃ targets,
    matchesExact ver st = Some targets
    ∧ found = negb (bool_decide (targets = []))
    ∧ evolves st st'
    ∧ (∀ p s, arena st !! p = Some s →
         arena st' !! p = Some (rule_outcome (mkRule true ver id incl) targets p s))
    ∧ ∃ warns, ds' = ds ++ warns ∧ Forall is_warning warns.
Proof.
  unfold assignExactVersion. simpl. intros Hrun.
  destruct (findByVersion ver st) as [[syms st1]|] eqn:Hfind; simplify_eq/=.
  destruct (foldM _ _ syms) as [[a ds1]|] eqn:Hloop; simplify_eq/=.
  destruct (findByVersion_evolves _ _ _ _ Hfind) as [Hev Harena].
  exists syms. split; [unfold matchesExact; by rewrite Hfind|]. split; [done|].
  assert (Hstep : ∀ x sym x', assignExact_sym ver id incl x sym = Some x' →
            ∃ s, x.1 !! sym = Some s
                 ∧ x'.1 = <[sym := rule_outcome (mkRule true ver id incl) [sym] sym s]> x.1).
  { intros x sym x' Hx.
    destruct (assignExact_sym_outcome _ _ _ _ _ _ Hx) as (s & ? & ? & _). eauto. }
  destruct (rule_loop (mkRule true ver id incl) (assignExact_sym ver id incl)
              fst syms _ _ Hstep Hloop) as [Hlen Hall].
  simpl in *. rewrite Harena in *.
  split; [|split; [done|]].
  - eapply evolves_trans; [exact Hev|].
    apply evolves_with_arena. rewrite Harena. by eapply assigns_outcome.
  - change (∃ warns, (a, ds').2 = ds ++ warns ∧ Forall is_warning warns).
    eapply (foldM_invariant
              (λ x : list Symbol * list Diagnostic,
                 ∃ warns, x.2 = ds ++ warns ∧ Forall is_warning warns));
      [| |exact Hloop].
    + exists []. by rewrite app_nil_r.
    + intros x sym x' _ (warns & Hx & Hwarns) Hbody.
      destruct (assignExact_sym_outcome _ _ _ _ _ _ Hbody)
        as (_ & _ & _ & warns' & Hx' & Hwarns').
      exists (warns ++ warns'). rewrite Hx', Hx, app_assoc.
      split; [done|by apply Forall_app].
Qed.

Lemma assignWildcardVersion_spec ver id incl st ds st' ds' :
  assignWildcardVersion ver id incl (st, ds) = Some (st', ds') →
  ∃ targets,
    matchesAll ver incl st = Some targets
    ∧ evolves st st'
    ∧ (∀ p s, arena st !! p = Some s →
         arena st' !! p = Some (rule_outcome (mkRule false ver id incl) targets p s))
    ∧ ds' = ds.
Proof.
  unfold assignWildcardVersion. simpl. intros Hrun.
  destruct (findAllByVersion ver incl st) as [[syms st1]|] eqn:Hfind; simplify_eq/=.
  destruct (foldM _ _ syms) as [a|] eqn:Hloop; simplify_eq/=.
  destruct (findAllByVersion_evolves _ _ _ _ _ Hfind) as [Hev Harena].
  exists syms. split; [unfold matchesAll; by rewrite Hfind|].
  destruct (rule_loop (mkRule false ver id incl) _ (λ a, a) syms _ _
              (assignWildcard_sym_outcome id ver incl) Hloop) as [Hlen Hall].
  rewrite Harena in *.
  split; [|done].
  eapply evolves_trans; [exact Hev|].
  apply evolves_with_arena. rewrite Harena. by eapply assigns_outcome.
Qed.

Lemma apply_rule_spec r st ds st' ds' :
  apply_rule r (st, ds) = Some (st', ds') →
  ∃ targets,
    rule_targets r st = Some targets
    ∧ evolves st st'
    ∧ (∀ p s, arena st !! p = Some s →
         arena st' !! p = Some (rule_outcome r targets p s))
    ∧ ∃ warns, ds' = ds ++ warns ∧ Forall is_warning warns.
Proof.
  unfold apply_rule, rule_targets. destruct r as [[] ver id incl]; simpl.
  - intros Hrun.
    destruct (assignExactVersion _ _ _ _ _) as [[found [st1 ds1]]|] eqn:Hex;
      simplify_eq/=.
    destruct (assignExactVersion_spec _ _ _ _ _ _ _ _ _ Hex)
      as (targets & ? & ? & ? & ? & ?). eauto 10.
  - intros Hrun.
    destruct (assignWildcardVersion_spec _ _ _ _ _ _ _ Hrun)
      as (targets & ? & ? & ? & ->).
    exists targets. repeat (split; [done|]). exists []. by rewrite app_nil_r.
Qed.
End rule_effect.

(** ** Version assignment: the order of the rules *)

(** The two calls [assignExact] makes for a pattern of the block [v]. *)
Definition exact_rules (v : VersionDefinition) (id : Z) (pat : SymbolVersion)
    : list Rule :=
  [mkRule true pat id false;
   mkRule true (versioned_pattern pat (vd_name v) false) id true].

(** The two calls [assignWildcard] makes for a pattern of the block [v]. *)
Definition wildcard_rules (v : VersionDefinition) (id : Z) (pat : SymbolVersion)
    : list Rule :=
  [mkRule false pat id false;
   mkRule false (versioned_pattern pat (vd_name v) true) id true].

Definition exact_block_rules (v : VersionDefinition) : list Rule :=
  flat_map (λ pat, if negb (hasWildcard pat) then exact_rules v (vd_id v) pat else [])
           (nonLocalPatterns v)
  ++ flat_map (λ pat, if negb (hasWildcard pat) then exact_rules v VER_NDX_LOCAL pat else [])
              (localPatterns v).

Definition wildcard_block_rules (select : SymbolVersion → bool) (v : VersionDefinition)
    : list Rule :=
  flat_map (λ pat, if hasWildcard pat && select pat
                   then wildcard_rules v (vd_id v) pat else [])
           (nonLocalPatterns v)
  ++ flat_map (λ pat, if hasWildcard pat && select pat
                      then wildcard_rules v VER_NDX_LOCAL pat else [])
              (localPatterns v).

Definition exact_pass_rules (config : Configuration) : list Rule :=
  flat_map exact_block_rules (versionDefinitions config).

Definition wildcard_pass_rules (config : Configuration) : list Rule :=
  flat_map (wildcard_block_rules (λ pat, negb (is_star pat)))
           (reverse (versionDefinitions config)).

Definition star_pass_rules (config : Configuration) : list Rule :=
  flat_map (wildcard_block_rules is_star) (versionDefinitions config).

(** The calls of the three loops of [scanVersionScript], in the order they
    are made. *)
Definition script_rules (config : Configuration) : list Rule :=
  exact_pass_rules config ++ wildcard_pass_rules config ++ star_pass_rules config.

(** Whether a rule hits a symbol of the table. *)
Definition hits `{Collaborators} (st : SymbolTable) (sym : nat) (s : Symbol) (r : Rule)
    : bool :=
  match rule_targets r st with
  | Some targets => rule_hits r targets sym s
  | None => false
  end.

(** What a list of rules makes of a symbol: the version of the first rule
    that hits it, if no version was assigned to it. *)
Definition script_outcome `{Collaborators} (rules : list Rule) (st : SymbolTable)
    (sym : nat) (s : Symbol) : Symbol :=
  if verdefIndex s =? UINT32_MINUS_1 then
    match List.find (hits st sym s) rules with
    | Some r => set_version (rule_id r) s
    | None => s
    end
  else s.

(** The table [st] is what the rules make of the table [st0]. *)
Definition resolved `{Collaborators} (rules : list Rule) (st0 st : SymbolTable) : Prop :=
  evolves st0 st
  ∧ ∀ p s, arena st0 !! p = Some s →
           arena st !! p = Some (script_outcome rules st0 p s).

Lemma find_snoc {A : Type} (f : A → bool) l x :
  List.find f (l ++ [x])
  = match List.find f l with
    | Some y => Some y
    | None => if f x then Some x else None
    end.
Proof.
  induction l as [|a l IH]; simpl; [done|]. destruct (f a); [done|apply IH].
Qed.

Section resolution.
Context `{Collaborators}.

Lemma resolved_nil st : resolved [] st st.
Proof.
  split; [apply evolves_refl|]. intros p s Hs. rewrite Hs. f_equal.
  unfold script_outcome. simpl. by destruct (_ =? _).
Qed.

Lemma resolved_step rules r st0 st ds st' ds' :
  resolved rules st0 st →
  apply_rule r (st, ds) = Some (st', ds') →
  resolved (rules ++ [r]) st0 st'
  ∧ ∃ warns, ds' = ds ++ warns ∧ Forall is_warning warns.
Proof.
  intros [Hev Hall] Hrun.
  destruct (apply_rule_spec _ _ _ _ _ Hrun) as (targets & Ht & Hev' & Hout & Hds).
  split; [|done]. split; [by eapply evolves_trans|].
  intros p s Hs. rewrite (Hout _ _ (Hall _ _ Hs)). f_equal.
  rewrite (rule_targets_evolves _ _ _ Hev) in Ht.
  assert (Hhit : hits st0 p s r = rule_hits r targets p s)
    by (unfold hits; by rewrite Ht).
  unfold script_outcome. rewrite find_snoc, Hhit.
  destruct (verdefIndex s =? UINT32_MINUS_1) eqn:Hun.
  - destruct (List.find _ rules) as [r0|].
    + unfold rule_outcome. simpl. by rewrite andb_false_r.
    + unfold rule_outcome. rewrite Hun, andb_true_r.
      by destruct (rule_hits r targets p s).
  - unfold rule_outcome. rewrite Hun. by rewrite andb_false_r.
Qed.
End resolution.

(** ** Version assignment: the loops of [scanVersionScript] *)

(** A pattern without a wildcard that the block [v] declares, with the
    version name its rule is reported under. *)
Definition declared_in_block (v : VersionDefinition) (pat : SymbolVersion)
    (ver : string) : Prop :=
  hasWildcard pat = false
  ∧ ((pat ∈ nonLocalPatterns v ∧ ver = vd_name v)
     ∨ (pat ∈ localPatterns v ∧ ver = "local")).

(** Neither the pattern nor the pattern with the version of its block names
    a symbol that can be versioned. *)
Definition exact_miss `{Collaborators} (st : SymbolTable) (v : VersionDefinition)
    (pat : SymbolVersion) : Prop :=
  matchesExact pat st = Some []
  ∧ matchesExact (versioned_pattern pat (vd_name v) false) st = Some [].

(** The diagnostics the loops may add: warnings, and the error of a
    pattern without a wildcard that misses, when misses are not allowed. *)
Definition expected `{Collaborators} (config : Configuration) (st : SymbolTable)
    (d : Diagnostic) : Prop :=
  is_warning d
  ∨ (undefinedVersion config = false
     ∧ ∃ v pat ver,
         v ∈ versionDefinitions config ∧ declared_in_block v pat ver
         ∧ exact_miss st v pat
         ∧ d = errorOrWarn_not_defined ver (ver_name pat)).

Definition scan_inv `{Collaborators} (config : Configuration) (st0 : SymbolTable)
    (ds0 : list Diagnostic) (rules : list Rule) (w : World) : Prop :=
  resolved rules st0 w.1
  ∧ ∃ extra, w.2 = ds0 ++ extra ∧ Forall (expected config st0) extra.

Definition grows (w w' : World) : Prop := ∀ d, d ∈ w.2 → d ∈ w'.2.

Lemma grows_refl w : grows w w.
Proof. by intros d. Qed.

Lemma grows_trans w1 w2 w3 : grows w1 w2 → grows w2 w3 → grows w1 w3.
Proof. intros H1 H2 d Hd. by apply H2, H1. Qed.

Lemma is_warning_expected `{Collaborators} config st warns :
  Forall is_warning warns → Forall (expected config st) warns.
Proof. intros Hw. eapply Forall_impl; [exact Hw|]. intros d Hd. by left. Qed.

Section loops.
Context `{Collaborators} (config : Configuration) (st0 : SymbolTable)
        (ds0 : list Diagnostic).

Lemma apply_rule_inv rules r w w' :
  scan_inv config st0 ds0 rules w →
  apply_rule r w = Some w' →
  scan_inv config st0 ds0 (rules ++ [r]) w' ∧ grows w w'.
Proof.
  destruct w as [st ds], w' as [st' ds']. intros [Hres (extra & Hds & Hextra)] Hrun.
  destruct (resolved_step _ _ _ _ _ _ _ Hres Hrun) as [Hres' (warns & -> & Hwarns)].
  simpl in *. split.
  - split; [done|]. exists (extra ++ warns). simpl. rewrite Hds, app_assoc.
    split; [done|]. apply Forall_app. split; [done|by apply is_warning_expected].
  - intros d Hd. simpl in *. apply elem_of_app. by left.
Qed.

Lemma assignExact_inv rules v pat id ver w w' :
  scan_inv config st0 ds0 rules w →
  v ∈ versionDefinitions config →
  declared_in_block v pat ver →
  assignExact config v pat id ver w = Some w' →
  scan_inv config st0 ds0 (rules ++ exact_rules v id pat) w'
  ∧ grows w w'
  ∧ (exact_miss st0 v pat → undefinedVersion config = false →
     errorOrWarn_not_defined ver (ver_name pat) ∈ w'.2).
Proof.
  intros Hinv Hv Hdecl. unfold assignExact. intros Hrun.
  destruct (assignExactVersion pat id ver false w) as [[found1 w1]|] eqn:H1;
    simplify_eq/=.
  destruct (assignExactVersion _ id ver true w1) as [[found2 w2]|] eqn:H2;
    simplify_eq/=.
  assert (Hr1 : apply_rule (mkRule true pat id false) w = Some w1).
  { unfold apply_rule. simpl. unfold assignExactVersion in *.
    destruct (findByVersion pat w.1) as [[syms st1]|]; simplify_eq/=.
    destruct (foldM _ _ syms) as [[a ds1]|]; by simplify_eq/=. }
  assert (Hr2 : apply_rule (mkRule true (versioned_pattern pat (vd_name v) false) id true)
                  w1 = Some w2).
  { unfold apply_rule. simpl. unfold assignExactVersion in *.
    destruct (findByVersion _ w1.1) as [[syms st1]|]; simplify_eq/=.
    destruct (foldM _ _ syms) as [[a ds1]|]; by simplify_eq/=. }
  destruct (apply_rule_inv _ _ _ _ Hinv Hr1) as [Hinv1 Hg1].
  destruct (apply_rule_inv _ _ _ _ Hinv1 Hr2) as [Hinv2 Hg2].
  rewrite <- app_assoc in Hinv2. simpl in Hinv2.
  destruct w as [st ds], w1 as [st1 ds1], w2 as [st2 ds2].
  destruct (assignExactVersion_spec _ _ _ _ _ _ _ _ _ H1)
    as (t1 & Ht1 & Hf1 & _).
  destruct (assignExactVersion_spec _ _ _ _ _ _ _ _ _ H2)
    as (t2 & Ht2 & Hf2 & _).
  rewrite (matchesExact_evolves _ _ _ (proj1 (proj1 Hinv))) in Ht1.
  rewrite (matchesExact_evolves _ _ _ (proj1 (proj1 Hinv1))) in Ht2.
  destruct (negb (found1 || found2) && negb (undefinedVersion config)) eqn:Herr;
    simplify_eq/=.
  - apply andb_true_iff in Herr as [Hfound Hundef].
    apply negb_true_iff, orb_false_iff in Hfound as [Hf1 Hf2].
    apply negb_true_iff in Hundef.
    apply negb_false_iff, bool_decide_eq_true in Hf1, Hf2. subst t1 t2.
    split; [|split].
    + destruct Hinv2 as [Hres (extra & Hds & Hextra)]. split; [done|].
      simpl in *. exists (extra ++ [errorOrWarn_not_defined ver (ver_name pat)]).
      rewrite Hds, app_assoc. split; [done|].
      apply Forall_app. split; [done|]. constructor; [|done].
      right. split; [done|]. exists v, pat, ver. done.
    + intros d Hd. simpl. apply elem_of_app. left. by apply Hg2, Hg1.
    + intros _ _. simpl. apply elem_of_app. right. by left.
  - split; [done|]. split; [by eapply grows_trans|].
    intros [Hm1 Hm2] Hundef. exfalso.
    rewrite Hm1 in Ht1. rewrite Hm2 in Ht2. simplify_eq.
    rewrite Hundef in Herr. simpl in Herr. discriminate.
Qed.

Lemma assignWildcard_inv rules v pat id w w' :
  scan_inv config st0 ds0 rules w →
  assignWildcard pat id (vd_name v) w = Some w' →
  scan_inv config st0 ds0 (rules ++ wildcard_rules v id pat) w' ∧ grows w w'.
Proof.
  intros Hinv. unfold assignWildcard. intros Hrun.
  destruct (assignWildcardVersion pat id false w) as [w1|] eqn:H1; simplify_eq/=.
  destruct (apply_rule_inv rules (mkRule false pat id false) _ _ Hinv H1)
    as [Hinv1 Hg1].
  destruct (apply_rule_inv _ (mkRule false (versioned_pattern pat (vd_name v) true) id true)
              _ _ Hinv1 Hrun) as [Hinv2 Hg2].
  rewrite <- app_assoc in Hinv2. split; [done|by eapply grows_trans].
Qed.

Lemma exact_patterns_inv v id ver pats rules w w' :
  v ∈ versionDefinitions config →
  (∀ pat, pat ∈ pats → hasWildcard pat = false → declared_in_block v pat ver) →
  scan_inv config st0 ds0 rules w →
  foldM (λ w pat, if negb (hasWildcard pat)
                  then assignExact config v pat id ver w else Some w) w pats
  = Some w' →
  scan_inv config st0 ds0
    (rules ++ flat_map (λ pat, if negb (hasWildcard pat)
                               then exact_rules v id pat else []) pats) w'
  ∧ grows w w'
  ∧ (∀ pat, pat ∈ pats → hasWildcard pat = false →
       exact_miss st0 v pat → undefinedVersion config = false →
       errorOrWarn_not_defined ver (ver_name pat) ∈ w'.2).
Proof.
  intros Hv. revert rules w.
  induction pats as [|pat pats IH]; intros rules w Hdecl Hinv Hrun; simpl in *.
  - simplify_eq. rewrite app_nil_r. split; [done|]. split; [apply grows_refl|].
    intros pat Hpat. by apply elem_of_nil in Hpat.
  - destruct (hasWildcard pat) eqn:Hwild; simpl in *.
    + destruct (IH rules w) as (Hinv' & Hg & Hmiss); [|done..|].
      { intros; apply Hdecl; [by right|done]. }
      split; [done|]. split; [done|].
      intros pat' Hin Hw'. apply elem_of_cons in Hin as [->|Hin]; [congruence|].
      by apply Hmiss.
    + destruct (assignExact config v pat id ver w) as [w1|] eqn:H1; simplify_eq/=.
      destruct (assignExact_inv rules v pat id ver w w1 Hinv Hv) as (Hinv1 & Hg1 & Hm1);
        [apply Hdecl; [by left|done]|done|].
      destruct (IH (rules ++ exact_rules v id pat) w1) as (Hinv' & Hg & Hmiss);
        [|done..|].
      { intros; apply Hdecl; [by right|done]. }
      rewrite <- app_assoc in Hinv'.
      split; [done|]. split; [by eapply grows_trans|].
      intros pat' Hin Hw' Hmiss' Hundef.
      apply elem_of_cons in Hin as [->|Hin]; [|by apply Hmiss].
      by apply Hg, Hm1.
Qed.

Lemma wildcard_patterns_inv select v id pats rules w w' :
  scan_inv config st0 ds0 rules w →
  foldM (λ w pat, if hasWildcard pat && select pat
                  then assignWildcard pat id (vd_name v) w else Some w) w pats
  = Some w' →
  scan_inv config st0 ds0
    (rules ++ flat_map (λ pat, if hasWildcard pat && select pat
                               then wildcard_rules v id pat else []) pats) w'
  ∧ grows w w'.
Proof.
  revert rules w.
  induction pats as [|pat pats IH]; intros rules w Hinv Hrun; simpl in *.
  - simplify_eq. rewrite app_nil_r. split; [done|apply grows_refl].
  - destruct (hasWildcard pat && select pat); simpl in *.
    + destruct (assignWildcard pat id (vd_name v) w) as [w1|] eqn:H1; simplify_eq/=.
      destruct (assignWildcard_inv rules v pat id _ _ Hinv H1) as [Hinv1 Hg1].
      destruct (IH _ w1 Hinv1 Hrun) as [Hinv' Hg].
      rewrite <- app_assoc in Hinv'. split; [done|by eapply grows_trans].
    + by apply IH.
Qed.

Lemma exactBlock_inv v rules w w' :
  v ∈ versionDefinitions config →
  scan_inv config st0 ds0 rules w →
  exactBlock config w v = Some w' →
  scan_inv config st0 ds0 (rules ++ exact_block_rules v) w'
  ∧ grows w w'
  ∧ (∀ pat ver, declared_in_block v pat ver →
       exact_miss st0 v pat → undefinedVersion config = false →
       errorOrWarn_not_defined ver (ver_name pat) ∈ w'.2).
Proof.
  intros Hv Hinv. unfold exactBlock. intros Hrun.
  destruct (foldM _ w (nonLocalPatterns v)) as [w1|] eqn:H1; simplify_eq/=.
  destruct (exact_patterns_inv v (vd_id v) (vd_name v) _ _ _ _ Hv
              (λ pat Hin Hw, conj Hw (or_introl (conj Hin eq_refl))) Hinv H1)
    as (Hinv1 & Hg1 & Hm1).
  destruct (exact_patterns_inv v VER_NDX_LOCAL "local" _ _ _ _ Hv
              (λ pat Hin Hw, conj Hw (or_intror (conj Hin eq_refl))) Hinv1 Hrun)
    as (Hinv2 & Hg2 & Hm2).
  unfold exact_block_rules. rewrite app_assoc.
  split; [done|]. split; [by eapply grows_trans|].
  intros pat ver [Hw [[Hin ->]|[Hin ->]]] Hmiss Hundef.
  - by apply Hg2, Hm1.
  - by apply Hm2.
Qed.

Lemma wildcardBlock_inv select v rules w w' :
  scan_inv config st0 ds0 rules w →
  wildcardBlock select w v = Some w' →
  scan_inv config st0 ds0 (rules ++ wildcard_block_rules select v) w' ∧ grows w w'.
Proof.
  intros Hinv. unfold wildcardBlock. intros Hrun.
  destruct (foldM _ w (nonLocalPatterns v)) as [w1|] eqn:H1; simplify_eq/=.
  destruct (wildcard_patterns_inv select v (vd_id v) _ _ _ _ Hinv H1) as [Hinv1 Hg1].
  destruct (wildcard_patterns_inv select v VER_NDX_LOCAL _ _ _ _ Hinv1 Hrun)
    as [Hinv2 Hg2].
  unfold wildcard_block_rules. rewrite app_assoc.
  split; [done|by eapply grows_trans].
Qed.

Lemma exact_blocks_inv l rules w w' :
  (∀ v, v ∈ l → v ∈ versionDefinitions config) →
  scan_inv config st0 ds0 rules w →
  foldM (exactBlock config) w l = Some w' →
  scan_inv config st0 ds0 (rules ++ flat_map exact_block_rules l) w'
  ∧ grows w w'
  ∧ (∀ v pat ver, v ∈ l → declared_in_block v pat ver →
       exact_miss st0 v pat → undefinedVersion config = false →
       errorOrWarn_not_defined ver (ver_name pat) ∈ w'.2).
Proof.
  revert rules w. induction l as [|v l IH]; intros rules w Hl Hinv Hrun; simpl in *.
  - simplify_eq. rewrite app_nil_r. split; [done|]. split; [apply grows_refl|].
    intros v pat ver Hv. by apply elem_of_nil in Hv.
  - destruct (exactBlock config w v) as [w1|] eqn:H1; simplify_eq/=.
    destruct (exactBlock_inv v _ _ _ (Hl v (list_elem_of_here _ _)) Hinv H1)
      as (Hinv1 & Hg1 & Hm1).
    destruct (IH _ w1 (λ v' Hv', Hl v' (list_elem_of_further _ _ _ Hv')) Hinv1 Hrun)
      as (Hinv' & Hg & Hm).
    rewrite <- app_assoc in Hinv'.
    split; [done|]. split; [by eapply grows_trans|].
    intros v' pat ver Hv' Hdecl Hmiss Hundef.
    apply elem_of_cons in Hv' as [->|Hv']; [|by eapply Hm].
    by eapply Hg, Hm1.
Qed.

Lemma wildcard_blocks_inv select l rules w w' :
  scan_inv config st0 ds0 rules w →
  foldM (wildcardBlock select) w l = Some w' →
  scan_inv config st0 ds0 (rules ++ flat_map (wildcard_block_rules select) l) w'
  ∧ grows w w'.
Proof.
  revert rules w. induction l as [|v l IH]; intros rules w Hinv Hrun; simpl in *.
  - simplify_eq. rewrite app_nil_r. split; [done|apply grows_refl].
  - destruct (wildcardBlock select w v) as [w1|] eqn:H1; simplify_eq/=.
    destruct (wildcardBlock_inv select v _ _ _ Hinv H1) as [Hinv1 Hg1].
    destruct (IH _ w1 Hinv1 Hrun) as [Hinv' Hg].
    rewrite <- app_assoc in Hinv'. split; [done|by eapply grows_trans].
Qed.
End loops.

(** ** Version assignment: the loops go through *)

(** The indices and pointers of the table, and of its demangled map if it
    is built, are in range. *)
Definition valid (st : SymbolTable) : Prop :=
  well_formed st
  ∧ ∀ m k l sym, demangledSyms st = Some m → m !! k = Some l → sym ∈ l →
                 (sym < length (arena st))%nat.

(** The arena keeps the versions of its symbols. *)
Definition keeps_versions (a a' : list Symbol) : Prop :=
  length a' = length a
  ∧ ∀ p s, a !! p = Some s →
           ∃ s', a' !! p = Some s' ∧ versionId s' = versionId s
                 ∧ verdefIndex s' = verdefIndex s.

Lemma keeps_versions_refl a : keeps_versions a a.
Proof. split; [done|]. intros p s Hs. by exists s. Qed.

Lemma keeps_versions_trans a1 a2 a3 :
  keeps_versions a1 a2 → keeps_versions a2 a3 → keeps_versions a1 a3.
Proof.
  intros [Hl1 H1] [Hl2 H2]. split; [congruence|]. intros p s Hs.
  destruct (H1 _ _ Hs) as (s' & Hs' & Hv & Hi).
  destruct (H2 _ _ Hs') as (s'' & Hs'' & Hv' & Hi').
  exists s''. split; [done|]. split; congruence.
Qed.

(** A loop that rewrites one symbol at a time with a function that keeps
    the version keeps the versions, and goes through on valid pointers. *)
Lemma rewrite_loop (f : Symbol → Symbol) (a : list Symbol) (syms : list nat) :
  (∀ s, versionId (f s) = versionId s ∧ verdefIndex (f s) = verdefIndex s) →
  (∀ sym, sym ∈ syms → (sym < length a)%nat) →
  ∃ a', foldM (λ a sym, s ← a !! sym; Some (<[sym := f s]> a)) a syms = Some a'
        ∧ keeps_versions a a'.
Proof.
  intros Hf Hsyms.
  destruct (foldM_total (λ a', keeps_versions a a')
              (λ a sym, s ← a !! sym; Some (<[sym := f s]> a)) syms a) as (a' & ? & ?);
    [apply keeps_versions_refl| |by eauto].
  intros a1 sym Hsym Hk.
  assert (Hlt : (sym < length a1)%nat) by (rewrite (proj1 Hk); by apply Hsyms).
  destruct (lookup_lt_is_Some_2 a1 sym Hlt) as [s Hs]. rewrite Hs. simpl.
  eexists. split; [done|]. eapply keeps_versions_trans; [exact Hk|].
  split; [by rewrite length_insert|]. intros p s' Hs'.
  destruct (decide (p = sym)) as [->|Hne].
  - simplify_eq. exists (f s). rewrite list_lookup_insert_eq by done.
    split; [done|apply Hf].
  - exists s'. by rewrite list_lookup_insert_ne.
Qed.

Lemma push_back_at_lookup key sym (m : gmap string (list nat)) k l x :
  push_back_at key sym m !! k = Some l → x ∈ l →
  x = sym ∨ ∃ l', m !! k = Some l' ∧ x ∈ l'.
Proof.
  unfold push_back_at. destruct (decide (key = k)) as [->|Hne].
  - rewrite lookup_insert_eq. intros [= <-] Hx.
    apply elem_of_app in Hx as [Hx|Hx].
    + right. destruct (m !! k) as [l'|]; simpl in Hx; [eauto|].
      by apply elem_of_nil in Hx.
    + left. by apply list_elem_of_singleton in Hx.
  - rewrite lookup_insert_ne by done. eauto.
Qed.

Section totality.
Context `{Collaborators}.

Lemma buildDemangledSyms_total st :
  well_formed st →
  ∃ m, buildDemangledSyms st = Some m
       ∧ ∀ k l sym, m !! k = Some l → sym ∈ l → sym ∈ symVector st.
Proof.
  intros [_ Hptr]. unfold buildDemangledSyms.
  apply (foldM_total (λ m : gmap string (list nat),
                        ∀ k l sym, m !! k = Some l → sym ∈ l → sym ∈ symVector st)).
  - intros k l sym Hk. by rewrite lookup_empty in Hk.
  - intros m sym Hsym Hm.
    apply list_elem_of_lookup in Hsym as Hi. destruct Hi as [i Hi].
    destruct (lookup_lt_is_Some_2 (arena st) sym (Hptr _ _ Hi)) as [s Hs].
    rewrite Hs. simpl. destruct (canBeVersioned s); [|eauto].
    eexists. split; [done|]. intros k l x Hk Hx.
    destruct (push_back_at_lookup _ _ _ _ _ _ Hk Hx) as [->|(l' & Hl' & Hx')];
      [done|by eapply Hm].
Qed.

Lemma view_total st :
  valid st →
  ∃ m, view st = Some m
       ∧ ∀ k l sym, m !! k = Some l → sym ∈ l → (sym < length (arena st))%nat.
Proof.
  intros [Hwf Hcache]. unfold view. destruct (demangledSyms st) as [m|] eqn:Hc.
  - exists m. split; [done|]. intros k l sym. by apply Hcache.
  - destruct (buildDemangledSyms_total st Hwf) as (m & Hm & Hin).
    exists m. split; [done|]. intros k l sym Hk Hsym.
    pose proof (Hin _ _ _ Hk Hsym) as Hvec.
    apply list_elem_of_lookup in Hvec as [i Hi].
    by apply (proj2 Hwf) in Hi.
Qed.

Lemma evolves_valid st st' : valid st → evolves st st' → valid st'.
Proof.
  intros Hvalid (Hm & Hv & [Hlen _] & Hview).
  destruct (view_total st Hvalid) as (m & Hvm & Hentries).
  destruct Hvalid as [[Hidx Hptr] Hcache].
  split; [split|].
  - intros k i. rewrite Hm, Hv. apply Hidx.
  - intros i p. rewrite Hv, Hlen. apply Hptr.
  - intros m' k l sym Hc Hk Hsym. rewrite Hlen.
    unfold view in Hview at 1. rewrite Hc in Hview.
    rewrite Hvm in Hview. simplify_eq. by eapply Hentries.
Qed.

Lemma getDemangledSyms_total st :
  valid st →
  ∃ m st', getDemangledSyms st = Some (m, st')
           ∧ ∀ k l sym, m !! k = Some l → sym ∈ l → (sym < length (arena st))%nat.
Proof.
  intros Hvalid. destruct (view_total st Hvalid) as (m & Hvm & Hentries).
  pose proof (getDemangledSyms_view st) as Hg. rewrite Hvm in Hg.
  destruct (getDemangledSyms st) as [[m' st']|]; simplify_eq/=. eauto.
Qed.

Lemma find_total st name :
  well_formed st →
  ∃ o, find name st = Some o
       ∧ ∀ sym, o = Some sym → (sym < length (arena st))%nat.
Proof.
  intros [Hidx Hptr]. unfold find.
  destruct (symMap st !! name) as [i|] eqn:Hi; [|by exists None].
  destruct (lookup_lt_is_Some_2 (symVector st) i (Hidx _ _ Hi)) as [sym Hsym].
  rewrite Hsym. simpl.
  destruct (lookup_lt_is_Some_2 (arena st) sym (Hptr _ _ Hsym)) as [s Hs].
  rewrite Hs. simpl. destruct (isPlaceholder s); [by exists None|].
  exists (Some sym). split; [done|]. intros ? [= <-]. by eapply Hptr.
Qed.

Lemma findByVersion_total ver st :
  valid st →
  ∃ syms st', findByVersion ver st = Some (syms, st')
              ∧ ∀ sym, sym ∈ syms → (sym < length (arena st))%nat.
Proof.
  intros Hvalid. unfold findByVersion. destruct (isExternCpp ver).
  - destruct (getDemangledSyms_total st Hvalid) as (m & st' & -> & Hentries).
    simpl. do 2 eexists. split; [done|]. intros sym Hsym.
    destruct (m !! ver_name ver) as [l|] eqn:Hl; simpl in Hsym.
    + by eapply Hentries.
    + by apply elem_of_nil in Hsym.
  - destruct (find_total st (ver_name ver) (proj1 Hvalid)) as (o & -> & Ho). simpl.
    destruct o as [sym|].
    + pose proof (Ho sym eq_refl) as Hlt.
      destruct (lookup_lt_is_Some_2 (arena st) sym Hlt) as [s ->]. simpl.
      destruct (canBeVersioned s); do 2 eexists; (split; [done|]); intros x Hx.
      * by apply list_elem_of_singleton in Hx as ->.
      * by apply elem_of_nil in Hx.
    + do 2 eexists. split; [done|]. intros x Hx. by apply elem_of_nil in Hx.
Qed.

Lemma findAllByVersion_total ver incl st :
  valid st →
  ∃ syms st', findAllByVersion ver incl st = Some (syms, st')
              ∧ ∀ sym, sym ∈ syms → (sym < length (arena st))%nat.
Proof.
  intros Hvalid.
  assert (Hres : ∃ syms st', findAllByVersion ver incl st = Some (syms, st')).
  { destruct (isExternCpp ver) eqn:Hext.
    - unfold findAllByVersion. rewrite Hext.
      destruct (getDemangledSyms_total st Hvalid) as (m & st' & Hg & Hentries).
      rewrite Hg. simpl.
      destruct (getDemangledSyms_evolves _ _ _ Hg) as (_ & Harena & _).
      destruct (foldM_total (λ _ : list nat, True)
                  (λ res (p : string * list nat),
                     if matcher_match (ver_name ver) p.1
                     then foldM (λ res sym,
                                   s ← arena st' !! sym;
                                   if check incl (getName s)
                                   then Some (res ++ [sym]) else Some res)
                                res p.2
                     else Some res) (map_to_list m) []) as (res & -> & _);
        [done| |simpl; eauto].
      intros res [k l] Hp _. apply elem_of_map_to_list in Hp. simpl.
      destruct (matcher_match _ _); [|eauto].
      apply (foldM_total (λ _ : list nat, True)); [done|].
      intros res' sym Hsym _.
      assert (Hlt : (sym < length (arena st'))%nat)
        by (rewrite Harena; by eapply Hentries).
      destruct (lookup_lt_is_Some_2 _ _ Hlt) as [s ->]. simpl.
      destruct (check incl (getName s)); eauto.
    - rewrite findAllByVersion_plain; [eauto|done|].
      intros sym Hsym. apply list_elem_of_lookup in Hsym as [i Hi].
      apply lookup_lt_is_Some. by eapply (proj2 (proj1 Hvalid)). }
  destruct Hres as (syms & st' & Hf). exists syms, st'. split; [done|].
  intros sym Hsym.
  destruct (findAllByVersion_check _ _ _ _ _ _ Hf Hsym) as (s & Hs & _).
  by eapply lookup_lt_Some.
Qed.
End totality.

Section totality_of_passes.
Context `{Collaborators}.

Lemma assignExactVersion_total ver id name incl (w : World) :
  valid w.1 →
  ∃ found w', assignExactVersion ver id name incl w = Some (found, w') ∧ valid w'.1.
Proof.
  destruct w as [st ds]. simpl. intros Hvalid.
  assert (Hrun : ∃ r, assignExactVersion ver id name incl (st, ds) = Some r).
  { unfold assignExactVersion. simpl.
    destruct (findByVersion_total ver st Hvalid) as (syms & st1 & Hf & Hsyms).
    rewrite Hf. simpl.
    destruct (findByVersion_evolves _ _ _ _ Hf) as [_ Harena].
    destruct (foldM_total
                (λ x : list Symbol * list Diagnostic, length x.1 = length (arena st))
                (assignExact_sym ver id incl) syms (arena st1, ds))
      as ([a ds'] & -> & _); [by rewrite Harena| |simpl; eauto].
    intros x sym Hsym Hlen. unfold assignExact_sym.
    assert (Hlt : (sym < length x.1)%nat) by (rewrite Hlen; by apply Hsyms).
    destruct (lookup_lt_is_Some_2 _ _ Hlt) as [s ->]. simpl.
    destruct (_ && _); [eauto|].
    destruct (_ =? id); eexists; (split; [done|]); simpl; by rewrite length_insert. }
  destruct Hrun as ([found [st' ds']] & Hrun). exists found, (st', ds').
  split; [done|]. simpl.
  destruct (assignExactVersion_spec _ _ _ _ _ _ _ _ _ Hrun) as (_ & _ & _ & Hev & _).
  by eapply evolves_valid.
Qed.

Lemma assignWildcardVersion_total ver id incl (w : World) :
  valid w.1 →
  ∃ w', assignWildcardVersion ver id incl w = Some w' ∧ valid w'.1.
Proof.
  destruct w as [st ds]. simpl. intros Hvalid.
  assert (Hrun : ∃ r, assignWildcardVersion ver id incl (st, ds) = Some r).
  { unfold assignWildcardVersion. simpl.
    destruct (findAllByVersion_total ver incl st Hvalid) as (syms & st1 & Hf & Hsyms).
    rewrite Hf. simpl.
    destruct (findAllByVersion_evolves _ _ _ _ _ Hf) as [_ Harena].
    destruct (foldM_total (λ a : list Symbol, length a = length (arena st))
                (assignWildcard_sym id) syms (arena st1))
      as (a & -> & _); [by rewrite Harena| |simpl; eauto].
    intros a sym Hsym Hlen. unfold assignWildcard_sym.
    assert (Hlt : (sym < length a)%nat) by (rewrite Hlen; by apply Hsyms).
    destruct (lookup_lt_is_Some_2 _ _ Hlt) as [s ->]. simpl.
    destruct (_ =? _); eexists; (split; [done|]); by rewrite ?length_insert. }
  destruct Hrun as ([st' ds'] & Hrun). exists (st', ds'). split; [done|]. simpl.
  destruct (assignWildcardVersion_spec _ _ _ _ _ _ _ Hrun) as (_ & _ & Hev & _).
  by eapply evolves_valid.
Qed.

Lemma assignExact_total config v pat id ver (w : World) :
  valid w.1 → ∃ w', assignExact config v pat id ver w = Some w' ∧ valid w'.1.
Proof.
  intros Hvalid. unfold assignExact.
  destruct (assignExactVersion_total pat id ver false w Hvalid)
    as (found1 & w1 & -> & Hv1). simpl.
  destruct (assignExactVersion_total (versioned_pattern pat (vd_name v) false)
              id ver true w1 Hv1) as (found2 & w2 & -> & Hv2). simpl.
  destruct (_ && _); eauto.
Qed.

Lemma assignWildcard_total pat id ver (w : World) :
  valid w.1 → ∃ w', assignWildcard pat id ver w = Some w' ∧ valid w'.1.
Proof.
  intros Hvalid. unfold assignWildcard.
  destruct (assignWildcardVersion_total pat id false w Hvalid) as (w1 & -> & Hv1).
  simpl. by apply assignWildcardVersion_total.
Qed.

Lemma exactBlock_total config v (w : World) :
  valid w.1 → ∃ w', exactBlock config w v = Some w' ∧ valid w'.1.
Proof.
  intros Hvalid. unfold exactBlock.
  destruct (foldM_total (λ w : World, valid w.1)
              (λ w pat, if negb (hasWildcard pat)
                        then assignExact config v pat (vd_id v) (vd_name v) w
                        else Some w) (nonLocalPatterns v) w) as (w1 & -> & Hv1);
    [done| |].
  { intros w0 pat _ Hw0. destruct (negb _); [by apply assignExact_total|eauto]. }
  simpl. apply (foldM_total (λ w : World, valid w.1)); [done|].
  intros w0 pat _ Hw0. destruct (negb _); [by apply assignExact_total|eauto].
Qed.

Lemma wildcardBlock_total select v (w : World) :
  valid w.1 → ∃ w', wildcardBlock select w v = Some w' ∧ valid w'.1.
Proof.
  intros Hvalid. unfold wildcardBlock.
  destruct (foldM_total (λ w : World, valid w.1)
              (λ w pat, if hasWildcard pat && select pat
                        then assignWildcard pat (vd_id v) (vd_name v) w
                        else Some w) (nonLocalPatterns v) w) as (w1 & -> & Hv1);
    [done| |].
  { intros w0 pat _ Hw0. destruct (_ && _); [by apply assignWildcard_total|eauto]. }
  simpl. apply (foldM_total (λ w : World, valid w.1)); [done|].
  intros w0 pat _ Hw0. destruct (_ && _); [by apply assignWildcard_total|eauto].
Qed.

Lemma exactPass_total config (w : World) :
  valid w.1 → ∃ w', exactPass config w = Some w' ∧ valid w'.1.
Proof.
  intros Hvalid. apply (foldM_total (λ w : World, valid w.1)); [done|].
  intros w0 v _ Hw0. by apply exactBlock_total.
Qed.

Lemma wildcardPass_total config (w : World) :
  valid w.1 → ∃ w', wildcardPass config w = Some w' ∧ valid w'.1.
Proof.
  intros Hvalid. apply (foldM_total (λ w : World, valid w.1)); [done|].
  intros w0 v _ Hw0. by apply wildcardBlock_total.
Qed.

Lemma starPass_total config (w : World) :
  valid w.1 → ∃ w', starPass config w = Some w' ∧ valid w'.1.
Proof.
  intros Hvalid. apply (foldM_total (λ w : World, valid w.1)); [done|].
  intros w0 v _ Hw0. by apply wildcardBlock_total.
Qed.

(** A new arena of the same length keeps the table valid. *)
Lemma valid_with_arena st a :
  valid st → length a = length (arena st) → valid (with_arena a st).
Proof.
  intros [[Hidx Hptr] Hcache] Hlen. split; [split|]; simpl.
  - done.
  - intros i p. rewrite Hlen. apply Hptr.
  - intros m k l sym. rewrite Hlen. apply Hcache.
Qed.

Lemma parseSymbolVersions_total `{SymbolParser} st :
  valid st →
  ∃ st', parseSymbolVersions st = Some st' ∧ valid st'
         ∧ keeps_versions (arena st) (arena st').
Proof.
  intros Hvalid. unfold parseSymbolVersions.
  destruct (rewrite_loop parseSymbolVersion (arena st) (symVector st))
    as (a & -> & Hkeep).
  - intros s. split; [apply parseSymbolVersion_versionId|apply parseSymbolVersion_verdefIndex].
  - intros sym Hsym. apply list_elem_of_lookup in Hsym as [i Hi].
    by eapply (proj2 (proj1 Hvalid)).
  - simpl. eexists. split; [done|].
    split; [apply valid_with_arena; [done|apply Hkeep]|done].
Qed.

Lemma handleDynamicList_total config st :
  valid st →
  ∃ st', handleDynamicList config st = Some st'
         ∧ keeps_versions (arena st) (arena st').
Proof.
  intros Hvalid. unfold handleDynamicList.
  destruct (foldM_total
              (λ st' : SymbolTable, valid st' ∧ keeps_versions (arena st) (arena st'))
              (λ st ver,
                 '(syms, st) ← (if hasWildcard ver then findAllByVersion ver true st
                                else findByVersion ver st);
                 a ← foldM (λ a sym, s ← a !! sym;
                                     Some (<[sym := set_inDynamicList true s]> a))
                           (arena st) syms;
                 Some (with_arena a st))
              (dynamicList config) st) as (st' & Hrun & _ & Hkeep);
    [split; [done|apply keeps_versions_refl]| |by eauto].
  intros st1 ver _ [Hv1 Hk1].
  assert (Hfind : ∃ syms st2,
            (if hasWildcard ver then findAllByVersion ver true st1
             else findByVersion ver st1) = Some (syms, st2)
            ∧ (∀ sym, sym ∈ syms → (sym < length (arena st1))%nat)
            ∧ evolves st1 st2 ∧ arena st2 = arena st1).
  { destruct (hasWildcard ver).
    - destruct (findAllByVersion_total ver true st1 Hv1) as (syms & st2 & Hf & Hs).
      exists syms, st2. split; [done|]. split; [done|].
      by eapply findAllByVersion_evolves.
    - destruct (findByVersion_total ver st1 Hv1) as (syms & st2 & Hf & Hs).
      exists syms, st2. split; [done|]. split; [done|].
      by eapply findByVersion_evolves. }
  destruct Hfind as (syms & st2 & -> & Hsyms & Hev & Harena). simpl.
  destruct (rewrite_loop (set_inDynamicList true) (arena st2) syms)
    as (a & -> & Hkeep).
  - done.
  - rewrite Harena. done.
  - simpl. eexists. split; [done|]. split.
    + apply valid_with_arena; [by eapply evolves_valid|apply Hkeep].
    + simpl. eapply keeps_versions_trans; [exact Hk1|]. by rewrite <- Harena.
Qed.
End totality_of_passes.

(** ** Version assignment: precedence *)


Lemma find_misses {A : Type} (f : A → bool) l :
  (∀ x, x ∈ l → f x = false) → List.find f l = None.
Proof.
  induction l as [|a l IH]; intros Hl; simpl; [done|].
  rewrite (Hl a) by (by left). apply IH. intros; apply Hl. by right.
Qed.


Lemma flat_map_app' {A B : Type} (f : A → list B) l1 l2 :
  flat_map f (l1 ++ l2) = flat_map f l1 ++ flat_map f l2.
Proof. induction l1 as [|a l1 IH]; simpl; [done|]. by rewrite IH, app_assoc. Qed.

(** A boolean check of [valid], for tables that are written out. *)
Definition validb (st : SymbolTable) : bool :=
  forallb (λ ki : string * nat, Nat.ltb ki.2 (length (symVector st)))
          (map_to_list (symMap st))
  && forallb (λ p, Nat.ltb p (length (arena st))) (symVector st)
  && match demangledSyms st with
     | None => true
     | Some m =>
         forallb (λ kl : string * list nat,
                    forallb (λ p, Nat.ltb p (length (arena st))) kl.2)
                 (map_to_list m)
     end.

Lemma validb_valid st : validb st = true → valid st.
Proof.
  unfold validb. intros Hb. apply andb_true_iff in Hb as [Hb Hcache].
  apply andb_true_iff in Hb as [Hidx Hptr].
  rewrite forallb_forall in Hidx, Hptr.
  split; [split|].
  - intros k i Hk. apply Nat.ltb_lt.
    apply (Hidx (k, i)). apply list_elem_of_In. by apply elem_of_map_to_list.
  - intros i p Hp. apply Nat.ltb_lt. apply Hptr.
    apply list_elem_of_In. by eapply list_elem_of_lookup_2.
  - intros m k l sym Hm Hk Hsym. rewrite Hm in Hcache.
    rewrite forallb_forall in Hcache.
    pose proof (Hcache (k, l)) as Hl. simpl in Hl.
    rewrite forallb_forall in Hl. apply Nat.ltb_lt. apply Hl.
    + apply list_elem_of_In. by apply elem_of_map_to_list.
    + by apply list_elem_of_In.
Qed.

Section precedence.
Context `{Collaborators} `{SymbolParser}.

Lemma scan_inv_start config st ds : scan_inv config st ds [] (st, ds).
Proof.
  split; [apply resolved_nil|]. exists []. by rewrite app_nil_r.
Qed.

(** The three loops go through, and the table after each is what the
    rules run so far make of the first table. *)
Lemma passes_resolve config st ds :
  valid st →
  ∃ w1 w2 w3,
    exactPass config (st, ds) = Some w1
    ∧ wildcardPass config w1 = Some w2
    ∧ starPass config w2 = Some w3
    ∧ valid w3.1
    ∧ scan_inv config st ds (exact_pass_rules config) w1
    ∧ scan_inv config st ds (exact_pass_rules config ++ wildcard_pass_rules config) w2
    ∧ scan_inv config st ds (script_rules config) w3
    ∧ evolves w1.1 w2.1 ∧ evolves w2.1 w3.1
    ∧ grows w1 w3
    ∧ (∀ v pat ver, v ∈ versionDefinitions config → declared_in_block v pat ver →
         exact_miss st v pat → undefinedVersion config = false →
         errorOrWarn_not_defined ver (ver_name pat) ∈ w1.2).
Proof.
  intros Hvalid.
  destruct (exactPass_total config (st, ds) Hvalid) as (w1 & H1 & Hv1).
  destruct (wildcardPass_total config w1 Hv1) as (w2 & H2 & Hv2).
  destruct (starPass_total config w2 Hv2) as (w3 & H3 & Hv3).
  exists w1, w2, w3. do 4 (split; [done|]).
  destruct (exact_blocks_inv config st ds _ [] _ _ (λ v Hv, Hv)
              (scan_inv_start config st ds) H1) as (Hi1 & _ & Hmiss).
  destruct (wildcard_blocks_inv config st ds _ _ _ _ _ Hi1 H2) as [Hi2 _].
  destruct (wildcard_blocks_inv config st ds _ _ _ _ _ Hi2 H3) as [Hi3 _].
  destruct (wildcard_blocks_inv config w1.1 w1.2 _ _ [] _ _
              (scan_inv_start config w1.1 w1.2) ltac:(by destruct w1)) as [Hj2 Hg2].
  destruct (wildcard_blocks_inv config w2.1 w2.2 _ _ [] _ _
              (scan_inv_start config w2.1 w2.2) ltac:(by destruct w2)) as [Hj3 Hg3].
  split; [done|]. split; [done|].
  split; [unfold script_rules; by rewrite app_assoc|].
  split; [apply Hj2|]. split; [apply Hj3|].
  split.
  - destruct w1, w2. eapply grows_trans; [exact Hg2|exact Hg3].
  - intros v pat ver Hv. by apply Hmiss.
Qed.

(** [scanVersionScript] goes through, keeps after its three loops the
    version ids they assigned, and adds no diagnostic after them. *)
Lemma scanVersionScript_total config st ds w1 w2 w3 :
  exactPass config (st, ds) = Some w1 →
  wildcardPass config w1 = Some w2 →
  starPass config w2 = Some w3 →
  valid w3.1 →
  ∃ st', scanVersionScript config (st, ds) = Some (st', w3.2)
         ∧ keeps_versions (arena w3.1) (arena st').
Proof.
  intros H1 H2 H3 Hv3. unfold scanVersionScript.
  rewrite H1. simpl. rewrite H2. simpl. rewrite H3. simpl.
  destruct (parseSymbolVersions_total w3.1 Hv3) as (st4 & -> & Hv4 & Hk4). simpl.
  destruct (handleDynamicList_total config st4 Hv4) as (st5 & -> & Hk5). simpl.
  eexists. split; [done|]. by eapply keeps_versions_trans.
Qed.
End precedence.

Lemma elem_of_flat_map {A B : Type} (f : A → list B) (l : list A) (y : B) :
  y ∈ flat_map f l ↔ ∃ x, x ∈ l ∧ y ∈ f x.
Proof.
  rewrite list_elem_of_In, in_flat_map. split; intros (x & Hx & Hy); exists x.
  - by rewrite !list_elem_of_In.
  - by rewrite <- !list_elem_of_In.
Qed.



(** The version ids [scanVersionScript] leaves in the symbols of a table. *)
Definition versions_after (config : Configuration) (st : SymbolTable)
    : option (list (string * Z)) :=
  w ← @scanVersionScript example_collaborators example_parser config (st, []);
  Some ((λ s, (getName s, versionId s)) <$> arena w.1).

(** [V1 { foo }] and [V2 { * }], in both orders: [foo] is of [V1]. *)
Example exact_beats_star :
  versions_after
    (script [("V1", [exact_pattern "foo"]); ("V2", [wildcard_pattern "*"])] false)
    two_symbol_table = Some [("foo", 2); ("abc", 3)]
  ∧ versions_after
      (script [("V2", [wildcard_pattern "*"]); ("V1", [exact_pattern "foo"])] false)
      two_symbol_table = Some [("foo", 3); ("abc", 2)].
Proof. split; vm_compute; reflexivity. Qed.

(** [V1 { a* }] then [V2 { a* }]: [abc] is of [V2], the block defined last;
    and a [*] of a later block does not take it from [V1]. *)
Example later_wildcard_wins :
  versions_after
    (script [("V1", [wildcard_pattern "a*"]); ("V2", [wildcard_pattern "a*"])] true)
    two_symbol_table = Some [("foo", 1); ("abc", 3)]
  ∧ versions_after
      (script [("V1", [wildcard_pattern "a*"]); ("V2", [wildcard_pattern "*"])] true)
      two_symbol_table = Some [("foo", 3); ("abc", 2)].
Proof. split; vm_compute; reflexivity. Qed.

(** C8, as the code has it. [scanVersionScript] goes through and adds
    warnings and errors of misses only; when misses are not allowed it
    reports every pattern without a wildcard that names no symbol that can be
    versioned, neither as it is nor with the version of its block; when they
    are allowed it adds warnings only; and no error is ever reported for a
    pattern with a wildcard. *)
Theorem version_script_misses `{Collaborators} `{SymbolParser}
    (config : Configuration) (st : SymbolTable) (ds : list Diagnostic) :
  valid st →
  ∃ st' extra,
    scanVersionScript config (st, ds) = Some (st', ds ++ extra)
    ∧ (∀ v pat ver,
         v ∈ versionDefinitions config → declared_in_block v pat ver →
         exact_miss st v pat → undefinedVersion config = false →
         errorOrWarn_not_defined ver (ver_name pat) ∈ ds ++ extra)
    ∧ (∀ d, d ∈ extra →
         is_warning d
         ∨ (undefinedVersion config = false
            ∧ ∃ v pat ver,
                v ∈ versionDefinitions config ∧ hasWildcard pat = false
                ∧ (pat ∈ nonLocalPatterns v ∧ ver = vd_name v
                   ∨ pat ∈ localPatterns v ∧ ver = "local")
                ∧ exact_miss st v pat
                ∧ d = errorOrWarn_not_defined ver (ver_name pat)))
    ∧ (undefinedVersion config = true → Forall is_warning extra).
Proof.
  intros Hvalid.
  destruct (passes_resolve config st ds Hvalid)
    as (w1 & w2 & w3 & H1 & H2 & H3 & Hv3 & _ & _ & Hi3 & _ & _ & Hg & Hmiss).
  destruct (scanVersionScript_total config st ds w1 w2 w3 H1 H2 H3 Hv3)
    as (st' & Hscan & _).
  destruct Hi3 as [_ (extra & Hds & Hextra)].
  exists st', extra. rewrite <- Hds. split; [done|].
  rewrite Forall_forall in Hextra.
  split; [|split].
  - intros v pat ver Hv Hdecl Hm Hundef. apply Hg. by eapply Hmiss.
  - intros d Hd. destruct (Hextra d Hd) as [Hw|(Hundef & v & pat & ver & Hv & [Hwild Hin] & Hm & ->)].
    + by left.
    + right. split; [done|]. exists v, pat, ver. done.
  - intros Hundef. apply Forall_forall. intros d Hd.
    destruct (Hextra d Hd) as [Hw|(Hundef' & _)]; [done|congruence].
Qed.

Lemma version_script_misses_witness :
  valid two_symbol_table
  ∧ ∃ st' extra,
      @scanVersionScript example_collaborators example_parser
        (script [("V1", [exact_pattern "zz"])] false) (two_symbol_table, [])
      = Some (st', [] ++ extra)
      ∧ errorOrWarn_not_defined "V1" "zz" ∈ [] ++ extra.
Proof.
  split; [by apply validb_valid|].
  destruct (@version_script_misses example_collaborators example_parser
              (script [("V1", [exact_pattern "zz"])] false)
              two_symbol_table [] (validb_valid two_symbol_table eq_refl))
    as (st' & extra & Hscan & Hmiss & _).
  exists st', extra. split; [done|].
  apply (Hmiss (mkVersionDefinition "V1" 2 [exact_pattern "zz"] []) (exact_pattern "zz") "V1").
  - do 2 right. by left.
  - split; [done|]. left. split; [by left|done].
  - split; reflexivity.
  - reflexivity.
Defined.

(** C8 as stated fails for a wildcard: the pattern [zz*] of [V1] matches no
    symbol, with or without the version of its block, misses are not allowed,
    and [scanVersionScript] reports nothing. *)
Lemma wildcard_miss_counterexample :
  undefinedVersion (script [("V1", [wildcard_pattern "zz*"])] false) = false
  ∧ @matchesAll example_collaborators (wildcard_pattern "zz*") false two_symbol_table
    = Some []
  ∧ @matchesAll example_collaborators
      (versioned_pattern (wildcard_pattern "zz*") "V1" true) true two_symbol_table
    = Some []
  ∧ ∃ st', @scanVersionScript example_collaborators example_parser
             (script [("V1", [wildcard_pattern "zz*"])] false)
             (two_symbol_table, []) = Some (st', []).
Proof.
  split; [reflexivity|]. split; [reflexivity|]. split; [reflexivity|].
  eexists. vm_compute. reflexivity.
Qed.

(** ** Call-graph sorting: the construction of the graph *)

(** The edges the constructor keeps: those inside one output section. *)
Definition kept `{SectionInfo} (c : (nat * nat) * Z) : bool :=
  bool_decide (getOutputSection (repl c.1.1) = getOutputSection (repl c.1.2)).

(** The weight of the kept edges into the section [s], summed in
    [uint64_t], in the order of the profile. *)
Definition inWeight `{SectionInfo} (profile : list ((nat * nat) * Z)) (s : nat) : Z :=
  foldl (λ acc c, if kept c && bool_decide (repl c.1.2 = s) then u64 (acc + c.2) else acc)
        0 profile.

(** The best predecessor of the section [s]: of the kept edges into [s] from
    another section, the first of the greatest weight. *)
Definition bestIn `{SectionInfo} (profile : list ((nat * nat) * Z)) (s : nat)
    : option (nat * Z) :=
  foldl (λ acc c,
           if kept c && bool_decide (repl c.1.2 = s) && bool_decide (repl c.1.1 ≠ s)
           then match acc with
                | None => Some (repl c.1.1, c.2)
                | Some (f0, w0) => if w0 <? c.2 then Some (repl c.1.1, c.2) else acc
                end
           else acc)
        None profile.

(** The edge [bestPred] holds for a best predecessor: its cluster and its
    weight, or [{-1, 0}] for none. *)
Definition best_encoded (g : CallGraphSort) (e : Edge.t) (o : option (nat * Z)) : Prop :=
  match o with
  | None => e = Edge.mk (-1) 0
  | Some (f, w) => ∃ i, secToCluster g !! f = Some i ∧ e = Edge.mk (Z.of_nat i) w
  end.

(** The state of the constructor after the edges [prefix]. *)
Definition built `{SectionInfo} (g : CallGraphSort) (prefix : list ((nat * nat) * Z))
    : Prop :=
  length (sections g) = length (clusters g)
  ∧ (∀ s i, secToCluster g !! s = Some i ↔ sections g !! i = Some s)
  ∧ (∀ s, secToCluster g !! s = None →
          inWeight prefix s = 0 ∧ bestIn prefix s = None)
  ∧ (∀ i s, sections g !! i = Some s →
            ∃ c, clusters g !! i = Some c
                 ∧ next c = i ∧ prev c = i ∧ size c = getSize s
                 ∧ initialWeight c = 0
                 ∧ weight c = inWeight prefix s
                 ∧ best_encoded g (bestPred c) (bestIn prefix s)).

Lemma foldM_snoc {A B : Type} (f : A → B → option A) a l b :
  foldM f a (l ++ [b]) = (a' ← foldM f a l; f a' b).
Proof.
  rewrite foldM_app. destruct (foldM f a l) as [a'|]; simpl; [|done].
  by destruct (f a' b).
Qed.

Section construction.
Context `{SectionInfo}.

Lemma inWeight_snoc prefix c s :
  inWeight (prefix ++ [c]) s
  = if kept c && bool_decide (repl c.1.2 = s)
    then u64 (inWeight prefix s + c.2) else inWeight prefix s.
Proof. unfold inWeight. by rewrite foldl_app. Qed.

Lemma bestIn_snoc prefix c s :
  bestIn (prefix ++ [c]) s
  = if kept c && bool_decide (repl c.1.2 = s) && bool_decide (repl c.1.1 ≠ s)
    then match bestIn prefix s with
         | None => Some (repl c.1.1, c.2)
         | Some (f0, w0) => if w0 <? c.2 then Some (repl c.1.1, c.2) else bestIn prefix s
         end
    else bestIn prefix s.
Proof.
  unfold bestIn. rewrite foldl_app. simpl.
  destruct (_ && _ && _); [|done]. by destruct (foldl _ _ _) as [[f0 w0]|].
Qed.

Lemma built_empty : built (mkCallGraphSort [] [] ∅) [].
Proof.
  split; [done|]. split; [|split].
  - intros s i. simpl. rewrite lookup_empty. split; [done|].
    intros Hi. by rewrite lookup_nil in Hi.
  - done.
  - intros i s Hi. simpl in Hi. by rewrite lookup_nil in Hi.
Qed.

Lemma best_encoded_mono g g' e o :
  (∀ s i, secToCluster g !! s = Some i → secToCluster g' !! s = Some i) →
  best_encoded g e o → best_encoded g' e o.
Proof.
  intros Hmono. destruct o as [[f w]|]; simpl; [|done].
  intros (i & Hi & ->). exists i. split; [by apply Hmono|done].
Qed.

Lemma getOrCreateNode_built isec g prefix i g' :
  built g prefix →
  getOrCreateNode isec g = (i, g') →
  built g' prefix
  ∧ secToCluster g' !! isec = Some i
  ∧ (∀ s j, secToCluster g !! s = Some j → secToCluster g' !! s = Some j).
Proof.
  intros (Hlen & Hbij & Hnew & Hcl) Hnode. unfold getOrCreateNode in Hnode.
  destruct (secToCluster g !! isec) as [j|] eqn:Hj; simplify_eq/=.
  { split; [|by split]. split; [done|]. split; [done|]. by split. }
  assert (Hmono : ∀ s j, secToCluster g !! s = Some j →
            <[isec := length (clusters g)]> (secToCluster g) !! s = Some j).
  { intros s j Hs. rewrite lookup_insert_ne; [done|]. congruence. }
  split; [|split; [by simpl; rewrite lookup_insert_eq|done]].
  unfold built. simpl.
  split; [by rewrite !length_app, Hlen|]. split; [|split].
  - intros s i. destruct (decide (isec = s)) as [->|Hne].
    + rewrite lookup_insert_eq. split.
      * intros [= <-]. by rewrite <- Hlen, lookup_app_r, Nat.sub_diag by lia.
      * intros Hi. apply lookup_app_Some in Hi as [Hi|[Hge Hi]].
        -- apply Hbij in Hi. congruence.
        -- destruct (i - length (sections g))%nat eqn:Hd; simplify_eq/=.
           f_equal. lia.
    + rewrite lookup_insert_ne by done. rewrite Hbij. split.
      * intros Hi. by apply lookup_app_l_Some.
      * intros Hi. apply lookup_app_Some in Hi as [Hi|[Hge Hi]]; [done|].
        destruct (i - length (sections g))%nat; simplify_eq/=.
  - intros s Hs. apply Hnew. destruct (decide (isec = s)) as [->|Hne].
    + by rewrite lookup_insert_eq in Hs.
    + by rewrite lookup_insert_ne in Hs.
  - intros i s Hi. apply lookup_app_Some in Hi as [Hi|[Hge Hi]].
    + destruct (Hcl _ _ Hi) as (c & Hc & ? & ? & ? & ? & ? & Hbest).
      exists c. split; [by apply lookup_app_l_Some|]. do 5 (split; [done|]).
      eapply best_encoded_mono; [|exact Hbest]. done.
    + destruct (i - length (sections g))%nat eqn:Hd; simplify_eq/=.
      assert (i = length (clusters g)) as -> by lia.
      exists (newCluster (length (clusters g)) (getSize s)).
      rewrite lookup_app_r, Nat.sub_diag by lia.
      split; [done|]. do 4 (split; [done|]).
      destruct (Hnew _ Hj) as [-> ->]. done.
Qed.

(** One edge of the profile: [addEdge] goes through and the state it leaves
    is the state after one edge more. *)
Lemma addEdge_built g prefix c :
  built g prefix → ∃ g', addEdge g c = Some g' ∧ built g' (prefix ++ [c]).
Proof.
  intros Hb. unfold addEdge.
  destruct (bool_decide (getOutputSection (repl c.1.1) ≠ getOutputSection (repl c.1.2)))
    eqn:Hdrop.
  { exists g. split; [done|]. apply bool_decide_eq_true in Hdrop.
    assert (Hk : kept c = false) by (unfold kept; by apply bool_decide_eq_false).
    destruct Hb as (Hlen & Hbij & Hnew & Hcl). split; [done|]. split; [done|].
    split.
    - intros s Hs. rewrite inWeight_snoc, bestIn_snoc, Hk. by apply Hnew.
    - intros i s Hi. destruct (Hcl _ _ Hi) as (c0 & ? & ? & ? & ? & ? & ? & ?).
      exists c0. rewrite inWeight_snoc, bestIn_snoc, Hk. done. }
  apply bool_decide_eq_false in Hdrop.
  assert (Hk : kept c = true).
  { unfold kept. apply bool_decide_eq_true.
    by destruct (decide (getOutputSection (repl c.1.1)
                         = getOutputSection (repl c.1.2))). }
  destruct (getOrCreateNode (repl c.1.1) g) as [from g1] eqn:H1.
  destruct (getOrCreateNode_built _ _ _ _ _ Hb H1) as (Hb1 & Hfrom & Hmono1).
  destruct (getOrCreateNode (repl c.1.2) g1) as [to g2] eqn:H2.
  destruct (getOrCreateNode_built _ _ _ _ _ Hb1 H2) as (Hb2 & Hto & Hmono2).
  apply Hmono2 in Hfrom as Hfrom2.
  destruct Hb2 as (Hlen & Hbij & Hnew & Hcl).
  pose proof (proj1 (Hbij _ _) Hto) as Hsto.
  destruct (Hcl _ _ Hsto) as (toC & HtoC & Hnx & Hpv & Hsz & Hiw & Hw & Hbest).
  rewrite HtoC. simpl.
  assert (Hlt : (to < length (clusters g2))%nat) by (by eapply lookup_lt_Some).
  assert (Hsame : bool_decide (from = to) = bool_decide (repl c.1.1 = repl c.1.2)).
  { apply bool_decide_ext. split; [|by intros Heq; rewrite Heq in Hfrom2; congruence].
    intros ->. apply Hbij in Hfrom2. congruence. }
  set (toC1 := set_weight (u64 (weight toC + c.2)) toC).
  set (toC2 := if bool_decide (from = to) then toC1
               else if (Edge.from (bestPred toC1) =? -1)
                       || (Edge.weight (bestPred toC1) <? c.2)
                    then set_bestPred (Edge.mk (Z.of_nat from) c.2) toC1 else toC1).
  exists (mkCallGraphSort (<[to := toC2]> (clusters g2)) (sections g2) (secToCluster g2)).
  split.
  { unfold toC2. destruct (bool_decide (from = to)); [done|].
    rewrite list_lookup_insert_eq by done. simpl.
    destruct (_ || _); [|done]. by rewrite list_insert_insert_eq. }
  unfold built. simpl.
  split; [by rewrite length_insert|]. split; [done|]. split.
  - intros s Hs. rewrite inWeight_snoc, bestIn_snoc.
    rewrite (bool_decide_eq_false_2 (repl c.1.2 = s)) by congruence.
    rewrite !andb_false_r. by apply Hnew.
  - intros i s Hi. destruct (decide (i = to)) as [->|Hne].
    + assert (s = repl c.1.2) as -> by congruence.
      exists toC2. rewrite list_lookup_insert_eq by done. split; [done|].
      rewrite inWeight_snoc, bestIn_snoc, Hk, bool_decide_eq_true_2 by done. simpl.
      assert (Hfields : next toC2 = next toC ∧ prev toC2 = prev toC
                        ∧ size toC2 = size toC ∧ initialWeight toC2 = initialWeight toC
                        ∧ weight toC2 = u64 (weight toC + c.2)).
      { unfold toC2. destruct (bool_decide _); [done|]. by destruct (_ || _). }
      destruct Hfields as (-> & -> & -> & -> & ->). do 4 (split; [done|]).
      split; [by rewrite Hw|].
      unfold toC2. rewrite Hsame.
      destruct (decide (repl c.1.1 = repl c.1.2)) as [Heq|Hneq].
      * rewrite bool_decide_eq_true_2, bool_decide_eq_false_2 by (done || by intros ?).
        done.
      * rewrite bool_decide_eq_false_2, bool_decide_eq_true_2 by done. simpl.
        destruct (bestIn prefix (repl c.1.2)) as [[f0 w0]|] eqn:Hbi; simpl in Hbest.
        -- destruct Hbest as (i0 & Hi0 & Hbp). simpl. rewrite Hbp. simpl.
           replace (Z.of_nat i0 =? -1) with false by (symmetry; apply Z.eqb_neq; lia).
           simpl. destruct (w0 <? c.2); simpl.
           ++ exists from. by split.
           ++ exists i0. by split.
        -- simpl. rewrite Hbest. simpl. exists from. by split.
    + destruct (Hcl _ _ Hi) as (c0 & Hc0 & ? & ? & ? & ? & Hw0 & Hb0).
      exists c0. rewrite list_lookup_insert_ne by done. split; [done|].
      do 4 (split; [done|]).
      assert (Hs : repl c.1.2 ≠ s).
      { intros <-. apply Hbij in Hi. congruence. }
      rewrite inWeight_snoc, bestIn_snoc.
      rewrite (bool_decide_eq_false_2 (repl c.1.2 = s)) by done.
      by rewrite !andb_false_r.
Qed.

Lemma construction_built profile :
  ∃ g, foldM addEdge (mkCallGraphSort [] [] ∅) profile = Some g ∧ built g profile.
Proof.
  induction profile as [|c profile IH] using rev_ind.
  - exists (mkCallGraphSort [] [] ∅). split; [done|apply built_empty].
  - destruct IH as (g & Hg & Hb). rewrite foldM_snoc, Hg. simpl.
    by apply addEdge_built.
Qed.
End construction.


(** The clusters of a fresh graph: every cluster is a cycle of its own, of
    the size of its section, and its best predecessor is a cluster. *)
Lemma construction_fresh `{SectionInfo} profile g :
  newCallGraphSort profile = Some g →
  length (sections g) = length (clusters g)
  ∧ NoDup (sections g)
  ∧ ∀ i c, clusters g !! i = Some c →
           next c = i ∧ prev c = i
           ∧ (∃ s, sections g !! i = Some s ∧ size c = getSize s)
           ∧ (Edge.from (bestPred c) = -1
              ∨ 0 ≤ Edge.from (bestPred c) < Z.of_nat (length (clusters g))).
Proof.
  unfold newCallGraphSort. intros Hnew.
  destruct (construction_built profile) as (g0 & Hg & Hlen & Hbij & _ & Hcl).
  rewrite Hg in Hnew. simplify_eq/=. rewrite length_fmap.
  split; [done|]. split.
  - apply NoDup_alt. intros i j s Hi Hj. apply Hbij in Hi, Hj. congruence.
  - intros i c Hc. rewrite list_lookup_fmap in Hc.
    destruct (clusters g0 !! i) as [c0|] eqn:Hc0; simplify_eq/=.
    assert (Hlt : (i < length (sections g0))%nat)
      by (rewrite Hlen; by eapply lookup_lt_Some).
    destruct (lookup_lt_is_Some_2 _ _ Hlt) as [s Hs].
    destruct (Hcl _ _ Hs) as (c1 & Hc1 & Hn & Hp & Hsz & _ & _ & Hbest).
    simplify_eq. do 2 (split; [done|]). split; [eauto|].
    destruct (bestIn profile s) as [[f w]|]; simpl in Hbest.
    + destruct Hbest as (j & Hj & ->). right. simpl.
      apply Hbij in Hj. apply lookup_lt_Some in Hj. lia.
    + rewrite Hbest. by left.
Qed.

(** ** Call-graph sorting: [mergeClusters] *)

Lemma alter_lookup {A : Type} (f : A → A) (i : nat) (l : list A) (x : nat) :
  alter f i l !! x = (λ c, if decide (i = x) then f c else c) <$> l !! x.
Proof.
  destruct (decide (i = x)) as [->|Hne].
  - rewrite list_lookup_alter_eq. by destruct (l !! x).
  - rewrite list_lookup_alter_ne by done. by destruct (l !! x).
Qed.

(** The fields of every cluster after [mergeClusters]. *)
Lemma mergeClusters_spec cs into from ci cf :
  into ≠ from →
  cs !! into = Some ci →
  cs !! from = Some cf →
  (prev ci < length cs)%nat →
  (prev cf < length cs)%nat →
  ∃ cs',
    mergeClusters cs into from = Some cs'
    ∧ length cs' = length cs
    ∧ ∀ x c, cs !! x = Some c →
        ∃ c', cs' !! x = Some c'
          ∧ next c' = (if decide (x = prev ci) then from
                       else if decide (x = prev cf) then into else next c)
          ∧ prev c' = (if decide (x = from) then prev ci
                       else if decide (x = into) then prev cf else prev c)
          ∧ size c' = (if decide (x = from) then 0
                       else if decide (x = into) then u64 (size ci + size cf)
                       else size c)
          ∧ weight c' = (if decide (x = from) then 0
                         else if decide (x = into) then u64 (weight ci + weight cf)
                         else weight c)
          ∧ initialWeight c' = initialWeight c
          ∧ bestPred c' = bestPred c.
Proof.
  intros Hne Hci Hcf Ht1 Ht2. unfold mergeClusters. rewrite Hci, Hcf. simpl.
  destruct (lookup_lt_is_Some_2 cs (prev cf) Ht2) as [c2 Hc2].
  destruct (lookup_lt_is_Some_2 cs (prev ci) Ht1) as [c1 Hc1].
  eexists. split.
  { do 4 (rewrite ?alter_lookup, ?Hc2, ?Hc1, ?Hcf;
          cbn [fmap option_fmap option_map mbind option_bind]).
    reflexivity. }
  split; [by rewrite !length_alter|].
  intros x c Hx. rewrite !alter_lookup, Hx.
  cbn [fmap option_fmap option_map mbind option_bind]. eexists. split; [done|].
  repeat case_decide; simplify_eq; simpl; done.
Qed.


(** ** Call-graph sorting: the cycles of the clusters *)

(** The [next] links lead through the list [l] and from its last element to
    [r]. *)
Definition linked (cs : list Cluster) (l : list nat) (r : nat) : Prop :=
  ∀ i a, l !! i = Some a → next <$> cs !! a = Some (default r (l !! S i)).

(** The sizes in the cycle of a cluster that was not merged away, for
    sections that are not empty: the size of the cluster is positive and the
    other elements are clusters of size 0. *)
Definition sized_cycle (cs : list Cluster) (l : list nat) (c : Cluster) : Prop :=
  0 < size c < 2 ^ 63
  ∧ ∀ i x, l !! S i = Some x → ∃ cx, cs !! x = Some cx ∧ size cx = 0.

(** The list [l] is the cycle of a cluster that was not merged away: it
    starts at the cluster, whose [prev] is the last element; with [sized],
    the sizes are those of [sized_cycle]. *)
Definition is_cycle (sized : bool) (cs : list Cluster) (l : list nat) : Prop :=
  ∃ r c,
    l !! 0%nat = Some r
    ∧ cs !! r = Some c
    ∧ l !! (length l - 1)%nat = Some (prev c)
    ∧ linked cs l r
    ∧ (sized = true → sized_cycle cs l c).

(** The cycles [G] are the cycles of the clusters [cs]: every cluster is in
    one of them, once. *)
Definition partitioned (sized : bool) (cs : list Cluster) (G : list (list nat))
    : Prop :=
  concat G ≡ₚ seq 0 (length cs) ∧ Forall (is_cycle sized cs) G.

Definition head_of (G : list (list nat)) (v : nat) : Prop :=
  ∃ l, l ∈ G ∧ l !! 0%nat = Some v.

Lemma elem_of_concat {A : Type} (G : list (list A)) (x : A) :
  x ∈ concat G ↔ ∃ l, l ∈ G ∧ x ∈ l.
Proof.
  rewrite list_elem_of_In, in_concat. split; intros (l & Hl & Hx); exists l.
  - by rewrite !list_elem_of_In.
  - by rewrite <- !list_elem_of_In.
Qed.

Lemma concat_Permutation {A : Type} (G G' : list (list A)) :
  G ≡ₚ G' → concat G ≡ₚ concat G'.
Proof.
  induction 1 as [|l G G' _ IH|l1 l2 G|G1 G2 G3 _ IH1 _ IH2]; simpl.
  - done.
  - by rewrite IH.
  - by rewrite !app_assoc, (Permutation_app_comm l1 l2).
  - by rewrite IH1.
Qed.

Lemma linked_lookup cs l r i a :
  linked cs l r → l !! i = Some a → ∃ c, cs !! a = Some c.
Proof.
  intros Hl Hi. specialize (Hl _ _ Hi). destruct (cs !! a); [eauto|done].
Qed.

(** Clusters that keep their links and sizes keep their cycles. *)
Lemma is_cycle_frame sized cs cs' l :
  is_cycle sized cs l →
  (∀ x c, x ∈ l → cs !! x = Some c →
     ∃ c', cs' !! x = Some c' ∧ next c' = next c ∧ prev c' = prev c
           ∧ size c' = size c) →
  is_cycle sized cs' l.
Proof.
  intros (r & c & Hr & Hc & Hlast & Hlink & Hsized) Hframe.
  destruct (Hframe r c) as (c' & Hc' & Hn & Hp & Hs);
    [by eapply list_elem_of_lookup_2|done|].
  exists r, c'. split; [done|]. split; [done|]. split; [by rewrite Hp|].
  split.
  - intros i a Hi. pose proof (Hlink _ _ Hi) as Hnext.
    destruct (cs !! a) as [ca|] eqn:Hca; simplify_eq/=.
    assert (Hin : a ∈ l) by (by eapply list_elem_of_lookup_2).
    destruct (Hframe a ca Hin Hca) as (ca' & Hca' & Hn' & _).
    rewrite Hca'. simpl. by rewrite Hn', Hnext.
  - intros Hsd. destruct (Hsized Hsd) as [Hsz Hzero]. split; [by rewrite Hs|].
    intros i x Hx. destruct (Hzero _ _ Hx) as (cx & Hcx & Hsx).
    assert (Hin : x ∈ l) by (by eapply list_elem_of_lookup_2).
    destruct (Hframe x cx Hin Hcx) as (cx' & Hcx' & _ & _ & Hs').
    exists cx'. split; [done|congruence].
Qed.

(** [mergeClusters] makes of the cycles of [into] and of [from] the cycle of
    [into], the second after the first, and keeps the others. *)
Lemma mergeClusters_cycles sized cs L1 L2 rest into from ci cf :
  partitioned sized cs (L1 :: L2 :: rest) →
  L1 !! 0%nat = Some into →
  L2 !! 0%nat = Some from →
  cs !! into = Some ci →
  cs !! from = Some cf →
  (sized = true → 0 < u64 (size ci + size cf) < 2 ^ 63) →
  ∃ cs',
    mergeClusters cs into from = Some cs'
    ∧ length cs' = length cs
    ∧ partitioned sized cs' ((L1 ++ L2) :: rest)
    ∧ (∀ x c, cs !! x = Some c →
         ∃ c', cs' !! x = Some c' ∧ bestPred c' = bestPred c
               ∧ initialWeight c' = initialWeight c)
    ∧ (∃ c', cs' !! into = Some c' ∧ size c' = u64 (size ci + size cf)
             ∧ weight c' = u64 (weight ci + weight cf))
    ∧ (∃ c', cs' !! from = Some c' ∧ size c' = 0 ∧ weight c' = 0).
Proof.
  intros [Hperm Hcyc] Hinto Hfrom Hci Hcf Hsum.
  apply Forall_cons in Hcyc as [Hc1 Hcyc]. apply Forall_cons in Hcyc as [Hc2 Hrest].
  assert (Hnd : NoDup (L1 ++ L2 ++ concat rest)).
  { simpl in Hperm. rewrite Hperm. apply NoDup_seq. }
  assert (HndL : NoDup (L1 ++ L2)).
  { rewrite app_assoc in Hnd. by apply NoDup_app in Hnd as [? _]. }
  assert (Hother : ∀ x, x ∈ concat rest → x ∉ L1 ++ L2).
  { rewrite app_assoc in Hnd. apply NoDup_app in Hnd as (_ & Hdis & _).
    intros x Hx Hin. by eapply Hdis. }
  destruct Hc1 as (r1 & c1 & Hr1 & Hcr1 & Hlast1 & Hlink1 & Hsized1).
  destruct Hc2 as (r2 & c2 & Hr2 & Hcr2 & Hlast2 & Hlink2 & Hsized2).
  assert (r1 = into) as -> by congruence. assert (r2 = from) as -> by congruence.
  assert (c1 = ci) as -> by congruence. assert (c2 = cf) as -> by congruence.
  assert (Hlen1 : (0 < length L1)%nat) by (by eapply lookup_lt_Some).
  assert (Hlen2 : (0 < length L2)%nat) by (by eapply lookup_lt_Some).
  (* where the four clusters [mergeClusters] writes are in [L1 ++ L2] *)
  assert (Hp_into : (L1 ++ L2) !! 0%nat = Some into) by (by apply lookup_app_l_Some).
  assert (Hp_from : (L1 ++ L2) !! length L1 = Some from)
    by (by rewrite lookup_app_r, Nat.sub_diag by lia).
  assert (Hp_t1 : (L1 ++ L2) !! (length L1 - 1)%nat = Some (prev ci))
    by (by apply lookup_app_l_Some).
  assert (Hp_t2 : (L1 ++ L2) !! (length L1 + length L2 - 1)%nat = Some (prev cf)).
  { rewrite lookup_app_r by lia. rewrite <- Hlast2. f_equal. lia. }
  assert (Hne : into ≠ from).
  { intros ->. pose proof (NoDup_lookup _ _ _ _ HndL Hp_into Hp_from). lia. }
  destruct (linked_lookup _ _ _ _ _ Hlink1 Hlast1) as [ct1 Hct1].
  destruct (linked_lookup _ _ _ _ _ Hlink2 Hlast2) as [ct2 Hct2].
  destruct (mergeClusters_spec cs into from ci cf Hne Hci Hcf)
    as (cs' & Hmerge & Hlen & Hfields);
    [by eapply lookup_lt_Some..|].
  exists cs'. split; [done|]. split; [done|].
  split; [|split; [|split]].
  - split; [simpl; rewrite Hlen, <- Hperm; simpl; by rewrite app_assoc|].
    apply Forall_cons. split.
    + destruct (Hfields _ _ Hci) as (ci' & Hci' & _ & Hprev & Hsize & _).
      exists into, ci'. split; [done|]. split; [done|].
      rewrite decide_False, decide_True in Hprev by done.
      rewrite decide_False, decide_True in Hsize by done.
      split; [by rewrite length_app, Hprev|].
      split.
      * intros i a Hi.
        assert (Ha : ∃ ca, cs !! a = Some ca
                      ∧ next ca = default (if decide (i < length L1)%nat
                                           then into else from)
                                    (if decide (i < length L1)%nat
                                     then L1 !! S i else L2 !! S (i - length L1))).
        { destruct (decide (i < length L1)%nat) as [Hlt|Hge].
          - rewrite lookup_app_l in Hi by done. pose proof (Hlink1 _ _ Hi) as Hn.
            destruct (cs !! a) as [ca|]; simplify_eq/=. eauto.
          - rewrite lookup_app_r in Hi by lia. pose proof (Hlink2 _ _ Hi) as Hn.
            destruct (cs !! a) as [ca|]; simplify_eq/=. eauto. }
        destruct Ha as (ca & Hca & Hnext).
        destruct (Hfields _ _ Hca) as (ca' & -> & Hnext' & _). simpl. f_equal.
        rewrite Hnext'. clear Hnext'.
        destruct (decide (a = prev ci)) as [->|Hnt1].
        { pose proof (NoDup_lookup _ _ _ _ HndL Hi Hp_t1) as ->.
          replace (S (length L1 - 1)) with (length L1) by lia. by rewrite Hp_from. }
        destruct (decide (a = prev cf)) as [->|Hnt2].
        { pose proof (NoDup_lookup _ _ _ _ HndL Hi Hp_t2) as ->.
          rewrite (lookup_ge_None_2 (L1 ++ L2)); [done|]. rewrite length_app. lia. }
        rewrite Hnext. destruct (decide (i < length L1)%nat) as [Hlt|Hge].
        -- assert (S i < length L1)%nat.
           { destruct (decide (i = length L1 - 1)%nat) as [->|]; [|lia].
             rewrite Hp_t1 in Hi. congruence. }
           rewrite lookup_app_l by done.
           by destruct (lookup_lt_is_Some_2 L1 (S i) ltac:(done)) as [y ->].
        -- assert (i < length (L1 ++ L2))%nat by (by eapply lookup_lt_Some).
           rewrite length_app in *.
           assert (S i < length L1 + length L2)%nat.
           { destruct (decide (i = length L1 + length L2 - 1)%nat) as [->|]; [|lia].
             rewrite Hp_t2 in Hi. congruence. }
           rewrite (lookup_app_r _ _ (S i)) by lia.
           replace (S i - length L1)%nat with (S (i - length L1)) by lia.
           by destruct (lookup_lt_is_Some_2 L2 (S (i - length L1)) ltac:(lia)) as [y ->].
      * intros Hsd. destruct (Hsized1 Hsd) as [Hsz1 Hzero1].
        destruct (Hsized2 Hsd) as [Hsz2 Hzero2].
        split; [rewrite Hsize; by apply Hsum|].
        intros i x Hx.
        assert (Hxne : x ≠ into).
        { intros ->. pose proof (NoDup_lookup _ _ _ _ HndL Hx Hp_into). lia. }
        destruct (decide (x = from)) as [->|Hxf].
        { destruct (Hfields _ _ Hcf) as (cf' & Hcf' & _ & _ & Hs & _).
          rewrite decide_True in Hs by done. eauto. }
        assert (Hz : ∃ cx, cs !! x = Some cx ∧ size cx = 0).
        { destruct (decide (S i < length L1)%nat) as [Hlt|Hge].
          - rewrite lookup_app_l in Hx by done. by eapply Hzero1.
          - rewrite lookup_app_r in Hx by lia.
            destruct (S i - length L1)%nat as [|j] eqn:Hj.
            + rewrite Hfrom in Hx. congruence.
            + by eapply Hzero2. }
        destruct Hz as (cx & Hcx & Hsx).
        destruct (Hfields _ _ Hcx) as (cx' & Hcx' & _ & _ & Hs & _).
        rewrite !decide_False in Hs by done. exists cx'. split; [done|congruence].
    + apply Forall_forall. intros l Hl.
      rewrite Forall_forall in Hrest.
      apply (is_cycle_frame sized cs); [by apply Hrest|].
      intros x c Hx Hc.
      assert (Hnot : x ∉ L1 ++ L2).
      { apply Hother. apply elem_of_concat. eauto. }
      destruct (Hfields _ _ Hc) as (c' & Hc' & Hn & Hp & Hs & _).
      exists c'. split; [done|].
      assert (x ≠ into) by (intros ->; apply Hnot; by eapply list_elem_of_lookup_2).
      assert (x ≠ from) by (intros ->; apply Hnot; by eapply list_elem_of_lookup_2).
      assert (x ≠ prev ci) by (intros ->; apply Hnot; by eapply list_elem_of_lookup_2).
      assert (x ≠ prev cf) by (intros ->; apply Hnot; by eapply list_elem_of_lookup_2).
      rewrite !decide_False in Hn by done. rewrite !decide_False in Hp by done.
      rewrite !decide_False in Hs by done. done.
  - intros x c Hx. destruct (Hfields _ _ Hx) as (c' & ? & _ & _ & _ & _ & ? & ?). eauto.
  - destruct (Hfields _ _ Hci) as (c' & ? & _ & _ & Hs & Hw & _).
    rewrite decide_False, decide_True in Hs by done.
    rewrite decide_False, decide_True in Hw by done. eauto.
  - destruct (Hfields _ _ Hcf) as (c' & ? & _ & _ & Hs & Hw & _).
    rewrite decide_True in Hs by done. rewrite decide_True in Hw by done. eauto.
Qed.

(** ** Call-graph sorting: the leaders *)

(** The leaders are a forest: every entry is an index, and [h] decreases
    from an index to its leader. *)
Definition forest (n : nat) (leaders : list nat) (h : nat → nat) : Prop :=
  length leaders = n
  ∧ ∀ v, (v < n)%nat →
         ∃ p, leaders !! v = Some p ∧ (p < n)%nat ∧ (p ≠ v → (h p < h v)%nat).

(** With enough fuel [getLeader_loop] returns a root, halves the path to it
    and keeps the roots. *)
Lemma getLeader_loop_spec n h fuel leaders v :
  forest n leaders h → (v < n)%nat → (h v < fuel)%nat →
  ∃ leaders' r,
    getLeader_loop fuel leaders v = Some (leaders', r)
    ∧ forest n leaders' h
    ∧ (r < n)%nat
    ∧ leaders' !! r = Some r
    ∧ (∀ x, leaders' !! x = Some x ↔ leaders !! x = Some x).
Proof.
  revert leaders v. induction fuel as [|fuel IH]; intros leaders v Hf Hv Hfuel; [lia|].
  destruct Hf as [Hlen Hf]. simpl.
  destruct (Hf v Hv) as (lv & Hlv & Hlvn & Hhv). rewrite Hlv. simpl.
  destruct (decide (lv = v)) as [->|Hne].
  - rewrite bool_decide_eq_false_2 by (by intros ?).
    exists leaders, v. by repeat split.
  - rewrite bool_decide_eq_true_2 by done.
    destruct (Hf lv Hlvn) as (llv & Hllv & Hllvn & Hhlv). rewrite Hllv. simpl.
    assert (Hdec : (h llv < h v)%nat).
    { specialize (Hhv Hne). destruct (decide (llv = lv)) as [->|Hne']; [done|].
      specialize (Hhlv Hne'). lia. }
    destruct (IH (<[v := llv]> leaders) llv) as (leaders' & r & Hrun & Hf' & Hr & Hroot & Hroots).
    + split; [by rewrite length_insert|]. intros x Hx.
      destruct (decide (x = v)) as [->|Hxv].
      * exists llv. rewrite list_lookup_insert_eq by lia. by repeat split.
      * rewrite list_lookup_insert_ne by done. by apply Hf.
    + done.
    + lia.
    + exists leaders', r. repeat (split; [done|]). intros x. rewrite Hroots.
      destruct (decide (x = v)) as [->|Hxv].
      * rewrite list_lookup_insert_eq by lia.
        split; [intros [= ->]; lia|intros Hx'; congruence].
      * by rewrite list_lookup_insert_ne.
Qed.

(** ** Call-graph sorting: the merge loop *)

(** What holds between two steps of the merge loop, with the clusters
    [remaining] yet to visit: the clusters are partitioned in cycles, the
    leaders are a forest low enough for [getLeader], the roots of the forest
    and the clusters yet to visit start a cycle, the clusters yet to visit
    are their own leaders, and the best predecessors are clusters. *)
Definition merge_inv (sized : bool) (n : nat) (st : list Cluster * list nat)
    (remaining : list nat) : Prop :=
  ∃ G h,
    length st.1 = n
    ∧ partitioned sized st.1 G
    ∧ forest n st.2 h
    ∧ (∀ v, (v < n)%nat → (h v + length remaining ≤ n)%nat)
    ∧ (∀ v, st.2 !! v = Some v → head_of G v)
    ∧ (∀ x, x ∈ remaining → head_of G x)
    ∧ (∀ x, x ∈ remaining → st.2 !! x = Some x)
    ∧ NoDup remaining
    ∧ (∀ i c, st.1 !! i = Some c →
         Edge.from (bestPred c) = -1
         ∨ 0 ≤ Edge.from (bestPred c) < Z.of_nat n).

(** The conditions of a merge of the cluster [c] at [l] into the leader
    [predC] at [predL] of its best predecessor. *)
Definition merges (l : nat) (c : Cluster) (predL : nat) (predC : Cluster) : Prop :=
  Edge.from (bestPred c) ≠ -1
  ∧ u64 (Edge.weight (bestPred c) * 10) > initialWeight c
  ∧ l ≠ predL
  ∧ u64 (size c + size predC) ≤ MAX_CLUSTER_SIZE
  ∧ isNewDensityBad predC c = false.

Lemma head_of_cycle sized cs G v :
  partitioned sized cs G → head_of G v →
  ∃ l c, l ∈ G ∧ l !! 0%nat = Some v ∧ cs !! v = Some c
         ∧ (sized = true → 0 < size c < 2 ^ 63).
Proof.
  intros [_ Hcyc] (l & Hl & Hv). rewrite Forall_forall in Hcyc.
  destruct (Hcyc l Hl) as (r & c & Hr & Hc & _ & _ & Hsized).
  exists l, c. assert (r = v) as -> by congruence.
  do 3 (split; [done|]). intros Hsd. by destruct (Hsized Hsd).
Qed.

(** Two cycles of two heads can be taken out of the partition. *)
Lemma partition_split sized cs G l1 l2 a b :
  partitioned sized cs G → l1 ∈ G → l2 ∈ G →
  l1 !! 0%nat = Some a → l2 !! 0%nat = Some b → a ≠ b →
  ∃ rest, G ≡ₚ l1 :: l2 :: rest.
Proof.
  intros _ H1 H2 Ha Hb Hne.
  apply elem_of_Permutation in H1 as [G1 HG1].
  assert (Hin : l2 ∈ l1 :: G1) by (by rewrite <- HG1).
  apply elem_of_cons in Hin as [->|Hin]; [congruence|].
  apply elem_of_Permutation in Hin as [rest Hrest].
  exists rest. by rewrite HG1, Hrest.
Qed.

Lemma partitioned_Permutation sized cs G G' :
  G ≡ₚ G' → partitioned sized cs G → partitioned sized cs G'.
Proof.
  intros HG [Hperm Hcyc]. split.
  - by rewrite <- (concat_Permutation _ _ HG).
  - by rewrite <- HG.
Qed.

Lemma head_of_Permutation G G' v : G ≡ₚ G' → head_of G v → head_of G' v.
Proof. intros HG (l & Hl & Hv). exists l. by rewrite <- HG. Qed.

Lemma head_of_merge L1 L2 rest v b :
  head_of (L1 :: L2 :: rest) v → L2 !! 0%nat = Some b → v ≠ b →
  head_of ((L1 ++ L2) :: rest) v.
Proof.
  intros (l & Hl & Hv) Hb Hne.
  apply elem_of_cons in Hl as [->|Hl].
  { exists (L1 ++ L2). split; [by left|by apply lookup_app_l_Some]. }
  apply elem_of_cons in Hl as [->|Hl]; [congruence|].
  exists l. split; [by right|done].
Qed.

(** Linking a root under another root keeps the forest, one higher. *)
Lemma forest_link n leaders h l predL :
  forest n leaders h → (l < n)%nat → (predL < n)%nat → l ≠ predL →
  leaders !! predL = Some predL →
  forest n (<[l := predL]> leaders) (λ v, if decide (v = predL) then 0%nat else S (h v)).
Proof.
  intros [Hlen Hf] Hl Hp Hne Hroot. split; [by rewrite length_insert|].
  intros v Hv. destruct (decide (v = l)) as [->|Hvl].
  - exists predL. rewrite list_lookup_insert_eq by lia. split; [done|]. split; [done|].
    intros _. rewrite decide_True by done. rewrite decide_False by done. lia.
  - rewrite list_lookup_insert_ne by done.
    destruct (Hf v Hv) as (p & Hpv & Hpn & Hh). exists p. split; [done|]. split; [done|].
    intros Hpne. specialize (Hh Hpne).
    assert (v ≠ predL) by (intros ->; congruence).
    rewrite (decide_False (P := v = predL)) by done.
    destruct (decide (p = predL)); lia.
Qed.

(** One step of the merge loop, on the cluster [l]: the step goes through
    and keeps the invariant of the loop; it merges [l] into the leader of its
    best predecessor if the conditions [merges] hold, and else leaves the
    clusters as they are. *)
Lemma mergeStep_inv sized n st l remaining :
  merge_inv sized n st (l :: remaining) →
  ∃ c st',
    st.1 !! l = Some c
    ∧ mergeStep st l = Some st'
    ∧ merge_inv sized n st' remaining
    ∧ ((unlikelyEdge c = true ∧ st' = st)
       ∨ (unlikelyEdge c = false
          ∧ ∃ leaders predL predC,
              getLeader st.2 (Z.to_nat (Edge.from (bestPred c))) = Some (leaders, predL)
              ∧ st.1 !! predL = Some predC
              ∧ ((¬ merges l c predL predC ∧ st' = (st.1, leaders))
                 ∨ (merges l c predL predC
                    ∧ ∃ cs', mergeClusters st.1 predL l = Some cs'
                             ∧ st' = (cs', <[l := predL]> leaders))))).
Proof.
  destruct st as [cs ld]. simpl.
  intros (G & h & Hlen & Hpart & Hforest & Hbound & Hroots & Hrem & Hself & Hnd & Hbest).
  simpl in *.
  destruct (head_of_cycle sized cs G l Hpart (Hrem l (list_elem_of_here _ _)))
    as (L2 & c & HL2 & HL2h & Hc & Hcsz).
  assert (Hln : (l < n)%nat) by (rewrite <- Hlen; by eapply lookup_lt_Some).
  apply NoDup_cons in Hnd as [Hlnot Hnd].
  assert (Hkeep : ∀ ld', forest n ld' h →
            (∀ x, ld' !! x = Some x ↔ ld !! x = Some x) →
            merge_inv sized n (cs, ld') remaining).
  { intros ld' Hf' Hr'. exists G, h. simpl. split; [done|]. split; [done|].
    split; [done|]. split; [intros v Hv; specialize (Hbound v Hv); simpl in Hbound; lia|].
    split; [intros v Hv; apply Hroots; by apply Hr'|].
    split; [intros x Hx; apply Hrem; by right|].
    split; [intros x Hx; apply Hr', Hself; by right|]. by split. }
  exists c.
  destruct (unlikelyEdge c) eqn:Hun.
  { exists (cs, ld). split; [done|].
    split; [unfold mergeStep; simpl; by rewrite Hc; simpl; rewrite Hun|].
    split; [by apply Hkeep|by left]. }
  assert (Hfrom : 0 ≤ Edge.from (bestPred c) < Z.of_nat n).
  { destruct (Hbest _ _ Hc) as [Hm|Hr]; [|done].
    unfold unlikelyEdge in Hun. rewrite Hm in Hun. done. }
  destruct (getLeader_loop_spec n h (S (length ld)) ld (Z.to_nat (Edge.from (bestPred c))))
    as (ld' & predL & Hget & Hf' & HpredL & Hroot & Hr'); [done|lia| |].
  { rewrite (proj1 Hforest). specialize (Hbound (Z.to_nat (Edge.from (bestPred c)))).
    simpl in Hbound. lia. }
  fold (getLeader ld (Z.to_nat (Edge.from (bestPred c)))) in Hget.
  destruct (head_of_cycle sized cs G predL Hpart (Hroots _ (proj1 (Hr' _) Hroot)))
    as (L1 & predC & HL1 & HL1h & HpredC & Hpsz).
  destruct (lookup_lt_is_Some_2 ld' l) as [ll Hll]; [by rewrite (proj1 Hf')|].
  assert (Hms : mergeStep (cs, ld) l
                = if decide (l = predL) then Some (cs, ld')
                  else if tooLarge c predC then Some (cs, ld')
                  else if isNewDensityBad predC c then Some (cs, ld')
                  else cs' ← mergeClusters cs predL l;
                       Some (cs', <[l := predL]> ld')).
  { unfold mergeStep. simpl. rewrite Hc. simpl. rewrite Hun, Hget. simpl.
    destruct (decide (l = predL)).
    { by rewrite bool_decide_eq_true_2. }
    rewrite bool_decide_eq_false_2 by done. rewrite HpredC. simpl.
    destruct (tooLarge c predC); [done|].
    destruct (isNewDensityBad predC c); [done|]. by rewrite Hll. }
  assert (Hskip : ¬ merges l c predL predC →
            mergeStep (cs, ld) l = Some (cs, ld') →
            ∃ st', (cs, ld).1 !! l = Some c
              ∧ mergeStep (cs, ld) l = Some st'
              ∧ merge_inv sized n st' remaining
              ∧ (false = true ∧ st' = (cs, ld)
                 ∨ false = false
                   ∧ ∃ leaders predL0 predC0,
                       getLeader (cs, ld).2 (Z.to_nat (Edge.from (bestPred c)))
                       = Some (leaders, predL0)
                       ∧ (cs, ld).1 !! predL0 = Some predC0
                       ∧ (¬ merges l c predL0 predC0 ∧ st' = ((cs, ld).1, leaders)
                          ∨ merges l c predL0 predC0
                            ∧ ∃ cs', mergeClusters (cs, ld).1 predL0 l = Some cs'
                                     ∧ st' = (cs', <[l := predL0]> leaders)))).
  { intros Hno Hrun. exists (cs, ld'). split; [done|]. split; [done|].
    split; [by apply Hkeep|].
    right. split; [done|]. exists ld', predL, predC. do 2 (split; [done|]). by left. }
  destruct (decide (l = predL)) as [Heq|Hne].
  { apply Hskip; [|done]. intros (_ & _ & ? & _). done. }
  destruct (tooLarge c predC) eqn:Hlarge.
  { apply Hskip; [|done]. intros (_ & _ & _ & Hle & _). unfold tooLarge in Hlarge.
    apply Z.gtb_lt in Hlarge. lia. }
  destruct (isNewDensityBad predC c) eqn:Hbad.
  { apply Hskip; [|done]. intros (_ & _ & _ & _ & ?). congruence. }
  assert (Hmerges : merges l c predL predC).
  { unfold unlikelyEdge in Hun. apply orb_false_iff in Hun as [Hu1 Hu2].
    apply Z.eqb_neq in Hu1. apply Z.leb_gt in Hu2.
    unfold tooLarge in Hlarge.
    assert (¬ u64 (size c + size predC) > MAX_CLUSTER_SIZE)
      by (intros Hgt; apply Z.gt_lt, Z.gtb_lt in Hgt; congruence).
    repeat split; [done|lia|done|lia|done]. }
  destruct (partition_split sized cs G L1 L2 predL l Hpart HL1 HL2 HL1h HL2h)
    as [rest HG]; [done|].
  pose proof (partitioned_Permutation _ _ _ _ HG Hpart) as Hpart'.
  assert (Hsum : sized = true → 0 < u64 (size predC + size c) < 2 ^ 63).
  { intros Hsd. specialize (Hcsz Hsd). specialize (Hpsz Hsd).
    destruct Hmerges as (_ & _ & _ & Hle & _).
    rewrite (Z.add_comm (size predC)). unfold MAX_CLUSTER_SIZE in Hle.
    rewrite u64_small in * by lia. lia. }
  destruct (mergeClusters_cycles sized cs L1 L2 rest predL l predC c Hpart' HL1h HL2h
              HpredC Hc Hsum)
    as (cs' & Hmerge & Hlen' & Hpart'' & Hkeepb & _).
  rewrite Hmerge in Hms. simpl in Hms.
  exists (cs', <[l := predL]> ld'). split; [done|]. split; [done|]. split.
  - exists ((L1 ++ L2) :: rest), (λ v, if decide (v = predL) then 0%nat else S (h v)).
    simpl. split; [congruence|]. split; [done|].
    split; [by apply forest_link|].
    split.
    { intros v Hv. specialize (Hbound v Hv). simpl in Hbound.
      destruct (decide (v = predL)); lia. }
    split.
    { intros v Hv. destruct (decide (v = l)) as [->|Hvl].
      - rewrite list_lookup_insert_eq in Hv by (by rewrite (proj1 Hf')). congruence.
      - rewrite list_lookup_insert_ne in Hv by done.
        apply (head_of_merge L1 L2 rest v l); [|done..].
        eapply head_of_Permutation; [exact HG|]. apply Hroots. by apply Hr'. }
    split.
    { intros x Hx. apply (head_of_merge L1 L2 rest x l); [|done|].
      - eapply head_of_Permutation; [exact HG|]. apply Hrem. by right.
      - intros ->. done. }
    split.
    { intros x Hx. rewrite list_lookup_insert_ne by (intros ->; done).
      apply Hr', Hself. by right. }
    split; [done|].
    intros i c' Hc'.
    destruct (lookup_lt_is_Some_2 cs i) as [c0 Hc0];
      [rewrite <- Hlen'; by eapply lookup_lt_Some|].
    destruct (Hkeepb _ _ Hc0) as (c1 & Hc1 & Hb1 & _).
    assert (c1 = c') as -> by congruence. rewrite Hb1. by eapply Hbest.
  - right. split; [done|]. exists ld', predL, predC. do 2 (split; [done|]).
    right. split; [done|]. by exists cs'.
Qed.

Lemma insert_sorted_Permutation {A : Type} (before : A → A → bool) x l :
  insert_sorted before x l ≡ₚ x :: l.
Proof.
  induction l as [|y l IH]; simpl; [done|].
  destruct (before y x); [|done]. by rewrite IH, Permutation_swap.
Qed.

Lemma stable_sort_Permutation {A : Type} (before : A → A → bool) l :
  stable_sort before l ≡ₚ l.
Proof.
  induction l as [|x l IH]; simpl; [done|].
  by rewrite insert_sorted_Permutation, IH.
Qed.

Lemma concat_singletons (l : list nat) : concat ((λ i, [i]) <$> l) = l.
Proof. induction l as [|x l IH]; simpl; [done|]. by f_equal. Qed.

(** The clusters a merge loop starts from: every cluster is a cycle of its
    own and its best predecessor, if any, is a cluster; with [sized], no
    section is empty or larger than 2^63. *)
Definition fresh (sized : bool) (cs : list Cluster) : Prop :=
  ∀ i c, cs !! i = Some c →
         next c = i ∧ prev c = i
         ∧ (Edge.from (bestPred c) = -1
            ∨ 0 ≤ Edge.from (bestPred c) < Z.of_nat (length cs))
         ∧ (sized = true → 0 < size c < 2 ^ 63).

Lemma merge_inv_start sized cs sorted :
  fresh sized cs → sorted ≡ₚ seq 0 (length cs) →
  merge_inv sized (length cs) (cs, iota (length cs)) sorted.
Proof.
  intros Hfresh Hsorted.
  exists ((λ i, [i]) <$> seq 0 (length cs)), (λ _, 0%nat). simpl.
  assert (Hhead : ∀ v, (v < length cs)%nat →
            head_of ((λ i, [i]) <$> seq 0 (length cs)) v).
  { intros v Hv. exists [v]. split; [|done].
    apply list_elem_of_fmap. exists v. split; [done|]. apply elem_of_seq. lia. }
  split; [done|]. split; [split|].
  - by rewrite concat_singletons.
  - apply Forall_fmap, Forall_forall. intros i Hi. apply elem_of_seq in Hi.
    destruct (lookup_lt_is_Some_2 cs i) as [c Hc]; [lia|].
    destruct (Hfresh _ _ Hc) as (Hn & Hp & _ & Hsz).
    exists i, c. simpl. split; [done|]. split; [done|]. split; [by rewrite Hp|].
    split.
    + intros j a Hj. destruct j as [|j]; [|done]. simpl in Hj.
      injection Hj as <-. rewrite Hc. simpl. by rewrite Hn.
    + intros Hsd. split; [by apply Hsz|]. intros j x Hx. done.
  - split; [split|].
    + unfold iota. by rewrite length_seq.
    + intros v Hv. exists v. unfold iota. rewrite lookup_seq_lt by done.
      split; [done|]. split; [done|]. done.
    + split; [intros v Hv; rewrite Hsorted, length_seq; lia|].
      split.
      { intros v Hv. apply Hhead. apply lookup_lt_Some in Hv.
        unfold iota in Hv. by rewrite length_seq in Hv. }
      split.
      { intros x Hx. apply Hhead. rewrite Hsorted in Hx. apply elem_of_seq in Hx. lia. }
      split.
      { intros x Hx. rewrite Hsorted in Hx. apply elem_of_seq in Hx.
        unfold iota. rewrite lookup_seq_lt by lia. done. }
      split; [rewrite Hsorted; apply NoDup_seq|].
      intros i c Hc. by destruct (Hfresh _ _ Hc) as (_ & _ & ? & _).
Qed.

(** The merge loop goes through from every state of its invariant. *)
Lemma merge_loop sized n st remaining :
  merge_inv sized n st remaining →
  ∃ st', foldM mergeStep st remaining = Some st' ∧ merge_inv sized n st' [].
Proof.
  revert st. induction remaining as [|l remaining IH]; intros st Hinv; simpl.
  - eauto.
  - destruct (mergeStep_inv _ _ _ _ _ Hinv) as (c & st1 & _ & -> & Hinv1 & _). simpl.
    by apply IH.
Qed.


(** The merge loop goes through a part of the clusters to visit. *)
Lemma merge_prefix sized n st visited remaining :
  merge_inv sized n st (visited ++ remaining) →
  ∃ st', foldM mergeStep st visited = Some st' ∧ merge_inv sized n st' remaining.
Proof.
  revert st. induction visited as [|l visited IH]; intros st Hinv; simpl.
  - eauto.
  - destruct (mergeStep_inv _ _ _ _ _ Hinv) as (c & st1 & _ & -> & Hinv1 & _). simpl.
    by apply IH.
Qed.

Lemma fresh_of_construction `{SectionInfo} profile g :
  newCallGraphSort profile = Some g → fresh false (clusters g).
Proof.
  intros Hg i c Hc.
  destruct (construction_fresh profile g Hg) as (_ & _ & Hcl).
  destruct (Hcl i c Hc) as (? & ? & _ & ?). done.
Qed.

(** C5. In the merge loop of [run] on the graph of a profile, with the
    clusters [visited] behind it, the step for the cluster [c] at [l] goes
    through, and so does the rest of the loop; [l] is its own leader. If [c]
    has no best predecessor, or the weight of its best edge times 10 is at
    most its initial weight, the step changes nothing. Otherwise, with
    [predC] at [predL] the leader of the best predecessor: the step merges
    [c] into [predC] and makes [predL] the leader of [l] if [l] is not
    [predL], the two sizes together are at most [MAX_CLUSTER_SIZE], 1 MiB,
    and the density after the merge is not below the density of [predC]
    divided by 8; and if one of these fails, the step leaves the clusters as
    they are. *)
Theorem merge_gates `{SectionInfo} (profile : list ((nat * nat) * Z))
    (g : CallGraphSort) (visited : list nat) (l : nat) (remaining : list nat) :
  newCallGraphSort profile = Some g →
  stable_sort (denser (clusters g)) (iota (length (clusters g)))
  = visited ++ l :: remaining →
  ∃ st c st',
    foldM mergeStep (clusters g, iota (length (clusters g))) visited = Some st
    ∧ st.1 !! l = Some c
    ∧ st.2 !! l = Some l
    ∧ mergeStep st l = Some st'
    ∧ (∃ st'', foldM mergeStep st' remaining = Some st'')
    ∧ ((unlikelyEdge c = true ∧ st' = st)
       ∨ (unlikelyEdge c = false
          ∧ ∃ leaders predL predC,
              getLeader st.2 (Z.to_nat (Edge.from (bestPred c))) = Some (leaders, predL)
              ∧ leaders !! predL = Some predL
              ∧ st.1 !! predL = Some predC
              ∧ ((¬ merges l c predL predC ∧ st'.1 = st.1 ∧ st'.2 = leaders)
                 ∨ (merges l c predL predC
                    ∧ ∃ cs', mergeClusters st.1 predL l = Some cs'
                             ∧ st' = (cs', <[l := predL]> leaders)))))
    ∧ (unlikelyEdge c = true
       ↔ Edge.from (bestPred c) = -1
         ∨ u64 (Edge.weight (bestPred c) * 10) ≤ initialWeight c)
    ∧ MAX_CLUSTER_SIZE = 1048576
    ∧ (∀ a b, isNewDensityBad a b
              = PrimFloat.ltb
                  (PrimFloat.div (to_double (u64 (weight a + weight b)))
                                 (to_double (u64 (size a + size b))))
                  (PrimFloat.div (getDensity a) (to_double 8))).
Proof.
  intros Hg Hsorted.
  set (n := length (clusters g)).
  assert (Hstart : merge_inv false n (clusters g, iota n) (visited ++ l :: remaining)).
  { rewrite <- Hsorted. apply merge_inv_start; [by eapply fresh_of_construction|].
    apply stable_sort_Permutation. }
  destruct (merge_prefix _ _ _ _ _ Hstart) as (st & Hvisited & Hinv).
  destruct (mergeStep_inv _ _ _ _ _ Hinv) as (c & st' & Hc & Hstep & Hinv' & Hcases).
  exists st, c, st'. do 2 (split; [done|]).
  split.
  { destruct Hinv as (G & h & _ & _ & _ & _ & _ & _ & Hself & _).
    apply Hself. by left. }
  split; [done|].
  split.
  { destruct (merge_loop _ _ _ _ Hinv') as (st'' & ? & _). eauto. }
  split; [|split; [|done]].
  - destruct Hcases as [?|(Hun & leaders & predL & predC & Hget & HpredC & Hcase)];
      [by left|].
    right. split; [done|]. exists leaders, predL, predC. split; [done|].
    split; [|split; [done|]].
    + destruct Hinv as (G & h & _ & _ & Hforest & Hbound & _ & _ & _ & _ & Hbest).
      destruct (Hbest _ _ Hc) as [Hm|Hr].
      { unfold unlikelyEdge in Hun. by rewrite Hm in Hun. }
      destruct (getLeader_loop_spec n h (S (length st.2)) st.2
                  (Z.to_nat (Edge.from (bestPred c))) Hforest)
        as (ld' & r & Hget' & _ & _ & Hroot & _); [lia| |].
      { rewrite (proj1 Hforest).
        specialize (Hbound (Z.to_nat (Edge.from (bestPred c)))). simpl in Hbound. lia. }
      unfold getLeader in Hget. congruence.
    + destruct Hcase as [[Hno ->]|Hyes]; [by left|by right].
  - unfold unlikelyEdge. rewrite orb_true_iff, Z.eqb_eq, Z.leb_le. done.
Qed.

Lemma merge_gates_witness :
  ∃ g,
    @newCallGraphSort sections_of_10
      [((0%nat, 1%nat), 300); ((1%nat, 2%nat), 200); ((2%nat, 3%nat), 100)] = Some g
    ∧ stable_sort (denser (clusters g)) (iota (length (clusters g)))
      = [] ++ 1%nat :: [2%nat; 3%nat; 0%nat]
    ∧ ∃ st', mergeStep (clusters g, iota (length (clusters g))) 1%nat = Some st'.
Proof.
  destruct (@newCallGraphSort sections_of_10
              [((0%nat, 1%nat), 300); ((1%nat, 2%nat), 200); ((2%nat, 3%nat), 100)])
    as [g|] eqn:Hg; [|by vm_compute in Hg].
  exists g. split; [done|].
  assert (Hsorted : stable_sort (denser (clusters g)) (iota (length (clusters g)))
                    = [] ++ 1%nat :: [2%nat; 3%nat; 0%nat]).
  { vm_compute in Hg. injection Hg as <-. vm_compute. reflexivity. }
  split; [done|].
  destruct (@merge_gates sections_of_10 _ g [] 1%nat [2%nat; 3%nat; 0%nat] Hg Hsorted)
    as (st & c & st' & Hst & _ & _ & Hstep & _).
  simpl in Hst. injection Hst as <-. by exists st'.
Defined.

(** ** Call-graph sorting: the order of the sections *)

(** [orderMap[sections[i]] = curOrder++]. *)
Definition place (secs : list nat) (o : gmap nat Z * Z) (i : nat)
    : option (gmap nat Z * Z) :=
  sec ← secs !! i; Some (<[sec := o.2]> o.1, o.2 + 1).

(** The first clusters of the cycles. *)
Definition heads (G : list (list nat)) : list nat :=
  (λ L, default 0%nat (L !! 0%nat)) <$> G.

(** The walk of a cycle from a cluster of it places the clusters from there
    to the end of the cycle, in the order of the cycle. *)
Lemma walk_cycle cs secs r fuel pre x post o :
  linked cs (pre ++ x :: post) r →
  NoDup (pre ++ x :: post) →
  (pre ++ x :: post) !! 0%nat = Some r →
  (length post < fuel)%nat →
  walk fuel cs secs r x o = foldM (place secs) o (x :: post).
Proof.
  revert fuel pre x o.
  induction post as [|y post IH]; intros fuel pre x o Hlink Hnd Hr Hfuel;
    (destruct fuel as [|fuel]; [simpl in Hfuel; lia|]).
  - pose proof (Hlink (length pre) x (list_lookup_middle _ _ _ _ eq_refl)) as Hx.
    rewrite (lookup_ge_None_2 (pre ++ [x]) (S (length pre))) in Hx
      by (rewrite length_app; simpl; lia).
    simpl in Hx. simpl. unfold place.
    destruct (secs !! x) as [sec|]; simpl; [|done].
    destruct (cs !! x) as [c|]; simplify_eq/=.
    by rewrite bool_decide_eq_true_2.
  - pose proof (Hlink (length pre) x (list_lookup_middle _ _ _ _ eq_refl)) as Hx.
    assert (Hy : (pre ++ x :: y :: post) !! S (length pre) = Some y).
    { rewrite (cons_middle x), app_assoc. apply list_lookup_middle.
      rewrite length_app. simpl. lia. }
    rewrite Hy in Hx. simpl in Hx.
    change (foldM (place secs) o (x :: y :: post))
      with (place secs o x ≫= λ o', foldM (place secs) o' (y :: post)).
    cbn [walk].
    destruct (secs !! x) as [sec|] eqn:Hsx; cbn [mbind option_bind];
      [|unfold place; by rewrite Hsx].
    assert (Hp : place secs o x = Some (<[sec := o.2]> o.1, o.2 + 1))
      by (unfold place; by rewrite Hsx).
    rewrite Hp. cbn [mbind option_bind].
    destruct (cs !! x) as [c|]; simplify_eq/=.
    rewrite bool_decide_eq_false_2.
    + apply (IH fuel (pre ++ [x])).
      * by rewrite <- app_assoc.
      * by rewrite <- app_assoc.
      * rewrite <- app_assoc. done.
      * lia.
    + intros Heq. rewrite Heq in Hy, Hr, Hnd.
      pose proof (NoDup_lookup _ _ _ _ Hnd Hy Hr). lia.
Qed.

Lemma length_concat_elem {A : Type} (G : list (list A)) L :
  L ∈ G → (length L ≤ length (concat G))%nat.
Proof.
  intros HL. apply elem_of_Permutation in HL as [G' HG'].
  rewrite (concat_Permutation _ _ HG'). simpl. rewrite length_app. lia.
Qed.

Lemma NoDup_concat_elem {A : Type} (G : list (list A)) L :
  NoDup (concat G) → L ∈ G → NoDup L.
Proof.
  intros Hnd HL. apply elem_of_Permutation in HL as [G' HG'].
  rewrite (concat_Permutation _ _ HG') in Hnd. simpl in Hnd.
  by apply NoDup_app in Hnd as [? _].
Qed.

(** The walks of the cycles from their heads place all their clusters, cycle
    after cycle. *)
Lemma walks_cycles sized cs secs Gs o :
  Forall (is_cycle sized cs) Gs →
  NoDup (concat Gs) →
  (length (concat Gs) ≤ length cs)%nat →
  foldM (λ o leader, walk (length cs) cs secs leader leader o) o (heads Gs)
  = foldM (place secs) o (concat Gs).
Proof.
  revert o. induction Gs as [|L Gs IH]; intros o Hcyc Hnd Hlen; [done|].
  apply Forall_cons in Hcyc as [(r & c & Hr & Hc & Hlast & Hlink & _) Hcyc].
  simpl in Hnd, Hlen. rewrite length_app in Hlen.
  apply NoDup_app in Hnd as (HndL & _ & Hnd).
  unfold heads. rewrite fmap_cons. fold (heads Gs). rewrite Hr.
  cbn [default foldM concat]. rewrite foldM_app.
  destruct L as [|r' post]; [done|]. simpl in Hr. injection Hr as ->. unfold id.
  rewrite (walk_cycle cs secs r (length cs) [] r post o); [|done|done|done|simpl in Hlen; lia].
  destruct (foldM (place secs) o (r :: post)) as [o'|]; [|done].
  cbn [mbind option_bind]. apply IH; [done|done|lia].
Qed.

(** Placing clusters of distinct sections numbers them from the current
    order on. *)
Lemma place_all secs order m k :
  NoDup secs → NoDup order → (∀ y, y ∈ order → (y < length secs)%nat) →
  ∃ m',
    foldM (place secs) (m, k) order = Some (m', k + Z.of_nat (length order))
    ∧ (∀ j y s, order !! j = Some y → secs !! y = Some s →
                m' !! s = Some (k + Z.of_nat j))
    ∧ (∀ s, (∀ y, y ∈ order → secs !! y ≠ Some s) → m' !! s = m !! s).
Proof.
  intros Hsecs. revert m k.
  induction order as [|x order IH]; intros m k Hnd Hrange.
  - exists m. simpl. split; [do 2 f_equal; lia|]. split; [done|done].
  - apply NoDup_cons in Hnd as [Hx Hnd].
    destruct (lookup_lt_is_Some_2 secs x) as [sx Hsx]; [apply Hrange; by left|].
    destruct (IH (<[sx := k]> m) (k + 1) Hnd) as (m' & Hrun & Hin & Hout).
    { intros y Hy. apply Hrange. by right. }
    exists m'. split; [|split].
    + assert (Hp : place secs (m, k) x = Some (<[sx := k]> m, k + 1))
        by (unfold place; by rewrite Hsx).
      cbn [foldM]. rewrite Hp. cbn [mbind option_bind].
      rewrite Hrun. do 2 f_equal. simpl. lia.
    + intros j y s Hj Hs. destruct j as [|j]; simpl in Hj.
      * injection Hj as ->. assert (s = sx) as -> by congruence.
        rewrite Hout, lookup_insert_eq; [do 2 f_equal; lia|].
        intros y' Hy' Hs'. assert (y' = y); [|by subst].
        by eapply (NoDup_lookup secs).
      * rewrite (Hin j y s Hj Hs). f_equal. lia.
    + intros s Hs. rewrite Hout.
      * apply lookup_insert_ne. intros ->. by apply (Hs x); [left|].
      * intros y Hy. apply Hs. by right.
Qed.










(** Four sections of 10 bytes called in a chain are placed in the order of
    the chain. *)
Example chain_is_placed_in_order :
  (λ result : gmap nat Z, (result !!.) <$> [0%nat; 1%nat; 2%nat; 3%nat])
  <$> @computeCallGraphProfileOrder sections_of_10
        [((0%nat, 1%nat), 300); ((1%nat, 2%nat), 200); ((2%nat, 3%nat), 100)]
  = Some [Some 1; Some 2; Some 3; Some 4].
Proof. vm_compute. reflexivity. Qed.

(** * Further properties *)

(** ** The symbol table: [addSymbol] and [find] *)

Section addSymbol_facts.
Context `{Collaborators}.

(** The record [insert] returns is in the arena. *)
Lemma insert_record st name sym st1 :
  well_formed st → insert name st = Some (sym, st1) →
  ∃ old, arena st1 !! sym = Some old
         ∧ (symMap st !! stripDefaultVersion name = None →
            old = init_placeholder (stripDefaultVersion name) makeSymbolUnion
            ∧ sym = length (arena st)).
Proof.
  intros [Hidx Hptr] Hins.
  destruct (symMap st !! stripDefaultVersion name) as [i|] eqn:Hi.
  - rewrite (insert_hit _ _ _ Hi) in Hins.
    destruct (symVector st !! i) as [p|] eqn:Hp; simplify_eq/=.
    destruct (lookup_lt_is_Some_2 (arena st1) sym (Hptr _ _ Hp)) as [old Hold].
    exists old. split; [done|]. intros Hnone. congruence.
  - rewrite (insert_miss _ _ Hi) in Hins. simplify_eq/=.
    eexists. split; [by rewrite lookup_app_r, Nat.sub_diag by lia|]. done.
Qed.

Lemma well_formed_with_arena st a :
  well_formed st → length a = length (arena st) → well_formed (with_arena a st).
Proof.
  intros [Hidx Hptr] Hlen. split; simpl; [done|]. intros i p. rewrite Hlen. apply Hptr.
Qed.

Lemma addSymbol_unfold st newSym sym st0 old :
  insert (getName newSym) st = Some (sym, st0) →
  arena st0 !! sym = Some old →
  addSymbol newSym st
  = Some (sym, with_arena (<[sym := resolve old newSym]> (arena st0)) st0).
Proof. intros Hins Hold. unfold addSymbol. rewrite Hins. simpl. by rewrite Hold. Qed.
End addSymbol_facts.

(** X1. [addSymbol] goes through on a well-formed table: the symbol it
    returns is the one [insert] returns for the name, a fresh placeholder if
    the stripped name is new; the record of that symbol becomes what
    [resolve] makes of it and of the new symbol, and nothing else of the
    table changes; the table stays well-formed; and [find] of the stripped
    name then gives that symbol, unless the record is still a placeholder. *)
Theorem addSymbol_resolves `{Collaborators} (st : SymbolTable) (newSym : Symbol) :
  well_formed st →
  ∃ sym st0 st1 old,
    insert (getName newSym) st = Some (sym, st0)
    ∧ arena st0 !! sym = Some old
    ∧ (symMap st !! stripDefaultVersion (getName newSym) = None →
       old = init_placeholder (stripDefaultVersion (getName newSym)) makeSymbolUnion)
    ∧ addSymbol newSym st = Some (sym, st1)
    ∧ symMap st1 = symMap st0
    ∧ symVector st1 = symVector st0
    ∧ demangledSyms st1 = demangledSyms st0
    ∧ arena st1 !! sym = Some (resolve old newSym)
    ∧ (∀ p, p ≠ sym → arena st1 !! p = arena st0 !! p)
    ∧ well_formed st1
    ∧ find (stripDefaultVersion (getName newSym)) st1
      = Some (if isPlaceholder (resolve old newSym) then nullptr else Some sym).
Proof.
  intros Hwf.
  destruct (insert_total st (getName newSym) Hwf) as (sym & st0 & Hins).
  destruct (insert_record _ _ _ _ Hwf Hins) as (old & Hold & Hfresh).
  pose proof (insert_well_formed _ _ _ _ Hwf Hins) as Hwf0.
  exists sym, st0, (with_arena (<[sym := resolve old newSym]> (arena st0)) st0), old.
  do 2 (split; [done|]). split; [intros Hn; by destruct (Hfresh Hn)|].
  split; [by apply addSymbol_unfold|]. do 3 (split; [done|]).
  assert (Hsym : arena (with_arena (<[sym := resolve old newSym]> (arena st0)) st0) !! sym
                 = Some (resolve old newSym)).
  { simpl. apply list_lookup_insert_eq. by eapply lookup_lt_Some. }
  split; [done|].
  split; [intros p Hp; simpl; by rewrite list_lookup_insert_ne|].
  split; [apply well_formed_with_arena; [done|by rewrite length_insert]|].
  destruct (insert_binds _ _ _ _ Hins) as (i & Hi & Hp).
  simpl in Hsym. unfold find. simpl. rewrite Hi. simpl. rewrite Hp. simpl.
  rewrite Hsym. simpl. by destruct (isPlaceholder _).
Qed.

Lemma addSymbol_resolves_witness :
  well_formed empty_table
  ∧ ∃ sym st1,
      @addSymbol example_collaborators (defined_symbol "foo") empty_table
      = Some (sym, st1)
      ∧ find "foo" st1 = Some (Some sym).
Proof.
  split; [apply well_formed_empty|].
  destruct (@addSymbol_resolves example_collaborators empty_table (defined_symbol "foo")
              well_formed_empty)
    as (sym & st0 & st1 & old & Hins & Hold & _ & Hadd & _ & _ & _ & _ & _ & _ & Hfind).
  exists sym, st1. split; [done|].
  vm_compute in Hins. injection Hins as <- <-.
  vm_compute in Hold. injection Hold as <-. exact Hfind.
Defined.

(** X2. A name that was only inserted is not found: after the [insert] of
    a new name, [find] of the stripped name is null, since the record is a
    placeholder, and [find] of every other name is as before. *)
Theorem insert_is_not_found `{Collaborators} (st st1 : SymbolTable) (name : string)
    (sym : nat) :
  well_formed st →
  symMap st !! stripDefaultVersion name = None →
  insert name st = Some (sym, st1) →
  find (stripDefaultVersion name) st1 = Some nullptr
  ∧ ∀ other, other ≠ stripDefaultVersion name → find other st1 = find other st.
Proof.
  intros [Hidx Hptr] Hnew Hins. rewrite (insert_miss _ _ Hnew) in Hins. simplify_eq/=.
  split.
  - unfold find. simpl. rewrite lookup_insert_eq. simpl.
    rewrite lookup_app_r, Nat.sub_diag by lia. simpl.
    rewrite lookup_app_r, Nat.sub_diag by lia. done.
  - intros other Hne. unfold find. simpl. rewrite lookup_insert_ne by done.
    destruct (symMap st !! other) as [i|] eqn:Hi; [|done].
    pose proof (Hidx _ _ Hi) as Hlt. rewrite lookup_app_l by done.
    destruct (symVector st !! i) as [p|] eqn:Hp; [|done]. simpl.
    by rewrite lookup_app_l by (by eapply Hptr).
Qed.

Lemma insert_is_not_found_witness :
  ∃ sym st1,
    @insert example_collaborators "foo@@v1" empty_table = Some (sym, st1)
    ∧ find "foo" st1 = Some nullptr.
Proof.
  exists 0%nat. eexists. split; [vm_compute; reflexivity|].
  refine (proj1 (@insert_is_not_found example_collaborators empty_table _ "foo@@v1" 0%nat
                   well_formed_empty _ _)); [reflexivity|vm_compute; reflexivity].
Defined.

(** X3. One record per name under [addSymbol]: a second symbol whose name has
    the same stripped form is resolved into the record of the first; the
    second call returns the same symbol and leaves the name index and
    [symVector] as they are. *)
Theorem addSymbol_twice `{Collaborators} (st st1 : SymbolTable) (a b : Symbol)
    (sym : nat) :
  well_formed st →
  stripDefaultVersion (getName b) = stripDefaultVersion (getName a) →
  addSymbol a st = Some (sym, st1) →
  ∃ st2 r,
    addSymbol b st1 = Some (sym, st2)
    ∧ arena st1 !! sym = Some r
    ∧ arena st2 = <[sym := resolve r b]> (arena st1)
    ∧ symMap st2 = symMap st1
    ∧ symVector st2 = symVector st1
    ∧ length (arena st2) = length (arena st1).
Proof.
  intros Hwf Hname Hadd. unfold addSymbol in Hadd.
  destruct (insert (getName a) st) as [[sym0 st0]|] eqn:Hins; simplify_eq/=.
  destruct (arena st0 !! sym0) as [old|] eqn:Hold; simplify_eq/=.
  destruct (insert_binds _ _ _ _ Hins) as (i & Hi & Hp).
  assert (Hins2 : insert (getName b)
                    (with_arena (<[sym := resolve old a]> (arena st0)) st0)
                  = Some (sym, with_arena (<[sym := resolve old a]> (arena st0)) st0)).
  { unfold insert. simpl. rewrite Hname, Hi. simpl. by rewrite Hp. }
  assert (Hr : arena (with_arena (<[sym := resolve old a]> (arena st0)) st0) !! sym
               = Some (resolve old a)).
  { simpl. apply list_lookup_insert_eq. by eapply lookup_lt_Some. }
  eexists _, (resolve old a). split; [by apply addSymbol_unfold|].
  split; [done|]. simpl. do 3 (split; [done|]). by rewrite !length_insert.
Qed.

Lemma addSymbol_twice_witness :
  ∃ sym st1 st2,
    @addSymbol example_collaborators (defined_symbol "foo@@v1") empty_table
    = Some (sym, st1)
    ∧ @addSymbol example_collaborators (defined_symbol "foo") st1 = Some (sym, st2)
    ∧ symVector st2 = [sym].
Proof.
  exists 0%nat. eexists. 
  assert (Hadd : @addSymbol example_collaborators (defined_symbol "foo@@v1") empty_table
                 = Some (0%nat, _)) by (vm_compute; reflexivity).
  destruct (@addSymbol_twice example_collaborators empty_table _
              (defined_symbol "foo@@v1") (defined_symbol "foo") 0%nat
              well_formed_empty eq_refl Hadd)
    as (st2 & r & Hadd2 & _ & _ & _ & Hvec & _).
  exists st2. split; [exact Hadd|]. split; [exact Hadd2|]. rewrite Hvec. reflexivity.
Defined.

(** ** The symbol table: the demangled map *)

Lemma drop_chars_app base rest : drop_chars (String.length base) (base +:+ rest) = rest.
Proof. induction base as [|a base IH]; simpl; [by destruct rest|done]. Qed.

(** The key of a name with an [@] after a prefix without one. *)
Lemma demangledName_at `{Collaborators} base rest :
  has_char "@" base = false →
  str_size (base +:+ String "@" rest) < 2 ^ 64 →
  demangledName (base +:+ String "@" rest)
  = match rest with
    | EmptyString => demangleItanium base
    | String c _ =>
        if Ascii.eqb c "@" then demangleItanium base
        else demangleItanium base +:+ String "@" rest
    end.
Proof.
  intros Hc Hsz. unfold demangledName, str_find. rewrite find_from_app by done.
  unfold str_size in *. rewrite string_length_app in *. simpl in *.
  replace (0 + Z.of_nat (String.length base) =? npos) with false
    by (symmetry; apply Z.eqb_neq; unfold npos; lia).
  assert (Hpos : u64 (0 + Z.of_nat (String.length base) + 1)
                 = Z.of_nat (String.length base + 1)).
  { unfold u64. rewrite Z.mod_small; lia. }
  rewrite Hpos.
  assert (Htake : take_front (0 + Z.of_nat (String.length base)) (base +:+ String "@" rest)
                  = base).
  { unfold take_front, str_size. rewrite string_length_app. simpl.
    replace (Z.of_nat (String.length base + S (String.length rest))
             <=? 0 + Z.of_nat (String.length base)) with false
      by (symmetry; apply Z.leb_gt; lia).
    replace (Z.to_nat (0 + Z.of_nat (String.length base))) with (String.length base) by lia.
    apply take_chars_app. }
  assert (Hsub : substr_from (0 + Z.of_nat (String.length base)) (base +:+ String "@" rest)
                 = String "@" rest).
  { unfold substr_from, str_size. rewrite string_length_app. simpl.
    replace (Z.of_nat (String.length base + S (String.length rest))
             <=? 0 + Z.of_nat (String.length base)) with false
      by (symmetry; apply Z.leb_gt; lia).
    replace (Z.to_nat (0 + Z.of_nat (String.length base))) with (String.length base) by lia.
    apply drop_chars_app. }
  rewrite Htake, Hsub.
  destruct rest as [|c rest]; simpl.
  - replace (Z.of_nat (String.length base + 1) =? Z.of_nat (String.length base + 1))
      with true by (symmetry; apply Z.eqb_eq; lia). done.
  - replace (Z.of_nat (String.length base + 1)
             =? Z.of_nat (String.length base + S (S (String.length rest)))) with false
      by (symmetry; apply Z.eqb_neq; lia).
    unfold char_at, str_size. rewrite string_length_app. simpl.
    replace ((0 <=? Z.of_nat (String.length base + 1))
             && (Z.of_nat (String.length base + 1)
                 <? Z.of_nat (String.length base + S (S (String.length rest))))) with true
      by (symmetry; apply andb_true_iff; split; [apply Z.leb_le|apply Z.ltb_lt]; lia).
    rewrite Nat2Z.id, get_app_right. simpl. done.
Qed.

(** X4. The key of a symbol in the demangled map: the demangled name, for a
    name without [@]; the demangled part before the [@], for a name that
    ends in [@] or holds a default version [@@<version>]; and the demangled
    part before the [@] followed by [@<version>] unchanged, for a name with
    a version that is not the default. *)
Theorem demangledName_of_versioned `{Collaborators} (base ver : string) (c : ascii) :
  has_char "@" base = false →
  str_size (base +:+ "@@" +:+ String c ver) < 2 ^ 64 →
  demangledName base = demangleItanium base
  ∧ demangledName (base +:+ "@") = demangleItanium base
  ∧ demangledName (base +:+ "@@" +:+ String c ver) = demangleItanium base
  ∧ (c ≠ "@"%char →
     demangledName (base +:+ "@" +:+ String c ver)
     = demangleItanium base +:+ "@" +:+ String c ver).
Proof.
  intros Hc Hsz.
  assert (Hlen : Z.of_nat (String.length base) + 3 + Z.of_nat (String.length ver) < 2 ^ 64).
  { unfold str_size in Hsz. rewrite string_length_app in Hsz. simpl in Hsz. lia. }
  split; [|split; [|split]].
  - unfold demangledName, str_find. by rewrite find_from_absent.
  - change (base +:+ "@") with (base +:+ String "@" EmptyString).
    rewrite demangledName_at; [done|done|].
    unfold str_size. rewrite string_length_app. simpl. lia.
  - change (base +:+ "@@" +:+ String c ver) with (base +:+ String "@" (String "@" (String c ver))).
    rewrite demangledName_at; [done|done|].
    unfold str_size. rewrite string_length_app. simpl. lia.
  - intros Hne.
    change (base +:+ "@" +:+ String c ver) with (base +:+ String "@" (String c ver)).
    rewrite demangledName_at; [|done|].
    + apply Ascii.eqb_neq in Hne. by rewrite Hne.
    + unfold str_size. rewrite string_length_app. simpl. lia.
Qed.

Lemma demangledName_of_versioned_witness :
  @demangledName example_collaborators "foo@@v1" = "foo"
  ∧ @demangledName example_collaborators "foo@v1" = "foo@v1".
Proof.
  destruct (@demangledName_of_versioned example_collaborators "foo" "1" "v"
              eq_refl ltac:(vm_compute; reflexivity)) as (_ & _ & Hd & Hn).
  split; [exact Hd|]. apply Hn. discriminate.
Defined.

(** The symbols of [symVector], in its order, that can be versioned and
    whose key in the demangled map is [k]. *)
Definition bucket `{Collaborators} (a : list Symbol) (vec : list nat) (k : string)
    : list nat :=
  List.filter (λ sym, match a !! sym with
                      | Some s => canBeVersioned s
                                  && bool_decide (demangledName (getName s) = k)
                      | None => false
                      end) vec.

Definition nonempty {A : Type} (l : list A) : option (list A) :=
  match l with [] => None | _ => Some l end.

Lemma nonempty_default {A : Type} (l : list A) : default [] (nonempty l) = l.
Proof. by destruct l. Qed.

Lemma nonempty_snoc {A : Type} (l : list A) x : nonempty (l ++ [x]) = Some (l ++ [x]).
Proof. by destruct l. Qed.

Section demangled_facts.
Context `{Collaborators}.

Lemma buildDemangledSyms_buckets a vec :
  (∀ sym, sym ∈ vec → is_Some (a !! sym)) →
  ∃ m, foldM (λ m sym,
                s ← a !! sym;
                if canBeVersioned s
                then Some (push_back_at (demangledName (getName s)) sym m)
                else Some m)
             ∅ vec = Some m
       ∧ ∀ k, m !! k = nonempty (bucket a vec k).
Proof.
  induction vec as [|sym vec IH] using rev_ind; intros Hvec.
  - exists ∅. split; [done|]. intros k. by rewrite lookup_empty.
  - destruct IH as (m & Hm & Hk).
    { intros x Hx. apply Hvec. apply elem_of_app. by left. }
    rewrite foldM_snoc, Hm. simpl.
    destruct (Hvec sym) as [s Hs]; [apply elem_of_app; right; by left|].
    rewrite Hs. simpl.
    assert (Hb : ∀ k, bucket a (vec ++ [sym]) k
                      = bucket a vec k
                        ++ (if canBeVersioned s
                               && bool_decide (demangledName (getName s) = k)
                            then [sym] else [])).
    { intros k. unfold bucket. rewrite List.filter_app. simpl. by rewrite Hs. }
    destruct (canBeVersioned s) eqn:Hcan.
    + eexists. split; [done|]. intros k. rewrite Hb. simpl.
      unfold push_back_at. destruct (decide (demangledName (getName s) = k)) as [->|Hne].
      * rewrite lookup_insert_eq, bool_decide_eq_true_2 by done.
        by rewrite Hk, nonempty_default, nonempty_snoc.
      * rewrite lookup_insert_ne, bool_decide_eq_false_2 by done.
        by rewrite app_nil_r.
    + exists m. split; [done|]. intros k. rewrite Hb. simpl. by rewrite app_nil_r.
Qed.

Lemma well_formed_pointers st :
  well_formed st → ∀ sym, sym ∈ symVector st → is_Some (arena st !! sym).
Proof.
  intros [_ Hptr] sym Hsym. apply list_elem_of_lookup in Hsym as [i Hi].
  apply lookup_lt_is_Some. by eapply Hptr.
Qed.
End demangled_facts.

(** X5. The first call of [getDemangledSyms] builds the map and stores it:
    under every key are the symbols of [symVector], in its order, that can
    be versioned and whose name has this key; no key holds an empty list, and
    a symbol that cannot be versioned is under no key. *)
Theorem getDemangledSyms_buckets `{Collaborators} (st : SymbolTable) :
  well_formed st →
  demangledSyms st = None →
  ∃ m,
    getDemangledSyms st
    = Some (m, mkSymbolTable (symMap st) (symVector st) (arena st) (Some m))
    ∧ (∀ k, default [] (m !! k) = bucket (arena st) (symVector st) k)
    ∧ (∀ k, m !! k ≠ Some [])
    ∧ (∀ k l sym, m !! k = Some l → sym ∈ l →
         sym ∈ symVector st
         ∧ ∃ s, arena st !! sym = Some s ∧ canBeVersioned s = true
                ∧ demangledName (getName s) = k).
Proof.
  intros Hwf Hnone.
  destruct (buildDemangledSyms_buckets (arena st) (symVector st)
              (well_formed_pointers st Hwf)) as (m & Hm & Hk).
  exists m. split; [|split; [|split]].
  - unfold getDemangledSyms. rewrite Hnone. unfold buildDemangledSyms. by rewrite Hm.
  - intros k. by rewrite Hk, nonempty_default.
  - intros k. rewrite Hk. by destruct (bucket _ _ k).
  - intros k l sym Hl Hsym. rewrite Hk in Hl.
    assert (l = bucket (arena st) (symVector st) k) as ->.
    { destruct (bucket _ _ k); simpl in Hl; congruence. }
    unfold bucket in Hsym. rewrite list_elem_of_In, filter_In, <- list_elem_of_In in Hsym.
    destruct Hsym as [Hin Hp]. split; [done|].
    destruct (arena st !! sym) as [s|]; [|done].
    apply andb_true_iff in Hp as [Hcan Hkey]. apply bool_decide_eq_true in Hkey.
    by exists s.
Qed.

Lemma getDemangledSyms_buckets_witness :
  ∃ m st1,
    @getDemangledSyms example_collaborators two_symbol_table = Some (m, st1)
    ∧ default [] (m !! "foo") = [0%nat].
Proof.
  destruct (@getDemangledSyms_buckets example_collaborators two_symbol_table
              (proj1 (validb_valid two_symbol_table eq_refl)) eq_refl)
    as (m & Hg & Hk & _).
  exists m. eexists. split; [exact Hg|]. rewrite Hk. reflexivity.
Defined.

(** X6. The demangled map is built once: with the map in place, a symbol
    added under a new name is in none of its lists, and [findByVersion] of an
    [extern "C++"] pattern still answers with the list the map holds for
    the pattern, so it does not return the new symbol. *)
Theorem demangled_map_is_built_once `{Collaborators} (st st2 : SymbolTable)
    (m : gmap string (list nat)) (newSym : Symbol) (sym : nat) (ver : SymbolVersion) :
  valid st →
  demangledSyms st = Some m →
  symMap st !! stripDefaultVersion (getName newSym) = None →
  addSymbol newSym st = Some (sym, st2) →
  isExternCpp ver = true →
  getDemangledSyms st2 = Some (m, st2)
  ∧ findByVersion ver st2 = Some (default [] (m !! ver_name ver), st2)
  ∧ sym ∉ default [] (m !! ver_name ver).
Proof.
  intros [Hwf Hcache] Hm Hnew Hadd Hext. unfold addSymbol in Hadd.
  rewrite (insert_miss _ _ Hnew) in Hadd. simpl in Hadd.
  rewrite lookup_app_r, Nat.sub_diag in Hadd by lia. simpl in Hadd.
  injection Hadd as <- <-.
  assert (Hg : ∀ a, getDemangledSyms
                      (mkSymbolTable
                         (<[stripDefaultVersion (getName newSym) := length (symVector st)]>
                            (symMap st))
                         (symVector st ++ [length (arena st)]) a (Some m))
                    = Some (m, mkSymbolTable
                         (<[stripDefaultVersion (getName newSym) := length (symVector st)]>
                            (symMap st))
                         (symVector st ++ [length (arena st)]) a (Some m))) by done.
  unfold with_arena. simpl. rewrite Hm.
  split; [apply Hg|]. split.
  - unfold findByVersion. rewrite Hext, Hg. done.
  - intros Hin. destruct (m !! ver_name ver) as [l|] eqn:Hl; simpl in Hin.
    + pose proof (Hcache _ _ _ _ Hm Hl Hin). lia.
    + by apply elem_of_nil in Hin.
Qed.

(** The table of [foo] and [abc] with its demangled map built. *)
Definition cached_table : SymbolTable :=
  mkSymbolTable (symMap two_symbol_table) (symVector two_symbol_table)
    (arena two_symbol_table)
    (Some (list_to_map [("foo", [0%nat]); ("abc", [1%nat])])).

Lemma demangled_map_is_built_once_witness :
  valid cached_table
  ∧ ∃ sym st2,
      @addSymbol example_collaborators (defined_symbol "bar") cached_table
      = Some (sym, st2)
      ∧ @findByVersion example_collaborators (mkSymbolVersion "bar" true false) st2
        = Some ([], st2).
Proof.
  split; [by apply validb_valid|].
  destruct (@addSymbol example_collaborators (defined_symbol "bar") cached_table)
    as [[sym st2]|] eqn:Hadd; [|by vm_compute in Hadd].
  exists sym, st2. split; [done|].
  destruct (@demangled_map_is_built_once example_collaborators cached_table st2
              (list_to_map [("foo", [0%nat]); ("abc", [1%nat])])
              (defined_symbol "bar") sym (mkSymbolVersion "bar" true false)
              (validb_valid cached_table eq_refl) eq_refl eq_refl Hadd eq_refl)
    as (_ & Hfind & _).
  exact Hfind.
Defined.

(** X7. [findByVersion] of a pattern that is not [extern "C++"] looks the
    name up as it is and leaves the table as it is: it returns at most one
    symbol, the one the name index binds the name of the pattern to, and only
    if that symbol can be versioned; for a name the index does not hold it
    returns nothing. *)
Theorem findByVersion_by_name `{Collaborators} (ver : SymbolVersion) (st : SymbolTable) :
  well_formed st →
  isExternCpp ver = false →
  ∃ syms,
    findByVersion ver st = Some (syms, st)
    ∧ (length syms ≤ 1)%nat
    ∧ (symMap st !! ver_name ver = None → syms = [])
    ∧ ∀ sym, sym ∈ syms
             ↔ ∃ i s, symMap st !! ver_name ver = Some i
                      ∧ symVector st !! i = Some sym
                      ∧ arena st !! sym = Some s
                      ∧ canBeVersioned s = true.
Proof.
  intros [Hidx Hptr] Hext. unfold findByVersion, find. rewrite Hext.
  destruct (symMap st !! ver_name ver) as [i|] eqn:Hi; simpl.
  - destruct (lookup_lt_is_Some_2 _ _ (Hidx _ _ Hi)) as [p Hp]. rewrite Hp. simpl.
    destruct (lookup_lt_is_Some_2 _ _ (Hptr _ _ Hp)) as [s Hs]. rewrite Hs. simpl.
    assert (Hkind : isPlaceholder s = true → canBeVersioned s = false).
    { unfold isPlaceholder, canBeVersioned, isDefined, isCommon, isLazy.
      intros Hk. apply bool_decide_eq_true in Hk. rewrite Hk. done. }
    destruct (isPlaceholder s) eqn:Hph; simpl.
    + exists []. split; [done|]. split; [simpl; lia|]. split; [done|].
      intros sym. split; [intros Hin; by apply elem_of_nil in Hin|].
      intros (i' & s' & Hi' & Hp' & Hs' & Hcan). simplify_eq.
      rewrite Hkind in Hcan; done.
    + rewrite Hs. simpl. destruct (canBeVersioned s) eqn:Hcan.
      * exists [p]. split; [done|]. split; [simpl; lia|]. split; [done|].
        intros sym. rewrite list_elem_of_singleton. split.
        -- intros ->. by exists i, s.
        -- intros (i' & s' & Hi' & Hp' & _). congruence.
      * exists []. split; [done|]. split; [simpl; lia|]. split; [done|].
        intros sym. split; [intros Hin; by apply elem_of_nil in Hin|].
        intros (i' & s' & Hi' & Hp' & Hs' & Hcan'). simplify_eq. congruence.
  - exists []. split; [done|]. split; [simpl; lia|]. split; [done|].
    intros sym. split; [intros Hin; by apply elem_of_nil in Hin|].
    intros (i' & s' & Hi' & _). done.
Qed.

Lemma findByVersion_by_name_witness :
  @findByVersion example_collaborators (exact_pattern "foo") two_symbol_table
  = Some ([0%nat], two_symbol_table).
Proof.
  destruct (@findByVersion_by_name example_collaborators (exact_pattern "foo")
              two_symbol_table (proj1 (validb_valid two_symbol_table eq_refl)) eq_refl)
    as (syms & Hf & _). rewrite Hf. vm_compute in Hf. by injection Hf as <-.
Defined.

(** X8. [findByVersion] of an [extern "C++"] pattern, on a table whose
    demangled map is not built yet: it returns the symbols of [symVector],
    in its order, that can be versioned and whose demangled key is the name
    of the pattern, and the only change to the table is the map. *)
Theorem findByVersion_extern_cpp `{Collaborators} (ver : SymbolVersion) (st : SymbolTable) :
  well_formed st →
  demangledSyms st = None →
  isExternCpp ver = true →
  ∃ m,
    findByVersion ver st
    = Some (bucket (arena st) (symVector st) (ver_name ver),
            mkSymbolTable (symMap st) (symVector st) (arena st) (Some m)).
Proof.
  intros Hwf Hnone Hext.
  destruct (buildDemangledSyms_buckets (arena st) (symVector st)
              (well_formed_pointers st Hwf)) as (m & Hm & Hk).
  exists m. unfold findByVersion, getDemangledSyms, buildDemangledSyms.
  rewrite Hext, Hnone, Hm. simpl. by rewrite Hk, nonempty_default.
Qed.

Lemma findByVersion_extern_cpp_witness :
  ∃ st1,
    @findByVersion example_collaborators (mkSymbolVersion "abc" true false)
      two_symbol_table = Some ([1%nat], st1).
Proof.
  destruct (@findByVersion_extern_cpp example_collaborators
              (mkSymbolVersion "abc" true false) two_symbol_table
              (proj1 (validb_valid two_symbol_table eq_refl)) eq_refl eq_refl)
    as (m & Hf).
  eexists. exact Hf.
Defined.

(** ** The symbol table: [handleDynamicList] *)

(** The arena [a'] holds the symbols of [a] under the same names and of the
    same kinds. *)
Definition same_identity (a a' : list Symbol) : Prop :=
  length a' = length a
  ∧ ∀ p s, a !! p = Some s →
           ∃ s', a' !! p = Some s' ∧ getName s' = getName s
                 ∧ symbolKind s' = symbolKind s.

(** The table [st'] is the table [st] up to what the searches do not read. *)
Definition same_table `{Collaborators} (st st' : SymbolTable) : Prop :=
  symMap st' = symMap st
  ∧ symVector st' = symVector st
  ∧ same_identity (arena st) (arena st')
  ∧ view st' = view st.

Lemma same_identity_refl a : same_identity a a.
Proof. split; [done|]. intros p s Hs. by exists s. Qed.

Lemma same_identity_trans a1 a2 a3 :
  same_identity a1 a2 → same_identity a2 a3 → same_identity a1 a3.
Proof.
  intros [Hl1 H1] [Hl2 H2]. split; [congruence|]. intros p s Hs.
  destruct (H1 _ _ Hs) as (s' & Hs' & Hn & Hk).
  destruct (H2 _ _ Hs') as (s'' & Hs'' & Hn' & Hk').
  exists s''. split; [done|]. split; congruence.
Qed.

Lemma same_identity_read {A : Type} a a' p (f : Symbol → option A) :
  same_identity a a' →
  (∀ s s', getName s' = getName s → symbolKind s' = symbolKind s → f s' = f s) →
  (a' !! p ≫= f) = (a !! p ≫= f).
Proof.
  intros [Hlen Hsame] Hf. destruct (a !! p) as [s|] eqn:Hs.
  - destruct (Hsame _ _ Hs) as (s' & -> & Hn & Hk). simpl. by apply Hf.
  - assert (a' !! p = None) as ->; [|done].
    apply lookup_ge_None. apply lookup_ge_None in Hs. lia.
Qed.

Lemma canBeVersioned_kind s s' :
  symbolKind s' = symbolKind s → canBeVersioned s' = canBeVersioned s.
Proof.
  intros Hk. unfold canBeVersioned, isDefined, isCommon, isLazy. by rewrite Hk.
Qed.

Section same_table_facts.
Context `{Collaborators}.

Lemma buildDemangledSyms_same st st' :
  symVector st' = symVector st →
  same_identity (arena st) (arena st') →
  buildDemangledSyms st' = buildDemangledSyms st.
Proof.
  intros Hvec Hsame. unfold buildDemangledSyms. rewrite Hvec.
  apply foldM_ext. intros m sym.
  apply (same_identity_read _ _ sym
           (λ s, if canBeVersioned s
                 then Some (push_back_at (demangledName (getName s)) sym m)
                 else Some m)); [done|].
  intros s s' Hn Hk. by rewrite (canBeVersioned_kind _ _ Hk), Hn.
Qed.

Lemma same_table_refl st : same_table st st.
Proof. split; [done|]. split; [done|]. split; [apply same_identity_refl|done]. Qed.

Lemma same_table_with_arena st a :
  same_identity (arena st) a → same_table st (with_arena a st).
Proof.
  intros Hsame. split; [done|]. split; [done|]. split; [done|].
  unfold view. simpl. destruct (demangledSyms st); [done|].
  by apply buildDemangledSyms_same.
Qed.

Lemma same_table_trans st1 st2 st3 :
  same_table st1 st2 → same_table st2 st3 → same_table st1 st3.
Proof.
  intros (Hm1 & Hv1 & Ha1 & Hw1) (Hm2 & Hv2 & Ha2 & Hw2).
  split; [congruence|]. split; [congruence|].
  split; [by eapply same_identity_trans|congruence].
Qed.

Lemma evolves_same_table st st' : evolves st st' → same_table st st'.
Proof.
  intros (Hm & Hv & [Hlen Has] & Hw). split; [done|]. split; [done|]. split; [|done].
  split; [done|]. intros p s Hs. destruct (Has _ _ Hs) as (s' & Hs' & Hadv).
  exists s'. split; [done|]. split; [by apply advances_name|by apply advances_kind].
Qed.

Lemma matchesExact_same st st' ver :
  same_table st st' → matchesExact ver st' = matchesExact ver st.
Proof.
  intros (Hm & Hv & Ha & Hw). rewrite !matchesExact_unfold. destruct (isExternCpp ver).
  - by rewrite Hw.
  - assert (Hfind : find (ver_name ver) st' = find (ver_name ver) st).
    { unfold find. rewrite Hm, Hv. destruct (symMap st !! ver_name ver) as [i|]; [|done].
      destruct (symVector st !! i) as [sym|]; [|done]. simpl.
      apply (same_identity_read _ _ sym
               (λ s, if isPlaceholder s then Some nullptr else Some (Some sym))); [done|].
      intros s s' _ Hk. unfold isPlaceholder. by rewrite Hk. }
    rewrite Hfind. destruct (find _ st) as [[sym|]|]; simpl; [|done..].
    apply (same_identity_read _ _ sym
             (λ s, if canBeVersioned s then Some [sym] else Some [])); [done|].
    intros s s' _ Hk. by rewrite (canBeVersioned_kind _ _ Hk).
Qed.

Lemma matchesAll_same st st' ver incl :
  same_table st st' → matchesAll ver incl st' = matchesAll ver incl st.
Proof.
  intros (Hm & Hv & Ha & Hw). rewrite !matchesAll_unfold. destruct (isExternCpp ver).
  - rewrite Hw. destruct (view st) as [m|]; simpl; [|done].
    unfold collectDemangled. apply foldM_ext. intros res p.
    destruct (matcher_match _ _); [|done]. apply foldM_ext. intros res' sym.
    apply (same_identity_read _ _ sym
             (λ s, if check incl (getName s) then Some (res' ++ [sym]) else Some res'));
      [done|].
    intros s s' Hn _. by rewrite Hn.
  - rewrite Hv. unfold collectPlain. apply foldM_ext. intros res sym.
    apply (same_identity_read _ _ sym
             (λ s, if canBeVersioned s && check incl (getName s)
                      && matcher_match (ver_name ver) (getName s)
                   then Some (res ++ [sym]) else Some res)); [done|].
    intros s s' Hn Hk. by rewrite Hn, (canBeVersioned_kind _ _ Hk).
Qed.
End same_table_facts.

(** The symbols a pattern of the dynamic list names in a table. *)
Definition dynamic_targets `{Collaborators} (ver : SymbolVersion) (st : SymbolTable)
    : option (list nat) :=
  if hasWildcard ver then matchesAll ver true st else matchesExact ver st.

(** The symbol [p] is named by a pattern of [vers]. *)
Definition listed `{Collaborators} (vers : list SymbolVersion) (st : SymbolTable)
    (p : nat) : Prop :=
  ∃ ver syms, ver ∈ vers ∧ dynamic_targets ver st = Some syms ∧ p ∈ syms.

Lemma set_inDynamicList_twice s :
  set_inDynamicList true (set_inDynamicList true s) = set_inDynamicList true s.
Proof. by destruct s. Qed.

(** The inner loop of [handleDynamicList]. *)
Lemma flag_loop (a : list Symbol) (syms : list nat) :
  (∀ sym, sym ∈ syms → (sym < length a)%nat) →
  ∃ a', foldM (λ a sym, s ← a !! sym; Some (<[sym := set_inDynamicList true s]> a))
              a syms = Some a'
        ∧ length a' = length a
        ∧ ∀ p s, a !! p = Some s →
                 a' !! p = Some (if bool_decide (p ∈ syms)
                                 then set_inDynamicList true s else s).
Proof.
  revert a. induction syms as [|sym syms IH]; intros a Hrange.
  - exists a. split; [done|]. split; [done|]. intros p s Hs.
    rewrite bool_decide_eq_false_2; [done|]. apply not_elem_of_nil.
  - destruct (lookup_lt_is_Some_2 a sym) as [s0 Hs0]; [apply Hrange; by left|].
    destruct (IH (<[sym := set_inDynamicList true s0]> a)) as (a' & Hrun & Hlen & Hall).
    { intros x Hx. rewrite length_insert. apply Hrange. by right. }
    exists a'. split; [simpl; rewrite Hs0; simpl; exact Hrun|].
    split; [by rewrite Hlen, length_insert|].
    intros p s Hs. destruct (decide (p = sym)) as [->|Hne].
    + assert (s0 = s) as -> by congruence.
      rewrite (Hall sym (set_inDynamicList true s))
        by (apply list_lookup_insert_eq; by eapply lookup_lt_Some).
      rewrite (bool_decide_eq_true_2 (sym ∈ sym :: syms)) by (by left).
      destruct (bool_decide (sym ∈ syms)); [by rewrite set_inDynamicList_twice|done].
    + rewrite (Hall p s) by (by rewrite list_lookup_insert_ne).
      f_equal. replace (bool_decide (p ∈ sym :: syms)) with (bool_decide (p ∈ syms));
        [done|].
      apply bool_decide_ext. rewrite elem_of_cons. tauto.
Qed.

Section handleDynamicList_facts.
Context `{Collaborators}.

Lemma dynamic_targets_same st st' ver :
  same_table st st' → dynamic_targets ver st' = dynamic_targets ver st.
Proof.
  intros Hsame. unfold dynamic_targets.
  destruct (hasWildcard ver); [by apply matchesAll_same|by apply matchesExact_same].
Qed.

Lemma listed_snoc vers ver st syms p :
  dynamic_targets ver st = Some syms →
  listed (vers ++ [ver]) st p ↔ listed vers st p ∨ p ∈ syms.
Proof.
  intros Ht. split.
  - intros (v & l & Hv & Hl & Hp). apply elem_of_app in Hv as [Hv|Hv].
    + left. by exists v, l.
    + apply list_elem_of_singleton in Hv as ->. right. congruence.
  - intros [(v & l & Hv & Hl & Hp)|Hp].
    + exists v, l. split; [apply elem_of_app; by left|done].
    + exists ver, syms. split; [apply elem_of_app; right; by left|done].
Qed.

(** The loop of [handleDynamicList] over the patterns [vers]. *)
Lemma dynamic_loop vers st :
  valid st →
  ∃ st',
    foldM (λ st ver,
             '(syms, st) ← (if hasWildcard ver then findAllByVersion ver true st
                            else findByVersion ver st);
             a ← foldM (λ a sym, s ← a !! sym;
                                 Some (<[sym := set_inDynamicList true s]> a))
                       (arena st) syms;
             Some (with_arena a st))
          st vers = Some st'
    ∧ valid st'
    ∧ same_table st st'
    ∧ ∀ p s, arena st !! p = Some s →
             ∃ s', arena st' !! p = Some s'
                   ∧ ((listed vers st p ∧ s' = set_inDynamicList true s)
                      ∨ (¬ listed vers st p ∧ s' = s)).
Proof.
  intros Hvalid. induction vers as [|ver vers IH] using rev_ind.
  - exists st. split; [done|]. split; [done|]. split; [apply same_table_refl|].
    intros p s Hs. exists s. split; [done|]. right. split; [|done].
    intros (v & l & Hv & _). by apply elem_of_nil in Hv.
  - destruct IH as (st1 & Hrun & Hv1 & Hsame1 & Hall).
    rewrite foldM_snoc, Hrun. simpl.
    assert (Hfind : ∃ syms st2,
              (if hasWildcard ver then findAllByVersion ver true st1
               else findByVersion ver st1) = Some (syms, st2)
              ∧ dynamic_targets ver st1 = Some syms
              ∧ (∀ sym, sym ∈ syms → (sym < length (arena st1))%nat)
              ∧ evolves st1 st2 ∧ arena st2 = arena st1).
    { unfold dynamic_targets, matchesAll, matchesExact. destruct (hasWildcard ver).
      - destruct (findAllByVersion_total ver true st1 Hv1) as (syms & st2 & Hf & Hs).
        exists syms, st2. rewrite Hf. do 3 (split; [done|]).
        by eapply findAllByVersion_evolves.
      - destruct (findByVersion_total ver st1 Hv1) as (syms & st2 & Hf & Hs).
        exists syms, st2. rewrite Hf. do 3 (split; [done|]).
        by eapply findByVersion_evolves. }
    destruct Hfind as (syms & st2 & -> & Ht & Hrange & Hev & Harena). simpl.
    rewrite (dynamic_targets_same _ _ _ Hsame1) in Ht.
    destruct (flag_loop (arena st2) syms) as (a & -> & Hlen & Hflag);
      [by rewrite Harena|].
    simpl. eexists. split; [done|].
    assert (Hid : same_identity (arena st2) a).
    { split; [done|]. intros p s Hs. rewrite (Hflag _ _ Hs). eexists. split; [done|].
      by destruct (bool_decide _). }
    split; [apply valid_with_arena; [by eapply evolves_valid|done]|].
    split.
    { eapply same_table_trans; [exact Hsame1|].
      eapply same_table_trans; [by apply evolves_same_table|].
      by apply same_table_with_arena. }
    intros p s Hs. destruct (Hall _ _ Hs) as (s1 & Hs1 & Hcase).
    rewrite <- Harena in Hs1. simpl. rewrite (Hflag _ _ Hs1). eexists. split; [done|].
    rewrite (listed_snoc _ _ _ _ _ Ht).
    destruct (decide (p ∈ syms)) as [Hin|Hout].
    + rewrite bool_decide_eq_true_2 by done. left. split; [by right|].
      destruct Hcase as [[_ ->]|[_ ->]]; [apply set_inDynamicList_twice|done].
    + rewrite bool_decide_eq_false_2 by done.
      destruct Hcase as [[Hl ->]|[Hn ->]]; [left; split; [by left|done]|].
      right. split; [|done]. intros [?|?]; done.
Qed.
End handleDynamicList_facts.

(** X9. [handleDynamicList] goes through on a valid table and marks the
    symbols the dynamic list names, no others: a symbol a pattern of the list
    finds, by [findAllByVersion] with the names of a version included for a
    pattern with a wildcard and by [findByVersion] for one without, has
    [inDynamicList] set and is otherwise as before; every other symbol is
    as before; no mark is cleared; and the name index and [symVector] are as
    before. *)
Theorem handleDynamicList_marks `{Collaborators} (config : Configuration)
    (st : SymbolTable) :
  valid st →
  ∃ st',
    handleDynamicList config st = Some st'
    ∧ symMap st' = symMap st
    ∧ symVector st' = symVector st
    ∧ length (arena st') = length (arena st)
    ∧ ∀ p s, arena st !! p = Some s →
             ∃ s', arena st' !! p = Some s'
                   ∧ ((listed (dynamicList config) st p
                       ∧ s' = set_inDynamicList true s)
                      ∨ (¬ listed (dynamicList config) st p ∧ s' = s)).
Proof.
  intros Hvalid.
  destruct (dynamic_loop (dynamicList config) st Hvalid)
    as (st' & Hrun & _ & (Hm & Hv & [Hlen _] & _) & Hall).
  exists st'. by repeat split.
Qed.

Lemma handleDynamicList_marks_witness :
  valid two_symbol_table
  ∧ ∃ st',
      @handleDynamicList example_collaborators
        (mkConfiguration [] false [wildcard_pattern "f*"]) two_symbol_table = Some st'
      ∧ (inDynamicList <$> arena st') = [true; false].
Proof.
  split; [by apply validb_valid|].
  destruct (@handleDynamicList_marks example_collaborators
              (mkConfiguration [] false [wildcard_pattern "f*"]) two_symbol_table
              (validb_valid two_symbol_table eq_refl)) as (st' & Hrun & _).
  exists st'. split; [exact Hrun|].
  vm_compute in Hrun. injection Hrun as <-. reflexivity.
Defined.

(** ** Version assignment: [assignWildcardVersion] *)

(** X10. [assignWildcardVersion] gives its version to the symbols
    [findAllByVersion] returns that have no version yet, leaves every other
    symbol as it is, a symbol with a version in particular, and reports
    nothing; so the first wildcard that matches a symbol wins: a second call
    for the same pattern, with whatever version, changes nothing. *)
Theorem assignWildcardVersion_first_wins `{Collaborators} (ver : SymbolVersion)
    (id id' : Z) (incl : bool) (st st1 st2 : SymbolTable) (ds ds1 ds2 : list Diagnostic) :
  assignWildcardVersion ver id incl (st, ds) = Some (st1, ds1) →
  assignWildcardVersion ver id' incl (st1, ds1) = Some (st2, ds2) →
  ∃ targets,
    matchesAll ver incl st = Some targets
    ∧ (∀ p s, arena st !! p = Some s →
         arena st1 !! p
         = Some (if bool_decide (p ∈ targets) && (verdefIndex s =? UINT32_MINUS_1)
                 then set_version id s else s))
    ∧ ds1 = ds
    ∧ arena st2 = arena st1
    ∧ ds2 = ds.
Proof.
  intros Hrun1 Hrun2.
  destruct (assignWildcardVersion_spec _ _ _ _ _ _ _ Hrun1)
    as (targets & Ht & Hev & Hout & ->).
  destruct (assignWildcardVersion_spec _ _ _ _ _ _ _ Hrun2)
    as (targets' & Ht' & Hev' & Hout' & ->).
  rewrite (matchesAll_evolves _ _ _ _ Hev) in Ht'.
  assert (targets' = targets) as -> by congruence.
  assert (Hfirst : ∀ p s, arena st !! p = Some s →
            arena st1 !! p
            = Some (if bool_decide (p ∈ targets) && (verdefIndex s =? UINT32_MINUS_1)
                    then set_version id s else s)).
  { intros p s Hs. rewrite (Hout _ _ Hs). unfold rule_outcome, rule_hits, rule_skips.
    simpl. by rewrite andb_true_r. }
  exists targets. do 3 (split; [done|]). split; [|done].
  apply list_eq. intros p.
  destruct (arena st !! p) as [s|] eqn:Hs.
  - rewrite (Hout' _ _ (Hfirst _ _ Hs)), (Hfirst _ _ Hs). f_equal.
    unfold rule_outcome, rule_hits, rule_skips. simpl. rewrite andb_true_r.
    destruct (bool_decide (p ∈ targets)); simpl; [|done].
    destruct (verdefIndex s =? UINT32_MINUS_1) eqn:Hun; simpl; [done|].
    by rewrite Hun.
  - pose proof (assigns_None _ _ _ (proj1 (proj2 (proj2 Hev))) Hs) as Hs1.
    by rewrite (assigns_None _ _ _ (proj1 (proj2 (proj2 Hev'))) Hs1), Hs1.
Qed.

Lemma assignWildcardVersion_first_wins_witness :
  ∃ st1 st2,
    @assignWildcardVersion example_collaborators (wildcard_pattern "f*") 2 false
      (two_symbol_table, []) = Some (st1, [])
    ∧ @assignWildcardVersion example_collaborators (wildcard_pattern "f*") 3 false
        (st1, []) = Some (st2, [])
    ∧ (versionId <$> arena st2) = [2; 1].
Proof.
  destruct (@assignWildcardVersion example_collaborators (wildcard_pattern "f*") 2 false
              (two_symbol_table, [])) as [[st1 ds1]|] eqn:H1; [|by vm_compute in H1].
  destruct (@assignWildcardVersion example_collaborators (wildcard_pattern "f*") 3 false
              (st1, ds1)) as [[st2 ds2]|] eqn:H2;
    [|vm_compute in H1; injection H1 as <- <-; by vm_compute in H2].
  destruct (@assignWildcardVersion_first_wins example_collaborators _ _ _ _ _ _ _ _ _ _
              H1 H2) as (targets & _ & _ & -> & Harena & ->).
  exists st1, st2. do 2 (split; [done|]). rewrite Harena.
  vm_compute in H1. injection H1 as <-. reflexivity.
Defined.

(** ** Version assignment: the symbols that cannot be versioned *)

Section versionable.
Context `{Collaborators}.

Lemma view_versionable st m :
  well_formed st → demangledSyms st = None → view st = Some m →
  ∀ k l sym, m !! k = Some l → sym ∈ l →
             ∃ s, arena st !! sym = Some s ∧ canBeVersioned s = true.
Proof.
  intros Hwf Hnone Hview k l sym Hl Hsym.
  destruct (buildDemangledSyms_buckets (arena st) (symVector st)
              (well_formed_pointers st Hwf)) as (m' & Hm' & Hk).
  unfold view in Hview. rewrite Hnone in Hview. unfold buildDemangledSyms in Hview.
  assert (m' = m) as -> by congruence.
  rewrite Hk in Hl.
  assert (l = bucket (arena st) (symVector st) k) as ->.
  { destruct (bucket _ _ k); simpl in Hl; congruence. }
  unfold bucket in Hsym. rewrite list_elem_of_In, filter_In in Hsym.
  destruct Hsym as [_ Hp]. destruct (arena st !! sym) as [s|]; [|done].
  apply andb_true_iff in Hp as [Hcan _]. by exists s.
Qed.

(** Every symbol a rule is applied to can be versioned. *)
Lemma targets_versionable r st targets p :
  well_formed st → demangledSyms st = None →
  rule_targets r st = Some targets → p ∈ targets →
  ∃ s', arena st !! p = Some s' ∧ canBeVersioned s' = true.
Proof.
  intros Hwf Hnone Ht Hp. unfold rule_targets in Ht.
  destruct (rule_exact r).
  - rewrite matchesExact_unfold in Ht. destruct (isExternCpp (rule_pattern r)).
    + destruct (view st) as [m|] eqn:Hview; simplify_eq/=.
      destruct (m !! ver_name (rule_pattern r)) as [l|] eqn:Hl; simpl in Hp.
      * by eapply view_versionable.
      * by apply elem_of_nil in Hp.
    + destruct (find _ st) as [[sym|]|]; simplify_eq/=.
      * destruct (arena st !! sym) as [s'|] eqn:Hs'; simplify_eq/=.
        destruct (canBeVersioned s') eqn:Hcan; simplify_eq/=.
        -- apply list_elem_of_singleton in Hp as ->. eauto.
        -- by apply elem_of_nil in Hp.
      * by apply elem_of_nil in Hp.
  - rewrite matchesAll_unfold in Ht. destruct (isExternCpp (rule_pattern r)).
    + destruct (view st) as [m|] eqn:Hview; simplify_eq/=.
      revert p Hp. unfold collectDemangled in Ht.
      eapply (foldM_invariant
                (λ res : list nat, ∀ p, p ∈ res →
                   ∃ s', arena st !! p = Some s' ∧ canBeVersioned s' = true));
        [| |exact Ht].
      * intros p Hp. by apply elem_of_nil in Hp.
      * intros res [k l] res' Hkl Hres. simpl.
        apply elem_of_map_to_list in Hkl.
        destruct (matcher_match _ _); [|by intros [= <-]].
        intros Hinner.
        eapply (foldM_invariant
                  (λ res : list nat, ∀ p, p ∈ res →
                     ∃ s', arena st !! p = Some s' ∧ canBeVersioned s' = true));
          [exact Hres| |exact Hinner].
        intros res1 sym res2 Hsym Hres1 Hbody.
        cbv beta in Hbody.
        destruct (arena st !! sym) as [s'|] eqn:Hs'; simpl in Hbody; [|done].
        destruct (check (rule_includeNonDefault r) (getName s'));
          injection Hbody as <-; [|done].
        intros p Hp. apply elem_of_app in Hp as [Hp|Hp]; [by apply Hres1|].
        apply list_elem_of_singleton in Hp as ->.
        by eapply view_versionable.
    + revert p Hp. unfold collectPlain in Ht.
      eapply (foldM_invariant
                (λ res : list nat, ∀ p, p ∈ res →
                   ∃ s', arena st !! p = Some s' ∧ canBeVersioned s' = true));
        [| |exact Ht].
      * intros p Hp. by apply elem_of_nil in Hp.
      * intros res sym res' _ Hres Hbody.
        cbv beta in Hbody.
        destruct (arena st !! sym) as [s'|] eqn:Hs'; simpl in Hbody; [|done].
        destruct (canBeVersioned s') eqn:Hcan; simpl in Hbody;
          [|by injection Hbody as <-].
        destruct (check (rule_includeNonDefault r) (getName s')
                  && matcher_match (ver_name (rule_pattern r)) (getName s'));
          injection Hbody as <-; [|done].
        intros p Hp. apply elem_of_app in Hp as [Hp|Hp]; [by apply Hres|].
        apply list_elem_of_singleton in Hp as ->. eauto.
Qed.
End versionable.

(** X11. A version script touches only the symbols that can be versioned:
    on a valid table whose demangled map is not built yet, [scanVersionScript]
    goes through, a symbol that is not defined, common or lazy is as it was
    after the three loops, and it has the version id and the [verdefIndex] it
    had at the end. *)
Theorem scanVersionScript_skips_unversionable `{Collaborators} `{SymbolParser}
    (config : Configuration) (st : SymbolTable) (ds : list Diagnostic) :
  valid st →
  demangledSyms st = None →
  ∃ w1 w2 w3 w4,
    exactPass config (st, ds) = Some w1
    ∧ wildcardPass config w1 = Some w2
    ∧ starPass config w2 = Some w3
    ∧ scanVersionScript config (st, ds) = Some w4
    ∧ ∀ p s, arena st !! p = Some s → canBeVersioned s = false →
             arena w3.1 !! p = Some s
             ∧ ∃ s4, arena w4.1 !! p = Some s4
                     ∧ versionId s4 = versionId s
                     ∧ verdefIndex s4 = verdefIndex s.
Proof.
  intros Hvalid Hnone.
  destruct (passes_resolve config st ds Hvalid)
    as (w1 & w2 & w3 & H1 & H2 & H3 & Hv3 & _ & _ & Hi3 & _).
  destruct (scanVersionScript_total config st ds w1 w2 w3 H1 H2 H3 Hv3)
    as (st' & Hscan & Hkeep).
  exists w1, w2, w3, (st', w3.2). do 4 (split; [done|]).
  intros p s Hs Hcan.
  assert (Hs3 : arena w3.1 !! p = Some s).
  { rewrite (proj2 (proj1 Hi3) _ _ Hs). f_equal. unfold script_outcome.
    destruct (verdefIndex s =? UINT32_MINUS_1); [|done].
    rewrite find_misses; [done|]. intros r _. unfold hits.
    destruct (rule_targets r st) as [targets|] eqn:Ht; [|done].
    unfold rule_hits. destruct (decide (p ∈ targets)) as [Hin|Hout].
    - destruct (targets_versionable _ _ _ _ (proj1 Hvalid) Hnone Ht Hin)
        as (s' & Hs' & Hcan'). congruence.
    - by rewrite bool_decide_eq_false_2. }
  split; [done|]. by apply (proj2 Hkeep).
Qed.

Lemma scanVersionScript_skips_unversionable_witness :
  valid wrap_table
  ∧ ∃ w4,
      @scanVersionScript example_collaborators example_parser
        (script [("V1", [wildcard_pattern "*"])] false) (wrap_table, []) = Some w4
      ∧ (versionId <$> arena w4.1) = [2; 1; 2].
Proof.
  split; [by apply validb_valid|].
  destruct (@scanVersionScript_skips_unversionable example_collaborators example_parser
              (script [("V1", [wildcard_pattern "*"])] false) wrap_table []
              (validb_valid wrap_table eq_refl) eq_refl)
    as (w1 & w2 & w3 & w4 & _ & _ & _ & Hscan & _).
  exists w4. split; [exact Hscan|].
  vm_compute in Hscan. injection Hscan as <-. reflexivity.
Defined.

(** ** Call-graph sorting: [getLeader] *)

(** The chain of leaders from [v] reaches the root [r] in [k] steps. *)
Inductive climbs (leaders : list nat) : nat → nat → nat → Prop :=
  | climbs_root v : leaders !! v = Some v → climbs leaders 0 v v
  | climbs_step k v p r :
      leaders !! v = Some p → p ≠ v → climbs leaders k p r →
      climbs leaders (S k) v r.

Lemma climbs_functional leaders k k' v r r' :
  climbs leaders k v r → climbs leaders k' v r' → k = k' ∧ r = r'.
Proof.
  intros Hc. revert k' r'. induction Hc as [v Hv|k v p r Hv Hne Hc IH]; intros k' r' Hc'.
  - inversion Hc'; simplify_eq; done.
  - inversion Hc' as [|k0 v0 p0 r0 Hv0 Hne0 Hc0]; simplify_eq.
    destruct (IH _ _ Hc0) as [-> ->]. done.
Qed.

Lemma climbs_root_inv leaders k v r : climbs leaders k v r → leaders !! r = Some r.
Proof. induction 1; done. Qed.

(** The indices of a chain are all different, so a chain is shorter than the
    list of the leaders. *)
Lemma climbs_path leaders k v r :
  climbs leaders k v r →
  ∃ path, length path = S k ∧ NoDup path
          ∧ ∀ x, x ∈ path → (x < length leaders)%nat
                            ∧ ∃ j, (j ≤ k)%nat ∧ climbs leaders j x r.
Proof.
  induction 1 as [v Hv|k v p r Hv Hne Hc (path & Hlen & Hnd & Hall)].
  - exists [v]. split; [done|]. split; [apply NoDup_singleton|].
    intros x Hx. apply list_elem_of_singleton in Hx as ->.
    split; [by eapply lookup_lt_Some|]. exists 0%nat. split; [done|by constructor].
  - exists (v :: path). split; [simpl; by rewrite Hlen|]. split.
    + apply NoDup_cons. split; [|done]. intros Hin.
      destruct (Hall _ Hin) as (_ & j & Hj & Hcj).
      assert (Hcv : climbs leaders (S k) v r) by (by econstructor).
      destruct (climbs_functional _ _ _ _ _ _ Hcj Hcv). lia.
    + intros x Hx. apply elem_of_cons in Hx as [->|Hx].
      * split; [by eapply lookup_lt_Some|]. exists (S k). split; [done|by econstructor].
      * destruct (Hall _ Hx) as (Hlt & j & Hj & Hcj). split; [done|].
        exists j. split; [lia|done].
Qed.

Lemma climbs_short leaders k v r : climbs leaders k v r → (k < length leaders)%nat.
Proof.
  intros Hc. destruct (climbs_path _ _ _ _ Hc) as (path & Hlen & Hnd & Hall).
  assert (Hsub : path ⊆+ seq 0 (length leaders)).
  { apply NoDup_submseteq; [done|]. intros x Hx. apply elem_of_seq.
    destruct (Hall _ Hx). lia. }
  apply submseteq_length in Hsub. rewrite length_seq in Hsub. lia.
Qed.

(** One step of path halving keeps the root of every index and makes no
    chain longer. *)
Lemma halving_keeps_roots leaders v lv llv :
  leaders !! v = Some lv → lv ≠ v → leaders !! lv = Some llv →
  ∀ j x r, climbs leaders j x r →
           ∃ j', (j' ≤ j)%nat ∧ climbs (<[v := llv]> leaders) j' x r.
Proof.
  intros Hv Hne Hlv j. induction j as [j IH] using lt_wf_ind. intros x r Hc.
  assert (Hlt : (v < length leaders)%nat) by (by eapply lookup_lt_Some).
  destruct (decide (x = v)) as [Hxv|Hxv].
  - subst x. destruct Hc as [v Hroot|k v p r Hp Hpne Hcp]; [congruence|].
    assert (p = lv) by congruence. subst p.
    destruct (decide (llv = lv)) as [Heq|Hne2].
    { subst llv. exists (S k). split; [done|]. rewrite list_insert_id by done.
      by econstructor. }
    assert (Hcv : climbs leaders (S k) v r) by (by econstructor).
    destruct Hcp as [lv Hroot|k2 lv p2 r Hp2 Hpne2 Hcp2]; [congruence|].
    assert (p2 = llv) by congruence. subst p2.
    destruct (IH k2 ltac:(lia) _ _ Hcp2) as (j' & Hj' & Hc').
    exists (S j'). split; [lia|].
    apply (climbs_step _ _ _ llv); [by apply list_lookup_insert_eq| |done].
    intros Heq. subst llv.
    destruct (climbs_functional _ _ _ _ _ _ Hcv Hcp2). lia.
  - destruct Hc as [x Hroot|k x p r Hp Hpne Hcp].
    + exists 0%nat. split; [done|]. constructor. by rewrite list_lookup_insert_ne.
    + destruct (IH k ltac:(lia) _ _ Hcp) as (j' & Hj' & Hc').
      exists (S j'). split; [lia|].
      apply (climbs_step _ _ _ p); [by rewrite list_lookup_insert_ne|done|done].
Qed.

Lemma getLeader_loop_climbs fuel leaders k v r :
  climbs leaders k v r → (k < fuel)%nat →
  ∃ leaders',
    getLeader_loop fuel leaders v = Some (leaders', r)
    ∧ length leaders' = length leaders
    ∧ ∀ j x r', climbs leaders j x r' →
                ∃ j', (j' ≤ j)%nat ∧ climbs leaders' j' x r'.
Proof.
  revert leaders k v. induction fuel as [|fuel IH]; intros leaders k v Hc Hfuel; [lia|].
  destruct Hc as [v Hroot|k1 v lv r Hv Hne Hc1].
  - exists leaders. simpl. rewrite Hroot. simpl.
    rewrite bool_decide_eq_false_2 by (by intros ?).
    split; [done|]. split; [done|]. intros j x r' Hj. exists j. by split.
  - simpl. rewrite Hv. simpl. rewrite bool_decide_eq_true_2 by done.
    assert (Hllv : ∃ llv k2, leaders !! lv = Some llv ∧ (k2 ≤ k1)%nat
                             ∧ climbs leaders k2 llv r).
    { destruct Hc1 as [lv Hroot|k2 lv llv r Hlv Hne2 Hc2].
      - exists lv, 0%nat. split; [done|]. split; [lia|by constructor].
      - exists llv, k2. split; [done|]. split; [lia|done]. }
    destruct Hllv as (llv & k2 & Hlv & Hk2 & Hc2). rewrite Hlv. simpl.
    destruct (halving_keeps_roots leaders v lv llv Hv Hne Hlv _ _ _ Hc2)
      as (k3 & Hk3 & Hc3).
    destruct (IH _ _ _ Hc3 ltac:(lia)) as (leaders' & Hrun & Hlen & Hkeep).
    exists leaders'. split; [done|]. split; [by rewrite Hlen, length_insert|].
    intros j x r' Hj.
    destruct (halving_keeps_roots leaders v lv llv Hv Hne Hlv _ _ _ Hj)
      as (j1 & Hj1 & Hcj1).
    destruct (Hkeep _ _ _ Hcj1) as (j2 & Hj2 & Hcj2).
    exists j2. split; [lia|done].
Qed.

(** X12. [getLeader] returns for every index whose chain of leaders reaches
    a root: it returns that root, and the path halving on the way keeps the
    length of the list, the root of every index and the roots themselves,
    and makes no chain longer; a second call for the root changes nothing. *)
Theorem getLeader_finds_root (leaders : list nat) (k v r : nat) :
  climbs leaders k v r →
  ∃ leaders',
    getLeader leaders v = Some (leaders', r)
    ∧ length leaders' = length leaders
    ∧ (∀ j x r', climbs leaders j x r' →
                 ∃ j', (j' ≤ j)%nat ∧ climbs leaders' j' x r')
    ∧ (∀ x, leaders !! x = Some x → leaders' !! x = Some x)
    ∧ getLeader leaders' r = Some (leaders', r).
Proof.
  intros Hc. pose proof (climbs_short _ _ _ _ Hc) as Hk.
  destruct (getLeader_loop_climbs (S (length leaders)) leaders k v r Hc ltac:(lia))
    as (leaders' & Hrun & Hlen & Hkeep).
  exists leaders'. split; [done|]. split; [done|]. split; [done|].
  assert (Hroots : ∀ x, leaders !! x = Some x → leaders' !! x = Some x).
  { intros x Hx. destruct (Hkeep 0%nat x x (climbs_root _ _ Hx)) as (j' & Hj' & Hc').
    assert (j' = 0%nat) as -> by lia. by inversion Hc'. }
  split; [done|].
  unfold getLeader. simpl.
  rewrite (Hroots r (climbs_root_inv _ _ _ _ Hc)). simpl.
  by rewrite bool_decide_eq_false_2 by (by intros ?).
Qed.

Lemma getLeader_finds_root_witness :
  climbs [0; 0; 1; 2]%nat 3 3 0
  ∧ getLeader [0; 0; 1; 2]%nat 3 = Some ([0; 0; 1; 1]%nat, 0%nat).
Proof.
  assert (Hc : climbs [0; 0; 1; 2]%nat 3 3 0).
  { apply (climbs_step _ _ _ 2%nat); [done|done|].
    apply (climbs_step _ _ _ 1%nat); [done|done|].
    apply (climbs_step _ _ _ 0%nat); [done|done|]. by constructor. }
  split; [exact Hc|].
  destruct (getLeader_finds_root _ _ _ _ Hc) as (leaders' & Hrun & _).
  rewrite Hrun. vm_compute in Hrun. by injection Hrun as <-.
Defined.

(** ** Call-graph sorting: what the merge loop keeps *)

(** [prev] is the inverse of [next]: the clusters are doubly linked. *)
Definition doubly_linked (cs : list Cluster) : Prop :=
  ∀ x c, cs !! x = Some c →
         (∃ d, cs !! next c = Some d ∧ prev d = x)
         ∧ (∃ d, cs !! prev c = Some d ∧ next d = x).

Definition Zsum (l : list Z) : Z := foldr Z.add 0 l.

(** The sum of a field over the clusters. *)
Definition total (f : Cluster → Z) (cs : list Cluster) : Z := Zsum (f <$> cs).

Lemma Zsum_insert l i v w :
  l !! i = Some v → Zsum (<[i := w]> l) = Zsum l - v + w.
Proof.
  revert i. induction l as [|a l IH]; intros i Hi; [done|].
  destruct i as [|i]; simpl in *.
  - injection Hi as ->. lia.
  - rewrite (IH _ Hi). lia.
Qed.

Lemma u64_sum_absorbs t a b : u64 (t - a - b + u64 (a + b)) = u64 t.
Proof.
  unfold u64. rewrite (Z.mod_eq (a + b)) by lia.
  replace (t - a - b + (a + b - 2 ^ 64 * ((a + b) / 2 ^ 64)))
    with (t + (- ((a + b) / 2 ^ 64)) * 2 ^ 64) by lia.
  apply Z_mod_plus_full.
Qed.

Lemma mergeClusters_inputs cs into from cs' :
  mergeClusters cs into from = Some cs' →
  ∃ ci cf, cs !! into = Some ci ∧ cs !! from = Some cf.
Proof.
  unfold mergeClusters. intros Hm.
  destruct (cs !! into) as [ci|]; [|done].
  destruct (cs !! from) as [cf|]; [|done]. eauto.
Qed.

Lemma doubly_linked_range cs x c :
  doubly_linked cs → cs !! x = Some c →
  (next c < length cs)%nat ∧ (prev c < length cs)%nat.
Proof.
  intros Hdl Hx. destruct (Hdl _ _ Hx) as [(d & Hd & _) (d' & Hd' & _)].
  split; by eapply lookup_lt_Some.
Qed.

(** [mergeClusters] on two different clusters keeps the clusters doubly
    linked. *)
Lemma mergeClusters_doubly_linked cs into from cs' :
  doubly_linked cs → into ≠ from →
  mergeClusters cs into from = Some cs' → doubly_linked cs'.
Proof.
  intros Hdl Hne Hm.
  destruct (mergeClusters_inputs _ _ _ _ Hm) as (ci & cf & Hci & Hcf).
  destruct (doubly_linked_range _ _ _ Hdl Hci) as [_ Ht1].
  destruct (doubly_linked_range _ _ _ Hdl Hcf) as [_ Ht2].
  destruct (mergeClusters_spec cs into from ci cf Hne Hci Hcf Ht1 Ht2)
    as (cs'' & Hm' & Hlen & Hspec).
  assert (cs'' = cs') as -> by congruence.
  destruct (Hdl _ _ Hci) as [_ (d1 & Hd1 & Hn1)].
  destruct (Hdl _ _ Hcf) as [_ (d2 & Hd2 & Hn2)].
  assert (Htails : prev ci ≠ prev cf) by (intros Heq; rewrite Heq in Hd1; congruence).
  assert (Hfield : ∀ y d, cs !! y = Some d →
            ∃ d', cs' !! y = Some d'
              ∧ next d' = (if decide (y = prev ci) then from
                           else if decide (y = prev cf) then into else next d)
              ∧ prev d' = (if decide (y = from) then prev ci
                           else if decide (y = into) then prev cf else prev d)).
  { intros y d Hy. destruct (Hspec _ _ Hy) as (d' & ? & ? & ? & _). eauto. }
  intros x c' Hx'.
  destruct (lookup_lt_is_Some_2 cs x) as [c Hx];
    [rewrite <- Hlen; by eapply lookup_lt_Some|].
  destruct (Hfield _ _ Hx) as (c'' & Hx'' & Hnext & Hprev).
  assert (c'' = c') as -> by congruence.
  destruct (Hdl _ _ Hx) as [(dn & Hdn & Hpn) (dp & Hdp & Hnp)].
  split.
  - rewrite Hnext. destruct (decide (x = prev ci)) as [->|Hx1].
    + destruct (Hfield _ _ Hcf) as (d' & Hd' & _ & Hp'). exists d'. split; [done|].
      rewrite Hp'. by rewrite decide_True.
    + destruct (decide (x = prev cf)) as [->|Hx2].
      * destruct (Hfield _ _ Hci) as (d' & Hd' & _ & Hp'). exists d'. split; [done|].
        rewrite Hp'. rewrite decide_False by done. by rewrite decide_True.
      * destruct (Hfield _ _ Hdn) as (d' & Hd' & _ & Hp'). exists d'. split; [done|].
        rewrite Hp'. destruct (decide (next c = from)) as [Heq|?].
        { rewrite Heq in Hdn. congruence. }
        destruct (decide (next c = into)) as [Heq|?]; [|done].
        rewrite Heq in Hdn. congruence.
  - rewrite Hprev. destruct (decide (x = from)) as [->|Hx1].
    + destruct (Hfield _ _ Hd1) as (d' & Hd' & Hn' & _). exists d'. split; [done|].
      rewrite Hn'. by rewrite decide_True.
    + destruct (decide (x = into)) as [->|Hx2].
      * destruct (Hfield _ _ Hd2) as (d' & Hd' & Hn' & _). exists d'. split; [done|].
        rewrite Hn'. rewrite decide_False by done. by rewrite decide_True.
      * destruct (Hfield _ _ Hdp) as (d' & Hd' & Hn' & _). exists d'. split; [done|].
        rewrite Hn'. destruct (decide (prev c = prev ci)) as [Heq|?].
        { rewrite Heq in Hdp. congruence. }
        destruct (decide (prev c = prev cf)) as [Heq|?]; [|done].
        rewrite Heq in Hdp. congruence.
Qed.

(** [mergeClusters] moves the size and the weight of [from] to [into]: the
    sums over the clusters are the same in [uint64_t]. *)
Lemma mergeClusters_totals cs into from cs' :
  doubly_linked cs → into ≠ from →
  mergeClusters cs into from = Some cs' →
  length cs' = length cs
  ∧ u64 (total size cs') = u64 (total size cs)
  ∧ u64 (total weight cs') = u64 (total weight cs)
  ∧ (initialWeight <$> cs') = (initialWeight <$> cs)
  ∧ (bestPred <$> cs') = (bestPred <$> cs)
  ∧ (∀ x c c', cs !! x = Some c → cs' !! x = Some c' →
       size c' = if decide (x = from) then 0
                 else if decide (x = into) then u64 (size c + default 0 (size <$> cs !! from))
                 else size c).
Proof.
  intros Hdl Hne Hm.
  destruct (mergeClusters_inputs _ _ _ _ Hm) as (ci & cf & Hci & Hcf).
  destruct (doubly_linked_range _ _ _ Hdl Hci) as [_ Ht1].
  destruct (doubly_linked_range _ _ _ Hdl Hcf) as [_ Ht2].
  destruct (mergeClusters_spec cs into from ci cf Hne Hci Hcf Ht1 Ht2)
    as (cs'' & Hm' & Hlen & Hspec).
  assert (cs'' = cs') as -> by congruence.
  assert (Hmoved : ∀ f : Cluster → Z,
            (∀ x c, cs !! x = Some c →
               ∃ c', cs' !! x = Some c'
                 ∧ f c' = (if decide (x = from) then 0
                           else if decide (x = into) then u64 (f ci + f cf) else f c)) →
            u64 (total f cs') = u64 (total f cs)).
  { intros f Hf.
    assert (Hl : f <$> cs' = <[from := 0]> (<[into := u64 (f ci + f cf)]> (f <$> cs))).
    { apply list_eq. intros x. rewrite list_lookup_fmap.
      destruct (cs !! x) as [c|] eqn:Hx.
      - destruct (Hf _ _ Hx) as (c' & -> & Hfc). simpl. rewrite Hfc.
        destruct (decide (x = from)) as [->|Hx1].
        + rewrite list_lookup_insert_eq; [done|].
          rewrite length_insert, length_fmap. by eapply lookup_lt_Some.
        + rewrite list_lookup_insert_ne by done.
          destruct (decide (x = into)) as [->|Hx2].
          * rewrite list_lookup_insert_eq; [done|].
            rewrite length_fmap. by eapply lookup_lt_Some.
          * rewrite list_lookup_insert_ne by done. by rewrite list_lookup_fmap, Hx.
      - assert (cs' !! x = None) as ->
          by (apply lookup_ge_None; apply lookup_ge_None in Hx; lia).
        symmetry. apply lookup_ge_None. rewrite !length_insert, length_fmap.
        by apply lookup_ge_None. }
    unfold total. rewrite Hl.
    rewrite (Zsum_insert _ from (f cf))
      by (rewrite list_lookup_insert_ne by done; by rewrite list_lookup_fmap, Hcf).
    rewrite (Zsum_insert _ into (f ci)) by (by rewrite list_lookup_fmap, Hci).
    replace (Zsum (f <$> cs) - f ci + u64 (f ci + f cf) - f cf + 0)
      with (Zsum (f <$> cs) - f ci - f cf + u64 (f ci + f cf)) by lia.
    apply u64_sum_absorbs. }
  assert (Hsame : ∀ {A : Type} (f : Cluster → A),
            (∀ x c, cs !! x = Some c → ∃ c', cs' !! x = Some c' ∧ f c' = f c) →
            f <$> cs' = f <$> cs).
  { intros A f Hf. apply list_eq. intros x. rewrite !list_lookup_fmap.
    destruct (cs !! x) as [c|] eqn:Hx.
    - destruct (Hf _ _ Hx) as (c' & -> & Hfc). simpl. by rewrite Hfc.
    - assert (cs' !! x = None) as ->
        by (apply lookup_ge_None; apply lookup_ge_None in Hx; lia). done. }
  split; [done|]. split; [|split; [|split; [|split]]].
  - apply Hmoved. intros x c Hx.
    destruct (Hspec _ _ Hx) as (c' & ? & _ & _ & ? & _). eauto.
  - apply Hmoved. intros x c Hx.
    destruct (Hspec _ _ Hx) as (c' & ? & _ & _ & _ & ? & _). eauto.
  - apply Hsame. intros x c Hx.
    destruct (Hspec _ _ Hx) as (c' & ? & _ & _ & _ & _ & ? & _). eauto.
  - apply Hsame. intros x c Hx.
    destruct (Hspec _ _ Hx) as (c' & ? & _ & _ & _ & _ & _ & ?). eauto.
  - intros x c c' Hx Hx'. destruct (Hspec _ _ Hx) as (c'' & Hx'' & _ & _ & Hsz & _).
    assert (c'' = c') as -> by congruence. rewrite Hsz, Hcf. simpl.
    destruct (decide (x = from)); [done|].
    destruct (decide (x = into)) as [->|]; [|done]. congruence.
Qed.

(** Whatever the leaders, the index [getLeader] returns is a root, and the
    roots stay roots. *)
Lemma getLeader_loop_roots fuel leaders v leaders' r :
  getLeader_loop fuel leaders v = Some (leaders', r) →
  leaders' !! r = Some r
  ∧ length leaders' = length leaders
  ∧ ∀ x, leaders !! x = Some x → leaders' !! x = Some x.
Proof.
  revert leaders v. induction fuel as [|fuel IH]; intros leaders v Hrun; [done|].
  simpl in Hrun. destruct (leaders !! v) as [lv|] eqn:Hv; [|done]. simpl in Hrun.
  destruct (decide (lv = v)) as [->|Hne].
  - rewrite bool_decide_eq_false_2 in Hrun by (by intros ?).
    injection Hrun as <- <-. done.
  - rewrite bool_decide_eq_true_2 in Hrun by done.
    destruct (leaders !! lv) as [llv|] eqn:Hlv; [|done]. simpl in Hrun.
    destruct (IH _ _ Hrun) as (Hr & Hlen & Hroots).
    split; [done|]. split; [by rewrite Hlen, length_insert|].
    intros x Hx. apply Hroots. rewrite list_lookup_insert_ne; [done|].
    intros ->. congruence.
Qed.

(** What the merge loop keeps of the clusters [cs0] it starts from. *)
Definition merge_state (cs0 : list Cluster) (st : list Cluster * list nat) : Prop :=
  doubly_linked st.1
  ∧ length st.1 = length cs0
  ∧ u64 (total size st.1) = u64 (total size cs0)
  ∧ u64 (total weight st.1) = u64 (total weight cs0)
  ∧ (initialWeight <$> st.1) = (initialWeight <$> cs0)
  ∧ (bestPred <$> st.1) = (bestPred <$> cs0)
  ∧ (∀ x c, st.1 !! x = Some c → st.2 !! x = Some x ∨ size c = 0).

(** A step of the merge loop leaves the clusters as they are or merges the
    cluster of the step into another one. *)
Lemma mergeStep_cases st l st' :
  mergeStep st l = Some st' →
  (st'.1 = st.1
   ∧ (st'.2 = st.2
      ∨ ∃ v r, getLeader st.2 v = Some (st'.2, r)))
  ∨ ∃ v leaders predL,
      getLeader st.2 v = Some (leaders, predL)
      ∧ l ≠ predL
      ∧ is_Some (leaders !! l)
      ∧ mergeClusters st.1 predL l = Some st'.1
      ∧ st'.2 = <[l := predL]> leaders.
Proof.
  unfold mergeStep. intros Hstep.
  destruct (st.1 !! l) as [c|]; [|done]. simpl in Hstep.
  destruct (unlikelyEdge c); [injection Hstep as <-; left; split; [done|by left]|].
  destruct (getLeader st.2 _) as [[leaders predL]|] eqn:Hget; [|done]. simpl in Hstep.
  assert (Hskip : Some (st.1, leaders) = Some st' →
            st'.1 = st.1
            ∧ (st'.2 = st.2 ∨ ∃ v r, getLeader st.2 v = Some (st'.2, r))).
  { intros [= <-]. split; [done|]. right. eauto. }
  destruct (decide (l = predL)) as [Heq|Hne].
  { rewrite bool_decide_eq_true_2 in Hstep by done. left. by apply Hskip. }
  rewrite bool_decide_eq_false_2 in Hstep by done.
  destruct (st.1 !! predL) as [predC|]; [|done]. simpl in Hstep.
  destruct (tooLarge c predC); [left; by apply Hskip|].
  destruct (isNewDensityBad predC c); [left; by apply Hskip|].
  destruct (leaders !! l) as [ll|] eqn:Hll; [|done]. simpl in Hstep.
  destruct (mergeClusters st.1 predL l) as [cs'|] eqn:Hm; [|done]. simpl in Hstep.
  injection Hstep as <-. right.
  exists (Z.to_nat (Edge.from (bestPred c))), leaders, predL. simpl. eauto 10.
Qed.

Lemma mergeStep_state cs0 st l st' :
  merge_state cs0 st → mergeStep st l = Some st' → merge_state cs0 st'.
Proof.
  intros (Hdl & Hlen & Hsz & Hw & Hiw & Hbp & Hroots) Hstep.
  destruct (mergeStep_cases _ _ _ Hstep)
    as [[Hcs Hld]|(v & leaders & predL & Hget & Hne & Hl & Hm & Hld)].
  - unfold merge_state. rewrite Hcs. do 6 (split; [done|]).
    intros x c Hx. destruct (Hroots _ _ Hx) as [Hr|Hz]; [|by right]. left.
    destruct Hld as [->|(v & r & Hget)]; [done|].
    destruct (getLeader_loop_roots _ _ _ _ _ Hget) as (_ & _ & Hkeep). by apply Hkeep.
  - destruct (getLeader_loop_roots _ _ _ _ _ Hget) as (Hroot & Hlenl & Hkeep).
    destruct (mergeClusters_totals _ _ _ _ Hdl (not_eq_sym Hne) Hm)
      as (Hlen' & Hsz' & Hw' & Hiw' & Hbp' & Hsizes).
    split; [exact (mergeClusters_doubly_linked _ _ _ _ Hdl (not_eq_sym Hne) Hm)|].
    split; [congruence|]. split; [congruence|]. split; [congruence|].
    split; [congruence|]. split; [congruence|].
    intros x c' Hx'. rewrite Hld.
    destruct (lookup_lt_is_Some_2 st.1 x) as [c Hx];
      [rewrite <- Hlen'; by eapply lookup_lt_Some|].
    rewrite (Hsizes _ _ _ Hx Hx').
    destruct (decide (x = l)) as [->|Hxl]; [by right|].
    rewrite list_lookup_insert_ne by done.
    destruct (decide (x = predL)) as [->|Hxp]; [by left|].
    destruct (Hroots _ _ Hx) as [Hr|Hz]; [left; by apply Hkeep|by right].
Qed.

Lemma merge_state_start cs :
  doubly_linked cs → merge_state cs (cs, iota (length cs)).
Proof.
  intros Hdl. do 6 (split; [done|]). intros x c Hx. left. simpl. unfold iota.
  apply lookup_seq. split; [done|]. by eapply lookup_lt_Some.
Qed.

Lemma fresh_doubly_linked sized cs : fresh sized cs → doubly_linked cs.
Proof.
  intros Hfresh x c Hx. destruct (Hfresh _ _ Hx) as (Hn & Hp & _).
  rewrite Hn, Hp. split; exists c; by rewrite ?Hn, ?Hp.
Qed.

(** The state of the merge loop at its end. *)
Lemma mergePass_state sized cs :
  fresh sized cs →
  ∃ st, foldM mergeStep (cs, iota (length cs))
          (stable_sort (denser cs) (iota (length cs))) = Some st
        ∧ mergePass cs = Some st.1
        ∧ merge_state cs st
        ∧ merge_inv sized (length cs) st [].
Proof.
  intros Hfresh.
  destruct (merge_loop sized (length cs) (cs, iota (length cs))
              (stable_sort (denser cs) (iota (length cs)))) as (st & Hrun & Hinv).
  { apply merge_inv_start; [done|]. apply stable_sort_Permutation. }
  exists st. split; [done|]. split; [unfold mergePass; by rewrite Hrun|].
  split; [|done].
  eapply (foldM_invariant (merge_state cs)); [| |exact Hrun].
  - apply merge_state_start. by eapply fresh_doubly_linked.
  - intros st1 l st2 _. apply mergeStep_state.
Qed.

(** X13. The merge loop of [run] goes through for every profile and keeps
    the clusters doubly linked: [prev] of the [next] of a cluster is the
    cluster, and [next] of its [prev] too; it keeps the number of clusters,
    and the [initialWeight] and the [bestPred] of every cluster. *)
Theorem mergePass_keeps_links `{SectionInfo} (profile : list ((nat * nat) * Z)) :
  ∃ g cs,
    newCallGraphSort profile = Some g
    ∧ mergePass (clusters g) = Some cs
    ∧ length cs = length (clusters g)
    ∧ doubly_linked cs
    ∧ (initialWeight <$> cs) = (initialWeight <$> clusters g)
    ∧ (bestPred <$> cs) = (bestPred <$> clusters g).
Proof.
  destruct (construction_built profile) as (g0 & Hg0 & _).
  assert (Hg : newCallGraphSort profile = Some (snapshotWeights g0))
    by (unfold newCallGraphSort; by rewrite Hg0).
  destruct (mergePass_state false _ (fresh_of_construction _ _ Hg))
    as (st & _ & Hpass & (Hdl & Hlen & _ & _ & Hiw & Hbp & _) & _).
  exists (snapshotWeights g0), st.1. done.
Qed.

(** X14. The merge loop of [run] moves sizes and weights and loses none:
    the sizes of the clusters add up to the same [uint64_t] before and after
    it, and so do the weights; and a cluster that is no longer its own leader
    was merged into another and has the size 0. *)
Theorem mergePass_conserves `{SectionInfo} (profile : list ((nat * nat) * Z)) :
  ∃ g st,
    newCallGraphSort profile = Some g
    ∧ foldM mergeStep (clusters g, iota (length (clusters g)))
        (stable_sort (denser (clusters g)) (iota (length (clusters g)))) = Some st
    ∧ mergePass (clusters g) = Some st.1
    ∧ u64 (total size st.1) = u64 (total size (clusters g))
    ∧ u64 (total weight st.1) = u64 (total weight (clusters g))
    ∧ ∀ x c, st.1 !! x = Some c → st.2 !! x ≠ Some x → size c = 0.
Proof.
  destruct (construction_built profile) as (g0 & Hg0 & _).
  assert (Hg : newCallGraphSort profile = Some (snapshotWeights g0))
    by (unfold newCallGraphSort; by rewrite Hg0).
  destruct (mergePass_state false _ (fresh_of_construction _ _ Hg))
    as (st & Hrun & Hpass & (_ & _ & Hsz & Hw & _ & _ & Hroots) & _).
  exists (snapshotWeights g0), st. do 5 (split; [done|]).
  intros x c Hx Hnot. by destruct (Hroots _ _ Hx).
Qed.

(** ** Call-graph sorting: the order, whatever the sizes *)

Lemma concat_NoDup_unique {A : Type} (G : list (list A)) L L' x :
  NoDup (concat G) → L ∈ G → L' ∈ G → x ∈ L → x ∈ L' → L = L'.
Proof.
  induction G as [|B G IH]; intros Hnd HL HL' Hx Hx'; [by apply elem_of_nil in HL|].
  simpl in Hnd. apply NoDup_app in Hnd as (_ & Hdisj & Hnd).
  apply elem_of_cons in HL as [->|HL]; apply elem_of_cons in HL' as [->|HL'].
  - done.
  - exfalso. apply (Hdisj x Hx). apply elem_of_concat. eauto.
  - exfalso. apply (Hdisj x Hx'). apply elem_of_concat. eauto.
  - by apply IH.
Qed.

(** A cycle for each of the heads [l]. *)
Lemma pick_cycles G (l : list nat) :
  (∀ x, x ∈ l → head_of G x) →
  ∃ Gs, heads Gs = l ∧ Forall (λ L, L ∈ G) Gs.
Proof.
  induction l as [|r l IH]; intros Hl.
  - by exists [].
  - destruct IH as (Gs & Hheads & Hin); [intros x Hx; apply Hl; by right|].
    destruct (Hl r) as (L & HL & Hr); [by left|].
    exists (L :: Gs). split; [|by constructor].
    unfold heads in *. rewrite fmap_cons, Hr, Hheads. done.
Qed.

Lemma NoDup_concat_picked G Gs :
  NoDup (concat G) → Forall (λ L, L ∈ G ∧ is_Some (L !! 0%nat)) Gs →
  NoDup (heads Gs) → NoDup (concat Gs).
Proof.
  intros HG. induction Gs as [|L Gs IH]; intros Hin Hnd; [constructor|].
  apply Forall_cons in Hin as [[HL [r Hr]] Hin].
  unfold heads in Hnd. rewrite fmap_cons, Hr in Hnd. fold (heads Gs) in Hnd.
  apply NoDup_cons in Hnd as [Hr' Hnd]. simpl.
  apply NoDup_app. split; [by eapply NoDup_concat_elem|]. split; [|by apply IH].
  intros x Hx Hx'. apply elem_of_concat in Hx' as (L' & HL' & Hx').
  rewrite Forall_forall in Hin. destruct (Hin _ HL') as [HL'G _].
  assert (L = L') as <- by (by eapply concat_NoDup_unique).
  apply Hr'. unfold heads. apply list_elem_of_fmap. exists L. by rewrite Hr.
Qed.

Lemma survivors_elem cs x :
  x ∈ survivors cs ↔ ∃ c, cs !! x = Some c ∧ 0 < size c.
Proof.
  unfold survivors. rewrite stable_sort_Permutation.
  rewrite list_elem_of_In, filter_In, <- list_elem_of_In. unfold iota.
  rewrite elem_of_seq. split.
  - intros [_ Hsz]. destruct (cs !! x) as [c|]; [|done].
    exists c. split; [done|]. apply Z.gtb_lt in Hsz. lia.
  - intros (c & Hx & Hsz). rewrite Hx. split.
    + apply lookup_lt_Some in Hx. lia.
    + apply Z.gtb_lt. lia.
Qed.

Lemma NoDup_survivors cs : NoDup (survivors cs).
Proof.
  unfold survivors. rewrite stable_sort_Permutation.
  apply NoDup_ListNoDup, List.NoDup_filter, NoDup_ListNoDup, NoDup_seq.
Qed.

(** The second half of [run] on the clusters the merge loop leaves. *)
Lemma orderPass_general cs leaders secs :
  merge_inv false (length cs) (cs, leaders) [] →
  (∀ x c, cs !! x = Some c → leaders !! x = Some x ∨ size c = 0) →
  NoDup secs → length secs = length cs →
  ∃ Gs result,
    survivors cs = heads Gs
    ∧ Forall (is_cycle false cs) Gs
    ∧ NoDup (concat Gs)
    ∧ orderPass cs secs = Some result
    ∧ (∀ j y, concat Gs !! j = Some y →
              ∃ s, secs !! y = Some s ∧ result !! s = Some (1 + Z.of_nat j))
    ∧ (∀ s, (∀ y, y ∈ concat Gs → secs !! y ≠ Some s) → result !! s = None).
Proof.
  intros (G & h & _ & [Hperm Hcyc] & _ & _ & Hroots & _) Hempty Hsecs Hlen.
  simpl in *.
  assert (HndG : NoDup (concat G)) by (rewrite Hperm; apply NoDup_seq).
  destruct (pick_cycles G (survivors cs)) as (Gs & Hheads & Hin).
  { intros x Hx. apply survivors_elem in Hx as (c & Hx & Hsz). apply Hroots.
    destruct (Hempty _ _ Hx) as [?|Hz]; [done|lia]. }
  rewrite Forall_forall in Hcyc.
  assert (Hcyc' : Forall (is_cycle false cs) Gs).
  { eapply Forall_impl; [exact Hin|]. intros L HL. by apply Hcyc. }
  assert (Hnd : NoDup (concat Gs)).
  { apply (NoDup_concat_picked G); [done| |rewrite Hheads; apply NoDup_survivors].
    eapply Forall_impl; [exact Hin|]. intros L HL. split; [done|].
    destruct (Hcyc _ HL) as (r & c & Hr & _). by exists r. }
  assert (Hrange : ∀ y, y ∈ concat Gs → (y < length secs)%nat).
  { intros y Hy. apply elem_of_concat in Hy as (L & HL & Hy).
    rewrite Forall_forall in Hin.
    assert (Hy' : y ∈ concat G) by (apply elem_of_concat; exists L; auto).
    rewrite Hperm in Hy'. apply elem_of_seq in Hy'. lia. }
  assert (Hshort : (length (concat Gs) ≤ length cs)%nat).
  { assert (Hsub : concat Gs ⊆+ seq 0 (length cs)).
    { apply NoDup_submseteq; [done|]. intros y Hy. apply elem_of_seq.
      specialize (Hrange y Hy). lia. }
    apply submseteq_length in Hsub. by rewrite length_seq in Hsub. }
  destruct (place_all secs (concat Gs) ∅ 1 Hsecs Hnd Hrange) as (m' & Hrun & Hplaced & Hout).
  exists Gs, m'. do 3 (split; [done|]). split; [|split].
  - unfold orderPass. rewrite <- Hheads.
    rewrite (walks_cycles false) by done. by rewrite Hrun.
  - intros j y Hj.
    destruct (lookup_lt_is_Some_2 secs y) as [s Hs];
      [apply Hrange; by eapply list_elem_of_lookup_2|].
    exists s. split; [done|]. by eapply Hplaced.
  - intros s Hs. by rewrite Hout.
Qed.

(** X15. The order for every profile, whatever the sizes of the sections:
    [computeCallGraphProfileOrder] returns; the clusters [run] keeps, those
    of a size above 0 after the merge loop, are the heads of cycles of
    [next] that share no cluster; the sections of these cycles are placed
    cycle after cycle, each in the order of its cycle, under the indices 1,
    2, ... without a gap and without a repetition; no other section gets an
    index; and every cluster of a size above 0 is placed. *)
Theorem order_is_dense `{SectionInfo} (profile : list ((nat * nat) * Z)) :
  ∃ g cs Gs result,
    newCallGraphSort profile = Some g
    ∧ mergePass (clusters g) = Some cs
    ∧ computeCallGraphProfileOrder profile = Some result
    ∧ survivors cs = heads Gs
    ∧ Forall (λ L, ∃ r, L !! 0%nat = Some r ∧ linked cs L r) Gs
    ∧ NoDup (concat Gs)
    ∧ (∀ j y, concat Gs !! j = Some y →
              ∃ s, sections g !! y = Some s ∧ result !! s = Some (1 + Z.of_nat j))
    ∧ (∀ s k, result !! s = Some k →
              ∃ j y, concat Gs !! j = Some y ∧ sections g !! y = Some s
                     ∧ k = 1 + Z.of_nat j)
    ∧ (∀ k, 1 ≤ k ≤ Z.of_nat (length (concat Gs)) →
            ∃ s, result !! s = Some k ∧ ∀ s', result !! s' = Some k → s' = s)
    ∧ (∀ y c, cs !! y = Some c → 0 < size c → y ∈ concat Gs).
Proof.
  destruct (construction_built profile) as (g0 & Hg0 & _).
  assert (Hg : newCallGraphSort profile = Some (snapshotWeights g0))
    by (unfold newCallGraphSort; by rewrite Hg0).
  set (g := snapshotWeights g0) in *.
  destruct (construction_fresh profile g Hg) as (Hlen & Hsecs & _).
  destruct (mergePass_state false _ (fresh_of_construction _ _ Hg))
    as ([cs leaders] & _ & Hpass & (_ & Hlencs & _ & _ & _ & _ & Hempty) & Hinv).
  cbn [fst snd] in *. rewrite <- Hlencs in Hinv.
  destruct (orderPass_general cs leaders (sections g) Hinv Hempty Hsecs)
    as (Gs & result & Hsurv & Hcyc & Hnd & Horder & Hin & Hout); [congruence|].
  assert (Hfind : ∀ s k, result !! s = Some k →
            ∃ j y, concat Gs !! j = Some y ∧ sections g !! y = Some s
                   ∧ k = 1 + Z.of_nat j).
  { intros s k Hk.
    destruct (decide (Exists (λ y, sections g !! y = Some s) (concat Gs))) as [Hex|Hno].
    - apply Exists_exists in Hex as (y & Hy & Hs).
      apply list_elem_of_lookup_1 in Hy as [j Hj].
      destruct (Hin _ _ Hj) as (s' & Hs' & Hres).
      exists j, y. do 2 (split; [done|]). congruence.
    - rewrite Hout in Hk; [done|]. intros y Hy Hs. apply Hno, Exists_exists. eauto. }
  exists g, cs, Gs, result. do 2 (split; [done|]).
  split.
  { unfold computeCallGraphProfileOrder. rewrite Hg. simpl. unfold run.
    rewrite Hpass. done. }
  split; [done|].
  split.
  { eapply Forall_impl; [exact Hcyc|].
    intros L (r & c & Hr & _ & _ & Hlink & _). eauto. }
  do 3 (split; [done|]).
  split.
  - intros k Hk.
    destruct (lookup_lt_is_Some_2 (concat Gs) (Z.to_nat (k - 1))) as [y Hy]; [lia|].
    destruct (Hin _ _ Hy) as (s & Hs & Hres).
    exists s. split; [rewrite Hres; f_equal; lia|].
    intros s' Hs'. destruct (Hfind _ _ Hs') as (j' & y' & Hj' & Hy' & Hk').
    assert (j' = Z.to_nat (k - 1)) as -> by lia. congruence.
  - intros y c Hy Hsz.
    assert (Hsy : y ∈ survivors cs) by (apply survivors_elem; eauto).
    rewrite Hsurv in Hsy. unfold heads in Hsy.
    apply list_elem_of_fmap in Hsy as (L & -> & HL).
    rewrite Forall_forall in Hcyc. destruct (Hcyc _ HL) as (r & c' & Hr & _).
    rewrite Hr. simpl. apply elem_of_concat. exists L. split; [done|].
    by eapply list_elem_of_lookup_2.
Qed.

Lemma one_empty_range (s : nat) : 0 ≤ (if decide (s = 1%nat) then 0 else 10) < 2 ^ 64.
Proof. destruct (decide (s = 1%nat)); lia. Qed.

(** Sections of 10 bytes, but for the section 1, of no bytes. *)
Definition one_empty_section : SectionInfo :=
  Build_SectionInfo (λ s, s) (λ s, if decide (s = 1%nat) then 0 else 10)
    (λ _, 0%nat) one_empty_range.

(** A section of no bytes that nothing merges into gets no index, and the
    sections of 10 bytes next to it are numbered without a gap. *)
Example empty_section_is_skipped :
  (λ result : gmap nat Z, (result !!.) <$> [0%nat; 1%nat; 2%nat])
  <$> @computeCallGraphProfileOrder one_empty_section
        [((0%nat, 0%nat), 5); ((1%nat, 1%nat), 7); ((2%nat, 2%nat), 1)]
  = Some [Some 1; None; Some 2].
Proof. vm_compute. reflexivity. Qed.

(** ** Call-graph sorting: the nodes of the graph *)

(** The sections of the kept edges, in the order the constructor meets
    them: of each edge the caller, then the callee. *)
Definition endpoints `{SectionInfo} (profile : list ((nat * nat) * Z)) : list nat :=
  flat_map (λ c, if kept c then [repl c.1.1; repl c.1.2] else []) profile.

Definition add_new (l : list nat) (x : nat) : list nat :=
  if bool_decide (x ∈ l) then l else l ++ [x].

(** The list without the repetitions of its elements. *)
Definition first_seen (l : list nat) : list nat := foldl add_new [] l.

Lemma elem_of_add_new l x y : y ∈ add_new l x ↔ y ∈ l ∨ y = x.
Proof.
  unfold add_new. destruct (decide (x ∈ l)) as [Hin|Hout].
  - rewrite bool_decide_eq_true_2 by done. split; [by left|]. by intros [?| ->].
  - rewrite bool_decide_eq_false_2 by done. rewrite elem_of_app, list_elem_of_singleton.
    done.
Qed.

Lemma first_seen_snoc l x : first_seen (l ++ [x]) = add_new (first_seen l) x.
Proof. unfold first_seen. by rewrite foldl_app. Qed.

Lemma elem_of_first_seen l y : y ∈ first_seen l ↔ y ∈ l.
Proof.
  induction l as [|x l IH] using rev_ind; [done|].
  rewrite first_seen_snoc, elem_of_add_new, IH, elem_of_app, list_elem_of_singleton. done.
Qed.

Section nodes.
Context `{SectionInfo}.

Lemma getOrCreateNode_sections g prefix s i g' :
  built g prefix → getOrCreateNode s g = (i, g') →
  sections g' = add_new (sections g) s.
Proof.
  intros (_ & Hbij & _) Hnode. unfold getOrCreateNode in Hnode. unfold add_new.
  destruct (secToCluster g !! s) as [j|] eqn:Hs.
  - injection Hnode as <- <-. apply Hbij in Hs.
    rewrite bool_decide_eq_true_2; [done|]. by eapply list_elem_of_lookup_2.
  - injection Hnode as <- <-. simpl. rewrite bool_decide_eq_false_2; [done|].
    intros Hin. apply list_elem_of_lookup_1 in Hin as [j Hj]. apply Hbij in Hj.
    congruence.
Qed.

Lemma addEdge_sections g prefix c g' :
  built g prefix → addEdge g c = Some g' →
  sections g'
  = if kept c then add_new (add_new (sections g) (repl c.1.1)) (repl c.1.2)
    else sections g.
Proof.
  intros Hb. unfold addEdge, kept.
  destruct (decide (getOutputSection (repl c.1.1) = getOutputSection (repl c.1.2)))
    as [Heq|Hne].
  2: { rewrite bool_decide_eq_true_2, bool_decide_eq_false_2 by done.
       by intros [= <-]. }
  rewrite (bool_decide_eq_false_2 (_ ≠ _)) by (by intros ?).
  rewrite bool_decide_eq_true_2 by done.
  destruct (getOrCreateNode (repl c.1.1) g) as [from g1] eqn:H1.
  destruct (getOrCreateNode_built _ _ _ _ _ Hb H1) as (Hb1 & _).
  destruct (getOrCreateNode (repl c.1.2) g1) as [to g2] eqn:H2.
  rewrite <- (getOrCreateNode_sections _ _ _ _ _ Hb H1).
  rewrite <- (getOrCreateNode_sections _ _ _ _ _ Hb1 H2).
  destruct (clusters g2 !! to) as [toC|]; [|done]. simpl.
  destruct (bool_decide (from = to)); [by intros [= <-]|].
  destruct (_ !! to) as [toC'|]; [|done]. simpl. by intros [= <-].
Qed.

Lemma construction_nodes profile :
  ∃ g, foldM addEdge (mkCallGraphSort [] [] ∅) profile = Some g
       ∧ built g profile
       ∧ sections g = first_seen (endpoints profile).
Proof.
  induction profile as [|c profile IH] using rev_ind.
  - exists (mkCallGraphSort [] [] ∅). split; [done|]. split; [apply built_empty|done].
  - destruct IH as (g & Hg & Hb & Hsec). rewrite foldM_snoc, Hg. simpl.
    destruct (addEdge_built g profile c Hb) as (g' & Hadd & Hb').
    exists g'. do 2 (split; [done|]).
    rewrite (addEdge_sections _ _ _ _ Hb Hadd), Hsec.
    unfold endpoints. rewrite flat_map_app'. simpl. rewrite app_nil_r.
    fold (endpoints profile).
    destruct (kept c); [|by rewrite app_nil_r].
    change [repl c.1.1; repl c.1.2] with ([repl c.1.1] ++ [repl c.1.2]).
    by rewrite app_assoc, !first_seen_snoc.
Qed.
End nodes.

(** X16. The nodes of the graph are the sections of the kept edges: the
    constructor lists every section an edge inside one output section
    names, through [repl], once, in the order it meets them, the caller of
    an edge before its callee; a section only edges across output sections
    name is no node. *)
Theorem graph_nodes `{SectionInfo} (profile : list ((nat * nat) * Z)) :
  ∃ g,
    newCallGraphSort profile = Some g
    ∧ sections g = first_seen (endpoints profile)
    ∧ NoDup (sections g)
    ∧ ∀ s, s ∈ sections g
           ↔ ∃ c, c ∈ profile ∧ kept c = true ∧ (repl c.1.1 = s ∨ repl c.1.2 = s).
Proof.
  destruct (construction_nodes profile) as (g0 & Hg0 & _ & Hsec).
  assert (Hg : newCallGraphSort profile = Some (snapshotWeights g0))
    by (unfold newCallGraphSort; by rewrite Hg0).
  exists (snapshotWeights g0). split; [done|]. split; [done|].
  split; [by destruct (construction_fresh _ _ Hg) as (_ & ? & _)|].
  intros s. simpl. rewrite Hsec, elem_of_first_seen. unfold endpoints.
  rewrite elem_of_flat_map. split.
  - intros (c & Hc & Hs). exists c. split; [done|].
    destruct (kept c); [|by apply elem_of_nil in Hs]. split; [done|].
    apply elem_of_cons in Hs as [->|Hs]; [by left|].
    apply list_elem_of_singleton in Hs as ->. by right.
  - intros (c & Hc & Hk & Hs). exists c. split; [done|]. rewrite Hk.
    destruct Hs as [<-|<-]; [by left|right; by left].
Qed.

(** X17. A profile without a kept edge gives the empty order: if every
    edge joins sections of two output sections, and so for the empty
    profile, the graph has no cluster and no section gets an index. *)
Theorem no_kept_edge_no_order `{SectionInfo} (profile : list ((nat * nat) * Z)) :
  (∀ c, c ∈ profile → kept c = false) →
  computeCallGraphProfileOrder profile = Some ∅.
Proof.
  intros Hdrop.
  destruct (construction_nodes profile) as (g0 & Hg0 & (Hlen & _) & Hsec).
  assert (Hends : endpoints profile = []).
  { unfold endpoints. clear -Hdrop. induction profile as [|c profile IH]; [done|].
    simpl. rewrite (Hdrop c) by (by left). simpl. apply IH.
    intros c' Hc'. apply Hdrop. by right. }
  rewrite Hends in Hsec. simpl in Hsec. rewrite Hsec in Hlen.
  assert (Hcl : clusters g0 = []) by (by destruct (clusters g0)).
  unfold computeCallGraphProfileOrder, newCallGraphSort. rewrite Hg0. simpl.
  unfold run, snapshotWeights. simpl. rewrite Hcl, Hsec. reflexivity.
Qed.

Lemma no_kept_edge_no_order_witness :
  @computeCallGraphProfileOrder
    (Build_SectionInfo (λ s, s) (λ _, 10) (λ s, s) (λ _, ten_in_range))
    [((0%nat, 1%nat), 5); ((2%nat, 3%nat), 7)] = Some ∅.
Proof.
  apply (@no_kept_edge_no_order
           (Build_SectionInfo (λ s, s) (λ _, 10) (λ s, s) (λ _, ten_in_range))).
  intros c Hc. apply elem_of_cons in Hc as [->|Hc]; [reflexivity|].
  apply list_elem_of_singleton in Hc as ->. reflexivity.
Defined.

(** ** The symbol table: what [find] returns and what [insert] keeps *)



(** X19. [insert] only appends: a name the index holds keeps its binding,
    [symVector] and the arena keep what they held, at the same places, so
    the symbols handed out before stay what they were; the three grow by
    one entry for a new name and by none for a known one; and the demangled
    map is not touched. *)
Theorem insert_only_appends `{Collaborators} (st st1 : SymbolTable) (name : string)
    (sym : nat) :
  insert name st = Some (sym, st1) →
  (∀ k i, symMap st !! k = Some i → symMap st1 !! k = Some i)
  ∧ (∃ added, symVector st1 = symVector st ++ added
              ∧ length (arena st1) = (length (arena st) + length added)%nat
              ∧ (length added ≤ 1)%nat
              ∧ (added = [] ↔ is_Some (symMap st !! stripDefaultVersion name)))
  ∧ (∀ p s, arena st !! p = Some s → arena st1 !! p = Some s)
  ∧ demangledSyms st1 = demangledSyms st.
Proof.
  intros Hins. destruct (symMap st !! stripDefaultVersion name) as [i|] eqn:Hi.
  - rewrite (insert_hit _ _ _ Hi) in Hins.
    destruct (symVector st !! i) as [p|]; simplify_eq/=.
    split; [done|]. split; [|done]. exists []. rewrite app_nil_r. simpl.
    split; [done|]. split; [lia|]. split; [lia|]. split; [by eexists|done].
  - rewrite (insert_miss _ _ Hi) in Hins. simplify_eq/=.
    split; [|split; [|split; [|done]]].
    + intros k j Hk. rewrite lookup_insert_ne; [done|]. congruence.
    + eexists [_]. split; [done|]. rewrite length_app. simpl.
      split; [done|]. split; [lia|]. split; [done|]. by intros [? ?].
    + intros p s Hp. by apply lookup_app_l_Some.
Qed.

Lemma insert_only_appends_witness :
  ∃ sym st1,
    @insert example_collaborators "bar" two_symbol_table = Some (sym, st1)
    ∧ symMap st1 !! "foo" = Some 0%nat
    ∧ symVector st1 = [0%nat; 1%nat; 2%nat].
Proof.
  destruct (@insert example_collaborators "bar" two_symbol_table)
    as [[sym st1]|] eqn:Hins; [|by vm_compute in Hins].
  exists sym, st1. split; [done|].
  destruct (@insert_only_appends example_collaborators two_symbol_table st1 "bar" sym Hins)
    as (Hkeep & _).
  split; [by apply Hkeep|].
  vm_compute in Hins. by injection Hins as <- <-.
Defined.
